(** * Energy behaviour of the Verlet, forward-Euler and backward-Euler
      integrators of [verlet.ipynb]

    The notebook integrates a chain of coupled harmonic oscillators with
    three time-stepping schemes and records the total energy after every
    step.  This development embeds the notebook's code cells:

    - the arithmetic of the scalars is an interface ([Scalar]) with two
      instances, exact rationals ([Qc]) and IEEE binary64 ([float]);
    - numpy arrays bound to names are objects in a store; the in-place
      operators [+=], [-=] and [a[k] = x] update the object, [.copy()] and
      the assignment of a computed array make a new one.  The value of an
      arithmetic expression is a fresh array that nothing else refers to,
      so it is a plain value;
    - the cells are programs of a state-and-exception monad.

    Part I holds the definitions, Part II the lemmas and theorems. *)

From Stdlib Require Import ZArith QArith Qcanon Qround Floats Lia.
From stdpp Require Import base list.

(** * Part I: definitions *)

(** ** Exceptions and results *)

(** The Python exceptions the embedded code can raise. [DanglingRef] is a
    read of a location that is not in the store; no well-scoped program
    raises it. *)
Inductive exn : Type :=
  | ValueError
  | IndexError
  | ZeroDivisionError
  | OverflowError
  | DanglingRef.

Inductive result (X : Type) : Type :=
  | Ok (x : X)
  | Raise (e : exn).
Arguments Ok {X} x.
Arguments Raise {X} e.

Definition is_ok {X} (r : result X) : bool :=
  match r with Ok _ => true | Raise _ => false end.

(** ** Scalar arithmetic *)

(** What the notebook asks of its numbers: conversion from Python [int]s,
    the four operations, negation, [np.maximum]/[np.minimum], the finiteness test of
    [np.isfinite], the test [x == 0], Python's [int(x)], the constant
    [np.pi], and the power [x ** 2] of a Python float, which can raise. *)
Class Scalar (A : Type) : Type := {
  of_int : Z → A;
  add : A → A → A;
  sub : A → A → A;
  mul : A → A → A;
  div : A → A → A;
  opp : A → A;
  maximum : A → A → A;
  minimum : A → A → A;
  is_finite : A → bool;
  is_zero : A → bool;
  int_of : A → result Z;
  np_pi : A;
  pow2 : A → result A
}.

Declare Scope scalar_scope.
Delimit Scope scalar_scope with sc.
Infix "[+]" := add (at level 50, left associativity) : scalar_scope.
Infix "[-]" := sub (at level 50, left associativity) : scalar_scope.
Infix "[*]" := mul (at level 40, left associativity) : scalar_scope.
Infix "[/]" := div (at level 40, left associativity) : scalar_scope.
Local Open Scope scalar_scope.

(** *** Exact rationals *)

(** [np.pi] is the double 0x1.921fb54442d18p+1, that is
    884279719003555 / 2^48. *)
Definition np_pi_Q : Q := 884279719003555 # 281474976710656.

(** Python's [int(x)] truncates toward zero. *)
Definition Qc_trunc (x : Qc) : Z := Z.quot (Qnum x) (Zpos (Qden x)).

Definition Qc_leb (x y : Qc) : bool := Qle_bool x y.

#[export] Instance Qc_scalar : Scalar Qc := {|
  of_int z := Q2Qc (inject_Z z);
  add := Qcplus;
  sub := Qcminus;
  mul := Qcmult;
  div := Qcdiv;
  opp := Qcopp;
  maximum x y := if Qc_leb x y then y else x;
  minimum x y := if Qc_leb x y then x else y;
  is_finite _ := true;
  is_zero x := Qc_eq_bool x 0;
  int_of x := Ok (Qc_trunc x);
  np_pi := Q2Qc np_pi_Q;
  pow2 x := Ok (Qcmult x x)
|}.

(** *** IEEE binary64 *)

Module F64.

Definition of_int (z : Z) : float :=
  match z with
  | Z0 => PrimFloat.zero
  | Zpos _ => PrimFloat.of_uint63 (Uint63.of_Z z)
  | Zneg p => PrimFloat.opp (PrimFloat.of_uint63 (Uint63.of_Z (Zpos p)))
  end.

(** [np.maximum] and [np.minimum] propagate NaN. *)
Definition maximum (x y : float) : float :=
  if PrimFloat.is_nan x then x
  else if PrimFloat.is_nan y then y
  else if PrimFloat.ltb x y then y else x.

Definition minimum (x y : float) : float :=
  if PrimFloat.is_nan x then x
  else if PrimFloat.is_nan y then y
  else if PrimFloat.ltb y x then y else x.

(** [int(x)]: truncation toward zero; [OverflowError] on an infinity,
    [ValueError] on NaN. *)
Definition int_of (x : float) : result Z :=
  match Prim2SF x with
  | S754_zero _ => Ok 0%Z
  | S754_infinity _ => Raise OverflowError
  | S754_nan => Raise ValueError
  | S754_finite s m e =>
      let a := match e with
               | Z0 => Zpos m
               | Zpos k => Z.shiftl (Zpos m) (Zpos k)
               | Zneg k => Z.shiftr (Zpos m) (Zpos k)
               end in
      Ok (if s then Z.opp a else a)
  end.

Definition pi : float := 0x1.921fb54442d18p+1%float.

(** [x ** 2] for a Python float: the power is the C library's [pow],
    taken here to return the correctly rounded square, that is the
    product [x * x]; Python raises [OverflowError] when the power of a
    finite number is infinite, and returns NaN and infinities as they
    are. *)
Definition pow2 (x : float) : result float :=
  let y := PrimFloat.mul x x in
  if PrimFloat.is_finite x && PrimFloat.is_infinity y
  then Raise OverflowError else Ok y.

(** The rational number that a finite binary64 number stands for,
    [± m * 2^e]. *)
Definition value (x : float) : option Q :=
  match Prim2SF x with
  | S754_zero _ => Some 0%Q
  | S754_finite s m e =>
      let z := if s then Zneg m else Zpos m in
      Some (match e with
            | Z0 => inject_Z z
            | Zpos k => inject_Z (z * 2 ^ Zpos k)
            | Zneg k => Qmake z (2 ^ k)
            end)
  | _ => None
  end.

End F64.

#[export] Instance float_scalar : Scalar float := {|
  of_int := F64.of_int;
  add := PrimFloat.add;
  sub := PrimFloat.sub;
  mul := PrimFloat.mul;
  div := PrimFloat.div;
  opp := PrimFloat.opp;
  maximum := F64.maximum;
  minimum := F64.minimum;
  is_finite := PrimFloat.is_finite;
  is_zero := PrimFloat.is_zero;
  int_of := F64.int_of;
  np_pi := F64.pi;
  pow2 := F64.pow2
|}.

(** ** Arrays and sparse matrices as values *)

(** A one-dimensional array is the list of its entries. A scipy sparse
    matrix is the list of its rows, every entry written out: in exact
    arithmetic the sums over stored entries that the sparse kernels form
    are the sums over all entries.  In binary64 the two agree as long as no
    entry that is not stored meets a non-finite factor, and up to the order
    of the additions. *)
Abbreviation vec A := (list A) (only parsing).
Abbreviation matrix A := (list (list A)) (only parsing).

Section Values.
Context {A : Type} `{Scalar A}.

Definition zero : A := of_int 0.
Definition one : A := of_int 1.
Definition two : A := of_int 2.
(** The literal [0.5]. *)
Definition half : A := one [/] two.

Definition zeros (n : nat) : vec A := replicate n zero.
Definition ones (n : nat) : vec A := replicate n one.

Definition vadd (x y : vec A) : vec A := zip_with add x y.
Definition vsub (x y : vec A) : vec A := zip_with sub x y.
Definition vmul (x y : vec A) : vec A := zip_with mul x y.
Definition vscale (c : A) (x : vec A) : vec A := mul c <$> x.
Definition vneg (x : vec A) : vec A := opp <$> x.

(** [np.sum]: the accumulation starts from 0 and runs left to right
    (numpy adds long arrays in blocks; in exact arithmetic the order
    does not matter). *)
Definition vsum (x : vec A) : A := foldl add zero x.
(** [np.dot] of two one-dimensional arrays. *)
Definition vdot (x y : vec A) : A := vsum (vmul x y).

(** [M * x] for a sparse matrix and an array. *)
Definition matvec (M : matrix A) (x : vec A) : vec A := (λ r, vdot r x) <$> M.

(** The row [a * B], accumulated row by row of [B] as the sparse
    product kernel does. *)
Fixpoint vecmat (n : nat) (a : vec A) (B : matrix A) : vec A :=
  match a, B with
  | c :: a', r :: B' => vadd (vscale c r) (vecmat n a' B')
  | _, _ => zeros n
  end.

(** [M1 * M2] for two sparse matrices; [n] is the number of columns of
    [M2]. *)
Definition mmul (n : nat) (M1 M2 : matrix A) : matrix A :=
  (λ a, vecmat n a M2) <$> M1.

(** [M.T]; [n] is the number of columns of [M]. *)
Fixpoint transpose (n : nat) (M : matrix A) : matrix A :=
  match M with
  | [] => replicate n []
  | r :: M' => zip_with cons r (transpose n M')
  end.

Definition madd (M1 M2 : matrix A) : matrix A := zip_with vadd M1 M2.
Definition mscale (c : A) (M : matrix A) : matrix A := vscale c <$> M.

(** [scipy.sparse.eye(n)]. *)
Definition eye (n : nat) : matrix A :=
  (λ i, (λ j, if Nat.eqb i j then one else zero) <$> seq 0 n) <$> seq 0 n.

(** An [n] by [n] matrix. *)
Definition square (n : nat) (M : matrix A) : Prop :=
  length M = n ∧ Forall (λ r, length r = n) M.

End Values.

(** ** The exception monad *)

#[export] Instance result_ret : MRet result := λ _ x, Ok x.
#[export] Instance result_bind : MBind result := λ _ _ f r,
  match r with Ok x => f x | Raise e => Raise e end.

(** ** scipy.sparse.diags and the stiffness operator *)

Section Operator.
Context {A : Type} `{Scalar A}.

(** [a[k] = x] on an array value. *)
Definition setitem_vec (a : vec A) (k : nat) (x : A) : result (vec A) :=
  if Nat.ltb k (length a) then Ok (<[k := x]> a) else Raise IndexError.

(** Number of entries of the diagonal at [offset] of an [m] by [m]
    matrix (negative when the offset is out of bounds). *)
Definition diag_length (m : nat) (offset : Z) : Z :=
  (Z.of_nat m - Z.abs offset)%Z.

(** A diagonal fits when it is at least as long as its place in the
    matrix (the excess is cut off) or has one entry (which is
    repeated). *)
Definition diag_fits (m : nat) (d : vec A * Z) : bool :=
  let len := diag_length m d.2 in
  (0 <=? len)%Z &&
  ((len <=? Z.of_nat (length d.1))%Z || Nat.eqb (length d.1) 1).

Definition diag_entry (m : nat) (ds : list (vec A * Z)) (i j : nat) : A :=
  match find (λ d : vec A * Z, Z.eqb d.2 (Z.of_nat j - Z.of_nat i)) ds with
  | Some (d, _) =>
      if Nat.eqb (length d) 1 then default zero (d !! 0)
      else default zero (d !! Nat.min i j)
  | None => zero
  end.

(** [scipy.sparse.diags(diagonals, offsets)]; the shape is taken from
    the first diagonal. *)
Definition diags (ds : list (vec A * Z)) : result (matrix A) :=
  match ds with
  | [] => Raise ValueError
  | (d0, k0) :: _ =>
      let m := (length d0 + Z.abs_nat k0)%nat in
      if forallb (diag_fits m) ds
      then Ok ((λ i, (λ j, diag_entry m ds i j) <$> seq 0 m) <$> seq 0 m)
      else Raise ValueError
  end.

(** [np.ones(n)] for a Python integer. *)
Definition np_ones (n : Z) : result (vec A) :=
  if (n <? 0)%Z then Raise ValueError else Ok (ones (Z.to_nat n)).

(** The difference matrix [D] of the second code cell. *)
Definition D (n : nat) : result (matrix A) :=
  diag ← np_ones (Z.of_nat n);
  diag ← setitem_vec diag 0 zero;
  sub_diag ← np_ones (Z.of_nat n - 1);
  diags [(diag, 0%Z); (vneg sub_diag, (-1)%Z)].

Definition Λ (n : nat) : result (matrix A) :=
  d ← np_ones (Z.of_nat n);
  diags [(d, 0%Z)].

(** [L = D.T * Λ * D]. *)
Definition L (n : nat) : result (matrix A) :=
  D ← D n;
  Λ ← Λ n;
  Ok (mmul n (mmul n (transpose n D) Λ) D).

End Operator.

(** ** The store of array objects *)

(** A location names an array object; the store lists the objects in the
    order of their creation. *)
Abbreviation loc := nat (only parsing).
Abbreviation heap A := (list (list A)) (only parsing).

(** A program reads and updates the store and returns a value or raises. *)
Definition M (A X : Type) : Type := heap A → result (X * heap A).

#[export] Instance M_ret {A} : MRet (M A) := λ _ x h, Ok (x, h).
#[export] Instance M_bind {A} : MBind (M A) := λ _ _ f m h,
  match m h with
  | Ok (x, h') => f x h'
  | Raise e => Raise e
  end.

(** The state a program ends in, when it returns. *)
Definition final {A X} (r : result (X * heap A)) : option (heap A) :=
  match r with Ok (_, h) => Some h | Raise _ => None end.

Section Store.
Context {A : Type}.

Definition raise {X} (e : exn) : M A X := λ _, Raise e.

(** A pure computation that may raise, run inside a program. *)
Definition lift {X} (r : result X) : M A X := λ h,
  match r with Ok x => Ok (x, h) | Raise e => Raise e end.

(** The current entries of an array object. *)
Definition load (l : loc) : M A (vec A) := λ h,
  match h !! l with
  | Some a => Ok (a, h)
  | None => Raise DanglingRef
  end.

(** A new array object with entries [a]. *)
Definition new (a : vec A) : M A loc := λ h, Ok (length h, h ++ [a]).

(** Overwrite the entries of an existing object. *)
Definition store (l : loc) (a : vec A) : M A unit := λ h,
  if Nat.ltb l (length h) then Ok (tt, <[l := a]> h) else Raise DanglingRef.

(** [for k in range(count)], threading the bindings [s] of the names the
    body assigns. *)
Fixpoint for_range {S} (body : nat → S → M A S) (k count : nat) (s : S) : M A S :=
  match count with
  | 0 => mret s
  | Datatypes.S count' => s' ← body k s; for_range body (Datatypes.S k) count' s'
  end.

End Store.

(** ** numpy on array objects *)

Section Numpy.
Context {A : Type} `{Scalar A}.

(** numpy broadcasting of a one-dimensional operand to length [n]. *)
Definition broadcast (n : nat) (a : vec A) : result (vec A) :=
  if Nat.eqb (length a) n then Ok a
  else match a with
       | [x] => Ok (replicate n x)
       | _ => Raise ValueError
       end.

(** [a.copy()] *)
Definition np_copy (a : loc) : M A loc := v ← load a; new v.

(** [np.zeros(n)] for a Python integer, bound to a name. *)
Definition np_zeros (n : Z) : M A loc :=
  if (n <? 0)%Z then raise ValueError else new (zeros (Z.to_nat n)).

(** [a += b], in place. *)
Definition iadd (a : loc) (b : vec A) : M A unit :=
  v ← load a; b' ← lift (broadcast (length v) b); store a (vadd v b').

(** [a -= b], in place. *)
Definition isub (a : loc) (b : vec A) : M A unit :=
  v ← load a; b' ← lift (broadcast (length v) b); store a (vsub v b').

(** [a - b], a new array. *)
Definition np_sub (a b : vec A) : result (vec A) :=
  if Nat.eqb (length a) (length b) then Ok (vsub a b)
  else match a, b with
       | [x], _ => Ok (vsub (replicate (length b) x) b)
       | _, [y] => Ok (vsub a (replicate (length a) y))
       | _, _ => Raise ValueError
       end.

(** [a[k] = x], in place. *)
Definition setitem (a : loc) (k : nat) (x : A) : M A unit :=
  v ← load a; v' ← lift (setitem_vec v k x); store a v'.

(** [M * a] for a sparse [n] by [n] matrix [M] and an array [a]. *)
Definition sp_matvec (n : nat) (M : matrix A) (a : vec A) : result (vec A) :=
  if Nat.eqb (length a) n then Ok (matvec M a) else Raise ValueError.

(** [np.max(a)], [np.min(a)]: a reduction without identity. *)
Definition np_max (a : vec A) : result A :=
  match a with
  | [] => Raise ValueError
  | x :: a' => Ok (foldl maximum x a')
  end.

Definition np_min (a : vec A) : result A :=
  match a with
  | [] => Raise ValueError
  | x :: a' => Ok (foldl minimum x a')
  end.

(** [np.mean(a)]: the sum over the number of entries. *)
Definition np_mean (a : vec A) : A := vsum a [/] of_int (Z.of_nat (length a)).

End Numpy.

(** ** The direct solver behind scipy.sparse.linalg.spsolve *)

(** [spsolve] hands the system to a direct sparse solver of the scipy
    distribution; the solver is an interface here. *)
Class DirectSolver (A : Type) : Type :=
  linsolve : matrix A → vec A → vec A.

(** The solution has the shape of the right-hand side. *)
Definition solver_shape {A} `{DirectSolver A} : Prop :=
  ∀ (M : matrix A) (b : vec A), length (linsolve M b) = length b.

(** ** The notebook *)

(** The names the integration cell binds to array objects. *)
Record names : Type := Names {
  q_verlet : loc; p_verlet : loc;
  q_feuler : loc; p_feuler : loc;
  q_beuler : loc; p_beuler : loc;
  energy_verlet : loc; energy_feuler : loc; energy_beuler : loc
}.

Section Notebook.
Context {A : Type} `{Scalar A} `{DirectSolver A}.

(** The globals [n] and [L] of the second code cell. *)
Variable n : nat.
Variable L : matrix A.

Definition kinetic_energy (p : loc) : M A A :=
  v ← load p; mret (half [*] vsum (vmul v v)).

(** [velocity] returns its argument, the same object. *)
Definition velocity (p : loc) : M A loc := mret p.

(** [np.dot(a, b)] *)
Definition np_dot (a b : vec A) : result A :=
  if Nat.eqb (length a) (length b) then Ok (vdot a b) else Raise ValueError.

Definition potential_energy (q : loc) : M A A :=
  v ← load q;
  Lq ← lift (sp_matvec n L v);
  d ← lift (np_dot Lq v);
  mret (half [*] d).

Definition potential_gradient (q : loc) : M A (vec A) :=
  v ← load q; lift (sp_matvec n L v).

(** [num_steps = int(2 * np.pi / δt)] *)
Definition num_steps (δt : A) : result Z :=
  if is_zero δt then Raise ZeroDivisionError
  else int_of (two [*] np_pi [/] δt).

(** [scipy.sparse.linalg.spsolve(M, b)] for an [n] by [n] matrix. *)
Definition spsolve (M : matrix A) (b : vec A) : result (vec A) :=
  if Nat.eqb (length b) n then Ok (linsolve M b) else Raise ValueError.

(** [energy[k] = kinetic_energy(p) + potential_energy(q)] *)
Definition record_energy (energy : loc) (k : nat) (q p : loc) : M A unit :=
  K ← kinetic_energy p;
  U ← potential_energy q;
  setitem energy k (K [+] U).

(** The three lines that advance [q_verlet], [p_verlet]. *)
Definition verlet_update (δt : A) (q p : loc) : M A unit :=
  v ← velocity p; v ← load v;
  iadd q (vscale (δt [/] two) v);;
  g ← potential_gradient q;
  isub p (vscale δt g);;
  v ← velocity p; v ← load v;
  iadd q (vscale (δt [/] two) v).

(** The three lines that advance [q_feuler], [p_feuler]. *)
Definition feuler_update (δt : A) (q p : loc) : M A unit :=
  qk ← np_copy q;
  v ← velocity p; v ← load v;
  iadd q (vscale δt v);;
  g ← potential_gradient qk;
  isub p (vscale δt g).

(** The three lines that advance [q_beuler], [p_beuler]; the second one
    binds [p_beuler] to a new array, which is returned. The arguments of
    [spsolve] are evaluated from left to right: the matrix, with the
    power [δt**2] of the Python float [δt], which can raise, before the
    right-hand side. *)
Definition beuler_update (δt : A) (q p : loc) : M A loc :=
  pk ← np_copy p;
  δt2 ← lift (pow2 δt);
  pkv ← load pk;
  qv ← load q;
  Lq ← lift (sp_matvec n (mscale δt L) qv);
  rhs ← lift (np_sub pkv Lq);
  x ← lift (spsolve (madd (eye n) (mscale δt2 L)) rhs);
  p' ← new x;
  v ← load p';
  iadd q (vscale δt v);;
  mret p'.

(** The body of [for k in range(num_steps)]. *)
Definition loop_body (δt : A) (k : nat) (e : names) : M A names :=
  verlet_update δt (q_verlet e) (p_verlet e);;
  record_energy (energy_verlet e) k (q_verlet e) (p_verlet e);;
  feuler_update δt (q_feuler e) (p_feuler e);;
  record_energy (energy_feuler e) k (q_feuler e) (p_feuler e);;
  p' ← beuler_update δt (q_beuler e) (p_beuler e);
  record_energy (energy_beuler e) k (q_beuler e) p';;
  mret (Names (q_verlet e) (p_verlet e) (q_feuler e) (p_feuler e)
              (q_beuler e) p'
              (energy_verlet e) (energy_feuler e) (energy_beuler e)).

(** The integration cell: private copies of the initial state, the
    energy arrays, then the loop. *)
Definition integrate (q0 p0 : loc) (δt : A) (num_steps : Z) : M A names :=
  qv ← np_copy q0; qf ← np_copy q0; qb ← np_copy q0;
  pv ← np_copy p0; pf ← np_copy p0; pb ← np_copy p0;
  ev ← np_zeros num_steps; ef ← np_zeros num_steps; eb ← np_zeros num_steps;
  for_range (loop_body δt) 0 (Z.to_nat num_steps)
            (Names qv pv qf pf qb pb ev ef eb).

(** The expression printed by the last cell. *)
Definition conservation_error (energy : vec A) : result A :=
  hi ← np_max energy;
  lo ← np_min energy;
  Ok ((hi [-] lo) [/] np_mean energy).

End Notebook.

(** The code cells in order, for a system size [n], initial positions
    [q0] (the notebook draws them at random, [n] of them) and a time step
    [δt]; the value is the conservation error that the last cell prints. *)
Definition notebook {A} `{Scalar A} `{DirectSolver A}
    (n : nat) (q0 : vec A) (δt : A) : M A A :=
  L ← lift (L n);
  q0 ← new q0;
  p0 ← np_zeros (Z.of_nat n);
  num_steps ← lift (num_steps δt);
  e ← integrate n L q0 p0 δt num_steps;
  energy ← load (energy_verlet e);
  lift (conservation_error energy).

(** For contrast only: the forward-Euler lines with [qk = q_feuler] in
    place of [qk = q_feuler.copy()], so that [qk] names the object that
    the next line updates. The notebook does not contain this. *)
Definition feuler_update_aliased {A} `{Scalar A}
    (n : nat) (L : matrix A) (δt : A) (q p : loc) : M A unit :=
  qk ← mret q;
  v ← velocity p; v ← load v;
  iadd q (vscale δt v);;
  g ← potential_gradient n L qk;
  isub p (vscale δt g).

(** ** Running programs *)

(** [runs m h x h'] : from store [h], [m] returns [x] in store [h']. *)
Definition runs {A X} (m : M A X) (h : heap A) (x : X) (h' : heap A) : Prop :=
  m h = Ok (x, h').

(** [h'] keeps every object of [h] outside of [ls], and may hold new
    ones. *)
Definition frame {A} (ls : list loc) (h h' : heap A) : Prop :=
  length h ≤ length h' ∧ ∀ l, l < length h → l ∉ ls → h' !! l = h !! l.

(** ** The update rules on values *)

(** The three update rules as the specification states them (for Verlet,
    also the first text cell of the notebook), on a pair of arrays
    [(q, p)]; Part II proves that the in-place update lines compute them.
    The right-hand side of the backward-Euler system is written as the
    code forms it, [p - (δt L) q]; its matrix has the product [δt * δt],
    the value of the power [δt**2] when the power does not raise. *)
Section Steps.
Context {A : Type} `{Scalar A} `{DirectSolver A}.
Variable n : nat.
Variable L : matrix A.

Definition verlet_step (δt : A) (s : vec A * vec A) : vec A * vec A :=
  let q_half := vadd s.1 (vscale (δt [/] two) s.2) in
  let p_new := vsub s.2 (vscale δt (matvec L q_half)) in
  let q_new := vadd q_half (vscale (δt [/] two) p_new) in
  (q_new, p_new).

Definition feuler_step (δt : A) (s : vec A * vec A) : vec A * vec A :=
  (vadd s.1 (vscale δt s.2), vsub s.2 (vscale δt (matvec L s.1))).

Definition beuler_step (δt : A) (s : vec A * vec A) : vec A * vec A :=
  let p_new :=
    linsolve (madd (eye n) (mscale (δt [*] δt) L))
             (vsub s.2 (matvec (mscale δt L) s.1)) in
  (vadd s.1 (vscale δt p_new), p_new).

(** Total energy, kinetic plus potential. *)
Definition energy (s : vec A * vec A) : A :=
  half [*] vsum (vmul s.2 s.2) [+] half [*] vdot (matvec L s.1) s.1.

(** The energies after steps 1, ..., [count] from [s]. *)
Definition trajectory (step : vec A * vec A → vec A * vec A)
    (count : nat) (s : vec A * vec A) : vec A :=
  (λ k, energy (Nat.iter (S k) step s)) <$> seq 0 count.

(** Both arrays of a state have [n] entries. *)
Definition shaped (s : vec A * vec A) : Prop :=
  length s.1 = n ∧ length s.2 = n.

(** The state is not at rest in the null space of [L]. *)
Definition moving (s : vec A * vec A) : Prop :=
  matvec L s.1 ≠ zeros n ∨ matvec L s.2 ≠ zeros n.

End Steps.

(** ** The solver, exactly *)

(** The solver returns the solution of every nonsingular system of [n]
    equations. *)
Definition solver_exact {A} `{Scalar A} `{DirectSolver A} (n : nat) : Prop :=
  ∀ (M : matrix A) (b : vec A),
    square n M → length b = n →
    (∀ y, length y = n → matvec M y = zeros n → y = zeros n) →
    matvec M (linsolve M b) = b.

(** A direct solver for systems of two equations, by Cramer's rule; any
    other system is returned unsolved. It runs the notebook at [n = 2]. *)
Definition cramer2 {A} `{Scalar A} : DirectSolver A := λ M b,
  match M, b with
  | [[a11; a12]; [a21; a22]], [b1; b2] =>
      let det := a11 [*] a22 [-] a12 [*] a21 in
      [(b1 [*] a22 [-] a12 [*] b2) [/] det; (a11 [*] b2 [-] b1 [*] a21) [/] det]
  | _, _ => b
  end.


(** What holds of the names and of the store before iteration [k] of the
    loop, when the cell started from state [s0] in a store of [base]
    objects: where each name points, and what each object holds. *)
Section LoopInvariant.
Context {A : Type} `{Scalar A} `{DirectSolver A}.
Variables (n : nat) (L : matrix A) (δt : A).
Variables (count base : nat) (s0 : vec A * vec A).

Definition loop_inv (k : nat) (e : names) (h : heap A) : Prop :=
  ∃ pb, e = Names base (3 + base) (1 + base) (4 + base) (2 + base) pb
                  (6 + base) (7 + base) (8 + base)
    ∧ (pb = 5 + base ∨ 9 + base ≤ pb)
    ∧ h !! base = Some (Nat.iter k (verlet_step L δt) s0).1
    ∧ h !! (3 + base) = Some (Nat.iter k (verlet_step L δt) s0).2
    ∧ h !! (1 + base) = Some (Nat.iter k (feuler_step L δt) s0).1
    ∧ h !! (4 + base) = Some (Nat.iter k (feuler_step L δt) s0).2
    ∧ h !! (2 + base) = Some (Nat.iter k (beuler_step n L δt) s0).1
    ∧ h !! pb = Some (Nat.iter k (beuler_step n L δt) s0).2
    ∧ h !! (6 + base)
      = Some (take k (trajectory L (verlet_step L δt) count s0) ++ zeros (count - k))
    ∧ h !! (7 + base)
      = Some (take k (trajectory L (feuler_step L δt) count s0) ++ zeros (count - k))
    ∧ h !! (8 + base)
      = Some (take k (trajectory L (beuler_step n L δt) count s0) ++ zeros (count - k)).

End LoopInvariant.

(** ** The words of the specification *)

(** The difference matrix as the specification words it: ones on the main
    diagonal except a zero at (0,0), minus ones on the subdiagonal. *)
Definition D_spec (n : nat) : matrix Qc :=
  (λ i, (λ j, if Nat.eqb i j then (if Nat.eqb i 0 then 0 else 1)
              else if Nat.eqb i (S j) then - 1 else 0)%Qc <$> seq 0 n) <$> seq 0 n.

(** [k] is an integer nearest to [x]. *)
Definition nearest_integer (x : Qc) (k : Z) : Prop :=
  (of_int k - half <= x)%Qc ∧ (x <= of_int k + half)%Qc.

(** ** Concrete data *)

Module Run.

Local Open Scope Qc_scope.

(** The operator for two oscillators, and a store that holds
    [q = [1, 2]] at 0 and [p = [0, 0]] at 1. *)
Definition L2 : matrix Qc := [[1; - 1]; [- 1; 1]].
Definition store0 : heap Qc := [[1; 2]; [0; 0]].
Definition δt0 : Qc := Q2Qc (1 # 2).

(** The state at rest. *)
Definition rest : vec Qc * vec Qc := ([0; 0], [0; 0]).


End Run.

(** ** Quantities that the integrators keep *)

(** The differences of consecutive entries, [x[1:] - x[:-1]]. *)
Definition diffs {A} `{Scalar A} (x : vec A) : vec A := vsub (tail x) x.

(** The energy that the text of the notebook calls perturbed: the total
    energy less [δt² / 8] times [p · L p]. *)
Definition shadow_energy {A} `{Scalar A} (L : matrix A) (δt : A)
    (s : vec A * vec A) : A :=
  energy L s [-] δt [*] δt [/] of_int 8 [*] vdot (matvec L s.2) s.2.

(** The antisymmetric pairing of two states, [q · p' - p · q']: a linear
    map keeps phase-space volume when it keeps this pairing. *)
Definition pairing {A} `{Scalar A} (s s' : vec A * vec A) : A :=
  vdot s.1 s'.2 [-] vdot s.2 s'.1.

(** * Part II: lemmas and theorems *)

(** ** Running programs *)

Section Running.
Context {A : Type}.
Implicit Types (h : heap A) (a b : vec A) (l : loc).

Lemma runs_ret {X} (x : X) h : runs (mret x) h x h.
Proof. reflexivity. Qed.

Lemma runs_bind {X Y} (m : M A X) (f : X → M A Y) h x h1 y h2 :
  runs m h x h1 → runs (f x) h1 y h2 → runs (m ≫= f) h y h2.
Proof. unfold runs, mbind, M_bind. intros ->. done. Qed.

Lemma runs_lift {X} (r : result X) x h : r = Ok x → runs (lift r) h x h.
Proof. intros ->. reflexivity. Qed.

Lemma runs_load l a h : h !! l = Some a → runs (load l) h a h.
Proof. unfold runs, load. intros ->. done. Qed.

Lemma runs_new a h : runs (new a) h (length h) (h ++ [a]).
Proof. reflexivity. Qed.

Lemma runs_store l a h : l < length h → runs (store l a) h () (<[l := a]> h).
Proof.
  intros Hl. unfold runs, store.
  destruct (Nat.ltb_spec l (length h)); [done | lia].
Qed.

Lemma frame_refl ls h : frame ls h h.
Proof. split; [lia | done]. Qed.

Lemma frame_trans ls1 ls2 ls h1 h2 h3 :
  frame ls1 h1 h2 → frame ls2 h2 h3 →
  (∀ l, l ∈ ls1 → l ∈ ls) → (∀ l, l ∈ ls2 → l ∈ ls) →
  frame ls h1 h3.
Proof.
  intros [Hlen1 H1] [Hlen2 H2] Hs1 Hs2. split; [lia |].
  intros l Hl Hnot. rewrite H2, H1; [done | done | | lia |]; naive_solver.
Qed.

Lemma frame_weaken ls ls' h h' :
  frame ls h h' → (∀ l, l ∈ ls → l ∈ ls') → frame ls' h h'.
Proof. intros [Hlen Hf] Hs. split; [done |]. intros l Hl Hn. apply Hf; naive_solver. Qed.

Lemma frame_insert l a h : frame [l] h (<[l := a]> h).
Proof.
  split; [by rewrite length_insert |].
  intros l' _ Hl'. apply list_lookup_insert_ne.
  rewrite list_elem_of_singleton in Hl'. congruence.
Qed.

Lemma frame_app a h : frame [] h (h ++ [a]).
Proof.
  split; [rewrite length_app; lia |].
  intros l Hl _. by apply lookup_app_l.
Qed.


Lemma lookup_new a h : (h ++ [a]) !! length h = Some a.
Proof. by rewrite lookup_app_r, Nat.sub_diag. Qed.

Lemma lookup_stored l a h : l < length h → <[l := a]> h !! l = Some a.
Proof. apply list_lookup_insert_eq. Qed.

End Running.

(** Programs that raise. *)
Section RaisingPrograms.
Context {A : Type}.
Implicit Types (h : heap A).

Lemma bind_after {X Y} (m : M A X) (f : X → M A Y) h x h1 :
  runs m h x h1 → (m ≫= f) h = f x h1.
Proof. unfold runs, mbind, M_bind. by intros ->. Qed.

Lemma bind_raises {X Y} (m : M A X) (f : X → M A Y) h e :
  m h = Raise e → (m ≫= f) h = Raise e.
Proof. unfold mbind, M_bind. by intros ->. Qed.


End RaisingPrograms.

(** ** Shapes *)

Section Shapes.
Context {A : Type} `{Scalar A}.
Implicit Types (x y : vec A) (M : matrix A).

Lemma length_vadd x y : length (vadd x y) = Nat.min (length x) (length y).
Proof. apply length_zip_with. Qed.
Lemma length_vsub x y : length (vsub x y) = Nat.min (length x) (length y).
Proof. apply length_zip_with. Qed.
Lemma length_vmul x y : length (vmul x y) = Nat.min (length x) (length y).
Proof. apply length_zip_with. Qed.
Lemma length_vscale c x : length (vscale c x) = length x.
Proof. apply length_fmap. Qed.
Lemma length_vneg x : length (vneg x) = length x.
Proof. apply length_fmap. Qed.
Lemma length_matvec M x : length (matvec M x) = length M.
Proof. apply length_fmap. Qed.
Lemma length_mscale c M : length (mscale c M) = length M.
Proof. apply length_fmap. Qed.
Lemma length_zeros k : length (zeros k) = k.
Proof. apply length_replicate. Qed.
Lemma length_ones k : length (ones k) = k.
Proof. apply length_replicate. Qed.

End Shapes.

Create Rewrite HintDb len.
#[export] Hint Rewrite @length_vadd @length_vsub @length_vmul @length_vscale
  @length_vneg @length_matvec @length_mscale @length_zeros @length_ones
  @length_insert @length_app @length_fmap @length_seq @length_replicate
  @length_take @length_zip_with : len.

(** Goals about lengths. *)
Ltac len := simpl; autorewrite with len in *; simpl in *; try lia.

(** ** The numpy operations, run *)

Section RunNumpy.
Context {A : Type} `{Scalar A}.
Implicit Types (h : heap A) (a b : vec A) (l : loc).

Lemma broadcast_same k a : length a = k → broadcast k a = Ok a.
Proof. intros <-. unfold broadcast. by rewrite Nat.eqb_refl. Qed.

Lemma runs_iadd l a b h :
  h !! l = Some a → length b = length a →
  runs (iadd l b) h () (<[l := vadd a b]> h).
Proof.
  intros Hl Hb. unfold iadd.
  eapply runs_bind; [by apply runs_load |].
  eapply runs_bind; [by apply runs_lift, broadcast_same |].
  apply runs_store. by eapply lookup_lt_Some.
Qed.

Lemma runs_isub l a b h :
  h !! l = Some a → length b = length a →
  runs (isub l b) h () (<[l := vsub a b]> h).
Proof.
  intros Hl Hb. unfold isub.
  eapply runs_bind; [by apply runs_load |].
  eapply runs_bind; [by apply runs_lift, broadcast_same |].
  apply runs_store. by eapply lookup_lt_Some.
Qed.

Lemma runs_np_copy l a h :
  h !! l = Some a → runs (np_copy l) h (length h) (h ++ [a]).
Proof.
  intros Hl. unfold np_copy.
  eapply runs_bind; [by apply runs_load |]. apply runs_new.
Qed.

Lemma runs_np_zeros (k : nat) h :
  runs (np_zeros (Z.of_nat k)) h (length h) (h ++ [zeros k]).
Proof.
  unfold np_zeros. destruct (Z.ltb_spec (Z.of_nat k) 0); [lia |].
  rewrite Nat2Z.id. apply runs_new.
Qed.

Lemma runs_setitem l a k x h :
  h !! l = Some a → k < length a →
  runs (setitem l k x) h () (<[l := <[k := x]> a]> h).
Proof.
  intros Hl Hk. unfold setitem.
  eapply runs_bind; [by apply runs_load |].
  eapply runs_bind.
  - apply runs_lift. unfold setitem_vec.
    destruct (Nat.ltb_spec k (length a)); [done | lia].
  - apply runs_store. by eapply lookup_lt_Some.
Qed.

Lemma sp_matvec_ok k M a : length a = k → sp_matvec k M a = Ok (matvec M a).
Proof. intros <-. unfold sp_matvec. by rewrite Nat.eqb_refl. Qed.

Lemma np_sub_ok a b : length a = length b → np_sub a b = Ok (vsub a b).
Proof. intros Hl. unfold np_sub. by rewrite Hl, Nat.eqb_refl. Qed.

End RunNumpy.

(** ** The update lines, run *)

Section RunNotebook.
Context {A : Type} `{Scalar A} `{DirectSolver A}.
Variable n : nat.
Variable L : matrix A.
Hypothesis L_rows : length L = n.
Implicit Types (h : heap A) (q p : loc) (qv pv : vec A) (δt : A).

Lemma runs_potential_gradient q qv h :
  h !! q = Some qv → length qv = n →
  runs (potential_gradient n L q) h (matvec L qv) h.
Proof.
  intros Hq Hlen. unfold potential_gradient.
  eapply runs_bind; [by apply runs_load |].
  by apply runs_lift, sp_matvec_ok.
Qed.

Lemma runs_kinetic_energy p pv h :
  h !! p = Some pv →
  runs (kinetic_energy p) h (half [*] vsum (vmul pv pv)) h.
Proof.
  intros Hp. unfold kinetic_energy.
  eapply runs_bind; [by apply runs_load |]. apply runs_ret.
Qed.

Lemma runs_potential_energy q qv h :
  h !! q = Some qv → length qv = n →
  runs (potential_energy n L q) h (half [*] vdot (matvec L qv) qv) h.
Proof.
  intros Hq Hlen. unfold potential_energy.
  eapply runs_bind; [by apply runs_load |].
  eapply runs_bind; [by apply runs_lift, sp_matvec_ok |].
  eapply runs_bind; [| apply runs_ret].
  apply runs_lift. unfold np_dot.
  rewrite length_matvec, L_rows, Hlen. by rewrite Nat.eqb_refl.
Qed.

Lemma runs_record_energy e k q p ev qv pv h :
  h !! e = Some ev → k < length ev →
  h !! q = Some qv → h !! p = Some pv → length qv = n →
  runs (record_energy n L e k q p) h ()
       (<[e := <[k := energy L (qv, pv)]> ev]> h).
Proof.
  intros He Hk Hq Hp Hlen. unfold record_energy.
  eapply runs_bind; [by apply runs_kinetic_energy |].
  eapply runs_bind; [by apply runs_potential_energy |].
  by apply runs_setitem.
Qed.

(** The Verlet lines leave the result of [verlet_step] in the two
    objects and touch nothing else. *)
Lemma runs_verlet_update δt q p qv pv h :
  h !! q = Some qv → h !! p = Some pv → q ≠ p →
  length qv = n → length pv = n →
  runs (verlet_update n L δt q p) h ()
       (<[q := (verlet_step L δt (qv, pv)).1]>
          (<[p := (verlet_step L δt (qv, pv)).2]>
             (<[q := vadd qv (vscale (δt [/] two) pv)]> h))).
Proof.
  intros Hq Hp Hne Hlq Hlp.
  pose proof (lookup_lt_Some _ _ _ Hq) as Hq_lt.
  pose proof (lookup_lt_Some _ _ _ Hp) as Hp_lt.
  unfold verlet_update, verlet_step; simpl.
  eapply runs_bind; [apply runs_ret |].
  eapply runs_bind; [by apply runs_load |].
  eapply runs_bind; [apply runs_iadd; [done | len] |].
  eapply runs_bind.
  { apply runs_potential_gradient; [by apply lookup_stored | len]. }
  eapply runs_bind.
  { apply runs_isub; [by rewrite list_lookup_insert_ne | len]. }
  eapply runs_bind; [apply runs_ret |].
  eapply runs_bind.
  { apply runs_load. apply lookup_stored. len. }
  apply runs_iadd; [| len].
  rewrite list_lookup_insert_ne by done. by apply lookup_stored.
Qed.

(** The forward-Euler lines: [qk] is a new object, so the update of
    [p] reads the entries [q] had before its update. *)
Lemma runs_feuler_update δt q p qv pv h :
  h !! q = Some qv → h !! p = Some pv → q ≠ p →
  length qv = n → length pv = n →
  runs (feuler_update n L δt q p) h ()
       (<[p := (feuler_step L δt (qv, pv)).2]>
          (<[q := (feuler_step L δt (qv, pv)).1]> (h ++ [qv]))).
Proof.
  intros Hq Hp Hne Hlq Hlp.
  pose proof (lookup_lt_Some _ _ _ Hq) as Hq_lt.
  pose proof (lookup_lt_Some _ _ _ Hp) as Hp_lt.
  unfold feuler_update, feuler_step; simpl.
  eapply runs_bind; [by apply runs_np_copy |].
  eapply runs_bind; [apply runs_ret |].
  eapply runs_bind; [apply runs_load; by rewrite lookup_app_l |].
  eapply runs_bind.
  { apply runs_iadd; [by rewrite lookup_app_l | len]. }
  eapply runs_bind.
  { apply runs_potential_gradient;
      [rewrite list_lookup_insert_ne by lia; apply lookup_new | done]. }
  apply runs_isub; [| len].
  rewrite list_lookup_insert_ne by done. by rewrite lookup_app_l.
Qed.

(** The backward-Euler lines: [pk] and the solution are new objects;
    the name [p_beuler] is bound to the second. *)
Lemma runs_beuler_update δt q p qv pv h :
  solver_shape → pow2 δt = Ok (δt [*] δt) →
  h !! q = Some qv → h !! p = Some pv →
  length qv = n → length pv = n →
  runs (beuler_update n L δt q p) h (S (length h))
       (<[q := (beuler_step n L δt (qv, pv)).1]>
          ((h ++ [pv]) ++ [(beuler_step n L δt (qv, pv)).2])).
Proof.
  intros Hsolve Hpow Hq Hp Hlq Hlp.
  pose proof (lookup_lt_Some _ _ _ Hq) as Hq_lt.
  pose proof (lookup_lt_Some _ _ _ Hp) as Hp_lt.
  unfold beuler_update, beuler_step; simpl.
  eapply runs_bind; [by apply runs_np_copy |].
  eapply runs_bind; [by apply runs_lift |].
  eapply runs_bind; [apply runs_load, lookup_new |].
  eapply runs_bind; [apply runs_load; by rewrite lookup_app_l |].
  eapply runs_bind; [by apply runs_lift, sp_matvec_ok |].
  eapply runs_bind; [apply runs_lift, np_sub_ok; len |].
  eapply runs_bind.
  { apply runs_lift. unfold spsolve.
    replace (length (vsub pv (matvec (mscale δt L) qv))) with n by len.
    by rewrite Nat.eqb_refl. }
  eapply runs_bind; [apply runs_new |].
  eapply runs_bind; [apply runs_load, lookup_new |].
  eapply runs_bind; [| replace (length (h ++ [pv])) with (S (length h)) by len;
                       apply runs_ret].
  apply runs_iadd.
  - rewrite !lookup_app_l; [done | len.. ].
  - rewrite length_vscale, Hsolve. len.
Qed.

(** When the power [δt**2] raises, the backward-Euler lines raise the
    same exception, after the copy [pk] and before anything else. *)
Lemma beuler_update_raises δt q p pv h e :
  h !! p = Some pv → pow2 δt = Raise e →
  beuler_update n L δt q p h = Raise e.
Proof.
  intros Hp Hpow. unfold beuler_update.
  rewrite (bind_after _ _ _ _ _ (runs_np_copy _ _ _ Hp)).
  apply bind_raises. unfold lift. by rewrite Hpow.
Qed.

End RunNotebook.

(** ** The integration loop, run *)

(** Lookups in a store built from insertions and allocations. *)
Lemma lookup_new_at {A} (a : vec A) (h : heap A) l :
  l = length h → (h ++ [a]) !! l = Some a.
Proof. intros ->. apply lookup_new. Qed.

Ltac heap_len :=
  repeat (rewrite length_insert || rewrite length_app); simpl; lia.

Ltac lookup :=
  repeat first
    [ done
    | apply lookup_new_at; heap_len
    | apply lookup_stored; heap_len
    | rewrite list_lookup_insert_ne by heap_len
    | rewrite lookup_app_l by heap_len ].

Section RunLoop.
Context {A : Type} `{Scalar A} `{DirectSolver A}.
Variable n : nat.
Variable L : matrix A.
Hypothesis L_rows : length L = n.
Hypothesis solver_ok : solver_shape.
Variable δt : A.
Hypothesis pow2_ok : pow2 δt = Ok (δt [*] δt).
Implicit Types (h : heap A) (s : vec A * vec A).

Lemma shaped_verlet_step s : shaped n s → shaped n (verlet_step L δt s).
Proof. destruct s as [q p]. intros [Hq Hp]. split; len. Qed.

Lemma shaped_feuler_step s : shaped n s → shaped n (feuler_step L δt s).
Proof. destruct s as [q p]. intros [Hq Hp]. split; len. Qed.

Lemma shaped_beuler_step s : shaped n s → shaped n (beuler_step n L δt s).
Proof.
  destruct s as [q p]. intros [Hq Hp].
  unfold shaped, beuler_step; simpl in *. 
  rewrite length_vadd, length_vscale, !solver_ok. len.
Qed.

Lemma shaped_iter step k s :
  (∀ s', shaped n s' → shaped n (step s')) →
  shaped n s → shaped n (Nat.iter k step s).
Proof. intros Hstep Hs. induction k; simpl; auto. Qed.

(** Writing entry [k] of an energy array that holds the first [k]
    energies. *)
Lemma record_next step count k s :
  k < count →
  <[k := energy L (Nat.iter (S k) step s)]>
    (take k (trajectory L step count s) ++ zeros (count - k))
  = take (S k) (trajectory L step count s) ++ zeros (count - S k).
Proof.
  intros Hk.
  assert (trajectory L step count s !! k
          = Some (energy L (Nat.iter (S k) step s))) as Hat.
  { unfold trajectory. rewrite list_lookup_fmap, lookup_seq_lt by done. done. }
  rewrite (take_S_r _ _ _ Hat), <- app_assoc.
  replace (count - k) with (S (count - S k)) by lia.
  assert (length (take k (trajectory L step count s)) = k) as Hlen.
  { apply length_take_le. unfold trajectory. len. }
  rewrite <- Hlen at 1. rewrite <- (Nat.add_0_r (length _)).
  by rewrite insert_app_r.
Qed.

Variables (count base : nat) (s0 : vec A * vec A).

Local Abbreviation loop_inv := (loop_inv n L δt count base s0).

Lemma runs_loop_body k e h :
  shaped n s0 → k < count → loop_inv k e h →
  ∃ e' h', runs (loop_body n L δt k e) h e' h' ∧ loop_inv (S k) e' h'
           ∧ frame [base; 1 + base; 2 + base; 3 + base; 4 + base;
                    6 + base; 7 + base; 8 + base] h h'.
Proof.
  intros Hs0 Hk (pb & -> & Hpb & Hqv & Hpv & Hqf & Hpf & Hqb & Hpb' & Hev & Hef & Heb).
  pose proof (shaped_iter _ k s0 shaped_verlet_step Hs0) as [HVq HVp].
  pose proof (shaped_iter _ k s0 shaped_feuler_step Hs0) as [HFq HFp].
  pose proof (shaped_iter _ k s0 shaped_beuler_step Hs0) as [HBq HBp].
  pose proof (lookup_lt_Some _ _ _ Heb) as Hlt.
  pose proof (lookup_lt_Some _ _ _ Hpb') as Hlt'.
  assert (length (take k (trajectory L (verlet_step L δt) count s0) ++ zeros (count - k)) = count) as Hlv.
  { unfold trajectory. len. }
  assert (length (take k (trajectory L (feuler_step L δt) count s0) ++ zeros (count - k)) = count) as Hlf.
  { unfold trajectory. len. }
  assert (length (take k (trajectory L (beuler_step n L δt) count s0) ++ zeros (count - k)) = count) as Hlb.
  { unfold trajectory. len. }
  eexists _, _. split; [| split].
  - unfold loop_body; simpl.
    eapply runs_bind.
    { eapply runs_verlet_update; [done | lookup | lookup | lia | done | done]. }
    eapply runs_bind.
    { eapply runs_record_energy; [done | lookup | | lookup | lookup | ]; [lia | ].
      apply shaped_verlet_step. by split. }
    eapply runs_bind.
    { eapply runs_feuler_update; [done | lookup | lookup | lia | done | done]. }
    eapply runs_bind.
    { eapply runs_record_energy; [done | lookup | | lookup | lookup | ]; [lia | ].
      apply shaped_feuler_step. by split. }
    eapply runs_bind.
    { eapply runs_beuler_update; [done | done | done | lookup | lookup | done | done]. }
    eapply runs_bind; [| apply runs_ret].
    eapply runs_record_energy; [done | lookup | | lookup | lookup | ]; [lia | ].
    apply shaped_beuler_step. by split.
  - eexists. split; [reflexivity |].
    split; [right; heap_len |].
    rewrite <- !record_next by done. simpl.
    repeat split; lookup.
  - split; [heap_len |].
    intros l Hl Hnot. rewrite !not_elem_of_cons in Hnot.
    lookup.
Qed.

Lemma runs_for_range k e h :
  shaped n s0 → k ≤ count → loop_inv k e h →
  ∃ e' h', runs (for_range (loop_body n L δt) k (count - k) e) h e' h'
           ∧ loop_inv count e' h'
           ∧ frame [base; 1 + base; 2 + base; 3 + base; 4 + base;
                    6 + base; 7 + base; 8 + base] h h'.
Proof.
  intros Hs0. remember (count - k) as d eqn:Hd. revert k e h Hd.
  induction d as [| d IH]; intros k e h Hd Hk Hinv.
  - assert (k = count) as -> by lia. exists e, h. split; [apply runs_ret |].
    split; [done | apply frame_refl].
  - destruct (runs_loop_body k e h) as (e1 & h1 & Hrun1 & Hinv1 & Hf1);
      [done | lia | done |].
    destruct (IH (S k) e1 h1) as (e2 & h2 & Hrun2 & Hinv2 & Hf2);
      [lia | lia | done |].
    exists e2, h2. split; [| split; [done |]].
    + simpl. by eapply runs_bind.
    + eapply frame_trans; eauto.
Qed.

(** The integration cell from a store that holds the initial state. *)
Lemma runs_integrate q0 p0 h :
  h !! q0 = Some s0.1 → h !! p0 = Some s0.2 → shaped n s0 →
  base = length h →
  ∃ e h', runs (integrate n L q0 p0 δt (Z.of_nat count)) h e h'
          ∧ loop_inv count e h' ∧ frame [] h h'.
Proof.
  intros Hq0 Hp0 Hs0 Hbase.
  pose proof (lookup_lt_Some _ _ _ Hq0) as Hq0_lt.
  pose proof (lookup_lt_Some _ _ _ Hp0) as Hp0_lt.
  edestruct (runs_for_range 0) as (e' & h' & Hrun & Hinv & Hf);
    [done | lia | | ].
  2:{ exists e', h'. split; [| split; [exact Hinv |]].
      - unfold integrate.
        eapply runs_bind; [apply runs_np_copy; lookup |].
        eapply runs_bind; [apply runs_np_copy; lookup |].
        eapply runs_bind; [apply runs_np_copy; lookup |].
        eapply runs_bind; [apply runs_np_copy; lookup |].
        eapply runs_bind; [apply runs_np_copy; lookup |].
        eapply runs_bind; [apply runs_np_copy; lookup |].
        eapply runs_bind; [apply runs_np_zeros |].
        eapply runs_bind; [apply runs_np_zeros |].
        eapply runs_bind; [apply runs_np_zeros |].
        rewrite Nat2Z.id, Nat.sub_0_r in *. exact Hrun.
      - destruct Hf as [Hlen Hf]. split; [revert Hlen; heap_len |].
        intros l Hl _. rewrite Hf; [lookup | heap_len |].
        rewrite !not_elem_of_cons. repeat split; try lia. apply not_elem_of_nil. }
  eexists. split; [| split; [by left |]].
  - f_equal; heap_len.
  - simpl. rewrite Nat.sub_0_r. repeat split; lookup.
Qed.

End RunLoop.

(** The loop when the power [δt**2] raises: the first pass over the body
    raises at the backward-Euler lines. *)
Section LoopRaises.
Context {A : Type} `{Scalar A} `{DirectSolver A}.
Variable n : nat.
Variable L : matrix A.
Hypothesis L_rows : length L = n.
Variable δt : A.
Variables (count base : nat) (s0 : vec A * vec A).
Implicit Types (h : heap A).



End LoopRaises.

(** ** Claims that hold in every arithmetic *)

Lemma cramer2_shape {A} `{Scalar A} : solver_shape (H := cramer2).
Proof.
  intros M b. unfold linsolve, cramer2.
  repeat (case_match; try done).
Qed.

Section Claims.
Context {A : Type} `{Scalar A} `{DirectSolver A}.
Variable n : nat.
Variable L : matrix A.
Hypothesis L_rows : length L = n.
Implicit Types (h : heap A) (q p : loc) (qv pv : vec A) (δt : A).

(** C1: one pass over the three Verlet lines leaves in [q] and [p] the
    three-stage composition: the half drift of [q] with the old [p], the
    kick of [p] with the gradient at the half-updated [q], the half drift
    of [q] with the new [p]; no other object changes. *)
Theorem verlet_update_three_stage δt q p qv pv h :
  h !! q = Some qv → h !! p = Some pv → q ≠ p →
  length qv = n → length pv = n →
  let q_half := vadd qv (vscale (δt [/] two) pv) in
  let p_new := vsub pv (vscale δt (matvec L q_half)) in
  let q_new := vadd q_half (vscale (δt [/] two) p_new) in
  ∃ h', runs (verlet_update n L δt q p) h () h'
        ∧ h' !! q = Some q_new ∧ h' !! p = Some p_new
        ∧ (q_new, p_new) = verlet_step L δt (qv, pv)
        ∧ frame [q; p] h h'.
Proof.
  intros Hq Hp Hne Hlq Hlp q_half p_new q_new.
  pose proof (lookup_lt_Some _ _ _ Hq) as Hq_lt.
  pose proof (lookup_lt_Some _ _ _ Hp) as Hp_lt.
  eexists. split; [by apply (runs_verlet_update n L L_rows δt q p qv pv) |].
  repeat split; [lookup | lookup | heap_len |].
  intros l Hl Hnot. rewrite !not_elem_of_cons in Hnot. lookup.
Qed.

(** C4: one pass over the three forward-Euler lines leaves in [q] the
    drift with the old [p] and in [p] the kick with the gradient at the
    old [q], the entries [q] had before its in-place update. *)
Theorem feuler_update_old_state δt q p qv pv h :
  h !! q = Some qv → h !! p = Some pv → q ≠ p →
  length qv = n → length pv = n →
  ∃ h', runs (feuler_update n L δt q p) h () h'
        ∧ h' !! q = Some (vadd qv (vscale δt pv))
        ∧ h' !! p = Some (vsub pv (vscale δt (matvec L qv)))
        ∧ frame [q; p] h h'.
Proof.
  intros Hq Hp Hne Hlq Hlp.
  pose proof (lookup_lt_Some _ _ _ Hq) as Hq_lt.
  pose proof (lookup_lt_Some _ _ _ Hp) as Hp_lt.
  eexists. split; [by apply (runs_feuler_update n L L_rows δt q p qv pv) |].
  repeat split; [lookup | lookup | heap_len |].
  intros l Hl Hnot. rewrite !not_elem_of_cons in Hnot. lookup.
Qed.



End Claims.

(** ** More on the store: what the cells allocate and leave alone *)

Section Trajectories.
Context {A : Type} `{Scalar A}.
Variable L : matrix A.
Implicit Types (s : vec A * vec A) (step : vec A * vec A → vec A * vec A).

Lemma trajectory_lookup step count s k :
  k < count →
  trajectory L step count s !! k = Some (energy L (Nat.iter (S k) step s)).
Proof.
  intros Hk. unfold trajectory. by rewrite list_lookup_fmap, lookup_seq_lt.
Qed.

Lemma elem_of_trajectory step count s x :
  x ∈ trajectory L step count s →
  ∃ k, k < count ∧ x = energy L (Nat.iter (S k) step s).
Proof.
  unfold trajectory. intros (k & -> & Hk)%list_elem_of_fmap.
  apply elem_of_seq in Hk. exists k. split; [lia | done].
Qed.

Lemma length_trajectory step count s :
  length (trajectory L step count s) = count.
Proof. unfold trajectory. by rewrite length_fmap, length_seq. Qed.

End Trajectories.

Section StoreLaws.
Context {A : Type} `{Scalar A} `{DirectSolver A}.
Variable n : nat.
Variable L : matrix A.
Hypothesis L_rows : length L = n.
Implicit Types (h : heap A) (q p : loc) (qv pv : vec A) (δt : A).

(** What the loop invariant says once the loop is over. *)
Lemma loop_inv_done δt count base (s0 : vec A * vec A) e h :
  loop_inv n L δt count base s0 count e h →
  h !! q_verlet e = Some (Nat.iter count (verlet_step L δt) s0).1
  ∧ h !! p_verlet e = Some (Nat.iter count (verlet_step L δt) s0).2
  ∧ h !! q_feuler e = Some (Nat.iter count (feuler_step L δt) s0).1
  ∧ h !! p_feuler e = Some (Nat.iter count (feuler_step L δt) s0).2
  ∧ h !! q_beuler e = Some (Nat.iter count (beuler_step n L δt) s0).1
  ∧ h !! p_beuler e = Some (Nat.iter count (beuler_step n L δt) s0).2
  ∧ h !! energy_verlet e = Some (trajectory L (verlet_step L δt) count s0)
  ∧ h !! energy_feuler e = Some (trajectory L (feuler_step L δt) count s0)
  ∧ h !! energy_beuler e = Some (trajectory L (beuler_step n L δt) count s0).
Proof.
  intros (pb & -> & _ & Hqv & Hpv & Hqf & Hpf & Hqb & Hpb & Hev & Hef & Heb).
  rewrite Nat.sub_diag in Hev, Hef, Heb. cbn [zeros replicate] in Hev, Hef, Heb.
  rewrite app_nil_r, take_ge in Hev, Hef, Heb by (by rewrite length_trajectory).
  cbn [q_verlet p_verlet q_feuler p_feuler q_beuler p_beuler
       energy_verlet energy_feuler energy_beuler].
  repeat split; assumption.
Qed.




End StoreLaws.

(** ** Arrays of the wrong shape *)

Section ShapeMismatch.
Context {A : Type} `{Scalar A} `{DirectSolver A}.
Variable n : nat.
Variable L : matrix A.
Hypothesis L_rows : length L = n.
Implicit Types (h : heap A) (q p : loc) (qv pv b : vec A) (δt : A).

Lemma broadcast_one k (x : A) : k ≠ 1 → broadcast k [x] = Ok (replicate k x).
Proof.
  intros Hk. unfold broadcast. cbn [length].
  destruct (Nat.eqb_spec 1 k); [lia | done].
Qed.

Lemma broadcast_fails k b :
  length b ≠ k → length b ≠ 1 → broadcast k b = Raise ValueError.
Proof.
  intros Hk H1. unfold broadcast.
  destruct (Nat.eqb_spec (length b) k); [done |].
  by destruct b as [| x [| y b]].
Qed.

Lemma iadd_fails l a b h :
  h !! l = Some a → length b ≠ length a → length b ≠ 1 →
  iadd l b h = Raise ValueError.
Proof.
  intros Hl Hb H1. unfold iadd.
  rewrite (bind_after _ _ _ _ _ (runs_load _ _ _ Hl)).
  apply bind_raises. unfold lift. by rewrite broadcast_fails.
Qed.

Lemma isub_fails l a b h :
  h !! l = Some a → length b ≠ length a → length b ≠ 1 →
  isub l b h = Raise ValueError.
Proof.
  intros Hl Hb H1. unfold isub.
  rewrite (bind_after _ _ _ _ _ (runs_load _ _ _ Hl)).
  apply bind_raises. unfold lift. by rewrite broadcast_fails.
Qed.

Lemma runs_iadd_one l a (x : A) h :
  h !! l = Some a → length a ≠ 1 →
  runs (iadd l [x]) h () (<[l := vadd a (replicate (length a) x)]> h).
Proof.
  intros Hl Ha. unfold iadd.
  eapply runs_bind; [by apply runs_load |].
  eapply runs_bind; [by apply runs_lift, broadcast_one |].
  apply runs_store. by eapply lookup_lt_Some.
Qed.

(** The first update of [q], when [p] has the wrong length: it raises,
    or (one momentum) it broadcasts and leaves an array of [n] entries. *)
Lemma drift_mismatch c q qv pv h :
  h !! q = Some qv → length qv = n → length pv ≠ n →
  iadd q (vscale c pv) h = Raise ValueError
  ∨ length pv = 1 ∧ n ≠ 1
    ∧ ∃ qv', length qv' = n
             ∧ runs (iadd q (vscale c pv)) h () (<[q := qv']> h).
Proof.
  intros Hq Hlq Hlp.
  destruct (decide (length pv = 1)) as [H1 | H1].
  - right. split; [done |]. split; [lia |].
    destruct pv as [| x [| y pv]]; try done.
    eexists. split; [| apply runs_iadd_one; [done | lia]].
    rewrite length_vadd, length_replicate. lia.
  - left. apply (iadd_fails q qv); [done | | ]; rewrite length_vscale; lia.
Qed.

(** X3: when the array of momenta does not have as many entries as
    the array of positions, the Verlet lines and the forward-Euler lines
    raise [ValueError]: an in-place update cannot be broadcast. In the
    backward-Euler lines the power [δt**2] is evaluated first: when it
    raises, the lines raise its exception; when it returns, they raise
    [ValueError] unless the momenta have exactly one entry, which the
    subtraction broadcasts. *)
Theorem updates_shape_mismatch δt q p qv pv h :
  h !! q = Some qv → h !! p = Some pv →
  length qv = n → length pv ≠ n →
  verlet_update n L δt q p h = Raise ValueError
  ∧ feuler_update n L δt q p h = Raise ValueError
  ∧ (∀ err, pow2 δt = Raise err → beuler_update n L δt q p h = Raise err)
  ∧ (∀ δt2, pow2 δt = Ok δt2 → length pv ≠ 1 →
       beuler_update n L δt q p h = Raise ValueError).
Proof.
  intros Hq Hp Hlq Hlp.
  pose proof (lookup_lt_Some _ _ _ Hq) as Hq_lt.
  pose proof (lookup_lt_Some _ _ _ Hp) as Hp_lt.
  assert (q ≠ p) as Hne by (intros ->; congruence).
  split; [| split; [| split]].
  - unfold verlet_update, velocity.
    rewrite (bind_after _ _ _ _ _ (runs_ret p h)).
    rewrite (bind_after _ _ _ _ _ (runs_load _ _ _ Hp)).
    destruct (drift_mismatch (δt [/] two) q qv pv h Hq Hlq Hlp)
      as [Hfail | (H1 & Hn1 & qv' & Hlq' & Hrun)].
    { by apply bind_raises. }
    rewrite (bind_after _ _ _ _ _ Hrun).
    erewrite bind_after
      by (apply (runs_potential_gradient n L q qv'); [by apply lookup_stored | done]).
    apply bind_raises. apply (isub_fails p pv).
    + by rewrite list_lookup_insert_ne.
    + rewrite length_vscale, length_matvec. lia.
    + rewrite length_vscale, length_matvec. lia.
  - unfold feuler_update, velocity.
    rewrite (bind_after _ _ _ _ _ (runs_np_copy _ _ _ Hq)).
    rewrite (bind_after _ _ _ _ _ (runs_ret p _)).
    erewrite bind_after by (apply runs_load; by rewrite lookup_app_l).
    destruct (drift_mismatch δt q qv pv (h ++ [qv])) as
      [Hfail | (H1 & Hn1 & qv' & Hlq' & Hrun)];
      [by rewrite lookup_app_l | done | done | |].
    { by apply bind_raises. }
    rewrite (bind_after _ _ _ _ _ Hrun).
    erewrite bind_after
      by (apply (runs_potential_gradient n L (length h) qv);
          [rewrite list_lookup_insert_ne by lia; apply lookup_new | done]).
    apply (isub_fails p pv).
    + rewrite list_lookup_insert_ne by done. by rewrite lookup_app_l.
    + rewrite length_vscale, length_matvec. lia.
    + rewrite length_vscale, length_matvec. lia.
  - intros err Hpow. by apply (beuler_update_raises n L δt q p pv).
  - intros δt2 Hpow H1. unfold beuler_update.
    rewrite (bind_after _ _ _ _ _ (runs_np_copy _ _ _ Hp)).
    rewrite (bind_after _ _ _ _ _ (runs_lift _ _ _ Hpow)).
    erewrite bind_after by apply runs_load, lookup_new.
    erewrite bind_after by (apply runs_load; by rewrite lookup_app_l).
    erewrite bind_after by (by apply runs_lift, sp_matvec_ok).
    assert (length (matvec (mscale δt L) qv) = n) as HlL
      by (by rewrite length_matvec, length_mscale).
    destruct (np_sub pv (matvec (mscale δt L) qv)) as [rhs | e] eqn:Hsub.
    + assert (length rhs ≠ n) as Hrhs.
      { unfold np_sub in Hsub. rewrite HlL in Hsub.
        destruct (Nat.eqb_spec (length pv) n); [done |].
        destruct pv as [| x [| y pv]]; [| done |].
        - destruct (matvec (mscale δt L) qv) as [| z [| z' m]]; try done.
          injection Hsub as <-. cbn in HlL |- *. lia.
        - destruct (matvec (mscale δt L) qv) as [| z [| z' m]]; try done.
          injection Hsub as <-. cbn in HlL |- *. lia. }
      rewrite (bind_after _ _ _ _ _ (runs_lift _ _ _ eq_refl)).
      apply bind_raises. unfold lift, spsolve.
      by destruct (Nat.eqb_spec (length rhs) n).
    + assert (e = ValueError) as ->.
      { unfold np_sub in Hsub.
        destruct (Nat.eqb (length pv) (length (matvec (mscale δt L) qv)));
          [done |].
        destruct pv as [| x [| y pv]]; try done;
          destruct (matvec (mscale δt L) qv) as [| z [| z' m]]; try done;
          by injection Hsub as <-. }
      by apply bind_raises.
Qed.

End ShapeMismatch.

(** ** Exact arithmetic *)

Local Open Scope Qc_scope.

(** The scalar interface at [Qc] is the field of rationals. *)
Ltac qc :=
  change (@add Qc Qc_scalar) with Qcplus in *;
  change (@sub Qc Qc_scalar) with Qcminus in *;
  change (@mul Qc Qc_scalar) with Qcmult in *;
  change (@div Qc Qc_scalar) with Qcdiv in *;
  change (@opp Qc Qc_scalar) with Qcopp in *;
  change (@zero Qc Qc_scalar) with 0 in *;
  change (@one Qc Qc_scalar) with 1 in *;
  change (Q2Qc (inject_Z 0)) with 0 in *;
  change (Q2Qc (inject_Z 1)) with 1 in *.

(** In exact arithmetic the power [δt**2] never raises. *)
Lemma Qc_pow2 (δt : Qc) : pow2 δt = Ok (δt [*] δt).
Proof. reflexivity. Qed.

Section ExactVectors.
Implicit Types (x y z : vec Qc) (c : Qc) (M : matrix Qc).

Lemma foldl_add_start c x : foldl add c x = c + vsum x.
Proof.
  unfold vsum. revert c. induction x as [| a x IH]; intros c; cbn [foldl].
  - qc. ring.
  - rewrite (IH (c [+] a)), (IH (zero [+] a)). qc. ring.
Qed.

Lemma vsum_cons c x : vsum (c :: x) = c + vsum x.
Proof. unfold vsum at 1. cbn [foldl]. rewrite foldl_add_start. qc. ring. Qed.

Lemma vsum_nil : vsum (@nil Qc) = 0.
Proof. reflexivity. Qed.

Lemma vdot_cons a b x y : vdot (a :: x) (b :: y) = a * b + vdot x y.
Proof. unfold vdot. simpl. by rewrite vsum_cons. Qed.

Lemma vdot_nil_l y : vdot [] y = 0.
Proof. reflexivity. Qed.

Lemma vdot_nil_r x : vdot x [] = 0.
Proof. by destruct x. Qed.

Lemma vdot_comm x y : vdot x y = vdot y x.
Proof.
  revert y. induction x as [| a x IH]; intros [| b y]; try done.
  rewrite !vdot_cons, IH. ring.
Qed.

Lemma vdot_vscale_l c x y : vdot (vscale c x) y = c * vdot x y.
Proof.
  revert y. induction x as [| a x IH]; intros [| b y]; simpl;
    rewrite ?vdot_nil_l, ?vdot_nil_r; try ring.
  change (vscale c (a :: x)) with (c * a :: vscale c x).
  rewrite !vdot_cons, IH. ring.
Qed.

Lemma vdot_vadd_l x y z :
  length x = length y → vdot (vadd x y) z = vdot x z + vdot y z.
Proof.
  revert y z. induction x as [| a x IH]; intros [| b y] [| c z] Hlen;
    simplify_eq/=; rewrite ?vdot_nil_l, ?vdot_nil_r; try ring.
  change (vadd (a :: x) (b :: y)) with (a + b :: vadd x y).
  rewrite !vdot_cons, IH by done. ring.
Qed.

Lemma vdot_vsub_l x y z :
  length x = length y → vdot (vsub x y) z = vdot x z - vdot y z.
Proof.
  revert y z. induction x as [| a x IH]; intros [| b y] [| c z] Hlen;
    simplify_eq/=; rewrite ?vdot_nil_l, ?vdot_nil_r; try ring.
  change (vsub (a :: x) (b :: y)) with (a - b :: vsub x y).
  rewrite !vdot_cons, IH by done. ring.
Qed.

Lemma vdot_vscale_r c x y : vdot x (vscale c y) = c * vdot x y.
Proof. by rewrite vdot_comm, vdot_vscale_l, vdot_comm. Qed.

Lemma vdot_vadd_r x y z :
  length y = length z → vdot x (vadd y z) = vdot x y + vdot x z.
Proof. intros. by rewrite vdot_comm, vdot_vadd_l, !(vdot_comm x). Qed.

Lemma vdot_vsub_r x y z :
  length y = length z → vdot x (vsub y z) = vdot x y - vdot x z.
Proof. intros. by rewrite vdot_comm, vdot_vsub_l, !(vdot_comm x). Qed.

Lemma vdot_zeros_l k x : vdot (zeros k) x = 0.
Proof.
  revert x. induction k as [| k IH]; intros [| a x]; try done.
  change (zeros (S k)) with (0 :: zeros k). rewrite vdot_cons, IH. ring.
Qed.

Lemma vdot_zeros_r k x : vdot x (zeros k) = 0.
Proof. by rewrite vdot_comm, vdot_zeros_l. Qed.

(** *** Order *)

Lemma Qc_square_nonneg c : 0 <= c * c.
Proof.
  destruct (Qclt_le_dec c 0) as [Hneg | Hpos].
  - replace (c * c) with ((- c) * (- c)) by ring.
    assert (0 <= - c) as Hc.
    { apply Qclt_le_weak in Hneg. apply Qcopp_le_compat in Hneg.
      by replace (- 0) with 0 in Hneg by ring. }
    replace 0 with (0 * - c) at 1 by ring. by apply Qcmult_le_compat_r.
  - replace 0 with (0 * c) at 1 by ring. by apply Qcmult_le_compat_r.
Qed.

Lemma Qc_add_nonneg a b : 0 <= a → 0 <= b → 0 <= a + b.
Proof.
  intros Ha Hb. replace 0 with (0 + 0) by ring. by apply Qcplus_le_compat.
Qed.

Lemma Qc_mul_nonneg a b : 0 <= a → 0 <= b → 0 <= a * b.
Proof.
  intros Ha Hb. replace 0 with (0 * b) by ring. by apply Qcmult_le_compat_r.
Qed.

Lemma Qc_add_zero_l a b : 0 <= a → 0 <= b → a + b = 0 → a = 0.
Proof.
  intros Ha Hb Hab. apply Qcle_antisym; [| done].
  rewrite <- Hab. replace a with (a + 0) at 1 by ring.
  apply Qcplus_le_compat; [apply Qcle_refl | done].
Qed.

Lemma Qc_le_add_nonneg a b : 0 <= b → a <= a + b.
Proof.
  intros Hb. replace a with (a + 0) at 1 by ring.
  apply Qcplus_le_compat; [apply Qcle_refl | done].
Qed.

Lemma Qc_lt_add_pos a b : 0 < b → a < a + b.
Proof.
  intros Hb. apply Qclt_minus_iff. by replace (a + b + - a) with b by ring.
Qed.

Lemma Qc_pos_of_nonneg a : 0 <= a → a ≠ 0 → 0 < a.
Proof.
  intros Ha Hne. destruct (Qcle_lt_or_eq _ _ Ha) as [| <-]; done.
Qed.

Lemma Qc_mul_pos a b : 0 < a → 0 < b → 0 < a * b.
Proof.
  intros Ha Hb. replace 0 with (0 * b) by ring. by apply Qcmult_lt_compat_r.
Qed.

Lemma vdot_self_nonneg x : 0 <= vdot x x.
Proof.
  induction x as [| a x IH]; [done |].
  rewrite vdot_cons. apply Qc_add_nonneg; [apply Qc_square_nonneg | done].
Qed.

Lemma vdot_self_zero x : vdot x x = 0 → x = zeros (length x).
Proof.
  induction x as [| a x IH]; [done |].
  rewrite vdot_cons. intros Hz.
  pose proof (Qc_square_nonneg a) as Ha.
  pose proof (vdot_self_nonneg x) as Hx.
  assert (a = 0) as ->.
  { apply Qc_add_zero_l in Hz; [| done..].
    by destruct (Qcmult_integral _ _ Hz). }
  assert (vdot x x = 0) as Hx0.
  { rewrite <- Hz. ring. }
  change (zeros (length (0 :: x))) with (0 :: zeros (length x)).
  by rewrite <- IH.
Qed.

(** *** Matrices *)

Lemma matvec_vadd M x y :
  length x = length y →
  matvec M (vadd x y) = vadd (matvec M x) (matvec M y).
Proof.
  intros Hlen. induction M as [| r M IH]; [done |].
  simpl. rewrite vdot_vadd_r, IH by done. done.
Qed.

Lemma matvec_vsub M x y :
  length x = length y →
  matvec M (vsub x y) = vsub (matvec M x) (matvec M y).
Proof.
  intros Hlen. induction M as [| r M IH]; [done |].
  simpl. rewrite vdot_vsub_r, IH by done. done.
Qed.

Lemma matvec_vscale M c x : matvec M (vscale c x) = vscale c (matvec M x).
Proof.
  induction M as [| r M IH]; [done |].
  simpl. rewrite vdot_vscale_r, IH. done.
Qed.

Lemma matvec_mscale M c x : matvec (mscale c M) x = vscale c (matvec M x).
Proof.
  induction M as [| r M IH]; [done |].
  simpl. rewrite vdot_vscale_l, IH. done.
Qed.

Lemma matvec_zeros M k : matvec M (zeros k) = zeros (length M).
Proof.
  induction M as [| r M IH]; [done |].
  simpl. rewrite vdot_zeros_r, IH. done.
Qed.

Lemma matvec_madd M1 M2 x :
  Forall2 (λ r1 r2, length r1 = length r2) M1 M2 →
  matvec (madd M1 M2) x = vadd (matvec M1 x) (matvec M2 x).
Proof.
  induction 1 as [| r1 r2 M1 M2 Hr _ IH]; [done |].
  simpl. rewrite vdot_vadd_l, IH by done. done.
Qed.

End ExactVectors.

Section ExactMatrices.
Implicit Types (x y z a : vec Qc) (c : Qc) (M B : matrix Qc) (n i j k : nat).

Lemma vadd_zeros_l k x : length x = k → vadd (zeros k) x = x.
Proof.
  intros <-. unfold vadd, zeros. rewrite zip_with_replicate_l by done.
  rewrite <- (list_fmap_id x) at 2. apply list_fmap_ext. intros _ b _.
  qc. simpl. ring.
Qed.

Lemma vadd_app x1 x2 y1 y2 :
  length x1 = length y1 →
  vadd (x1 ++ x2) (y1 ++ y2) = vadd x1 y1 ++ vadd x2 y2.
Proof. apply zip_with_app. Qed.

Lemma vscale_zeros c k : vscale c (zeros k) = zeros k.
Proof.
  unfold vscale, zeros. rewrite fmap_replicate. f_equal. qc. ring.
Qed.

Lemma length_vecmat n a B :
  Forall (λ r, length r = n) B → length (vecmat n a B) = n.
Proof.
  intros HB. revert a. induction HB as [| r B Hr _ IH]; intros [| c a];
    simpl; rewrite ?length_zeros; try done.
  rewrite length_vadd, length_vscale, IH. lia.
Qed.

Lemma vdot_vecmat n a B x :
  Forall (λ r, length r = n) B →
  vdot (vecmat n a B) x = vdot a (matvec B x).
Proof.
  intros HB. revert a. induction HB as [| r B Hr HB IH]; intros [| c a];
    cbn [vecmat]; rewrite ?vdot_zeros_l, ?vdot_nil_l, ?vdot_nil_r; try done.
  change (matvec (r :: B) x) with (vdot r x :: matvec B x).
  rewrite vdot_cons, vdot_vadd_l, vdot_vscale_l, IH; [done |].
  by rewrite length_vscale, length_vecmat.
Qed.

Lemma matvec_mmul n M B x :
  Forall (λ r, length r = n) B →
  matvec (mmul n M B) x = matvec M (matvec B x).
Proof.
  intros HB. unfold matvec at 1 2, mmul. rewrite <- list_fmap_compose.
  apply list_fmap_ext. intros _ a _. simpl. by apply vdot_vecmat.
Qed.

Lemma length_transpose n M :
  Forall (λ r, length r = n) M → length (transpose n M) = n.
Proof.
  induction 1 as [| r M Hr _ IH]; simpl.
  - apply length_replicate.
  - rewrite length_zip_with. lia.
Qed.

Lemma rows_transpose n M :
  Forall (λ r, length r = length M) (transpose n M).
Proof.
  induction M as [| r M IH]; simpl.
  - by apply Forall_replicate.
  - revert IH. generalize (transpose n M). clear.
    induction r as [| c r IHr]; intros [| t T] HT; simpl; try done.
    inversion HT; subst. constructor; [simpl; congruence | auto].
Qed.

Lemma matvec_zip_cons r T c a :
  matvec (zip_with cons r T) (c :: a) = vadd (vscale c r) (matvec T a).
Proof.
  revert T. induction r as [| b r IH]; intros [| t T]; try done.
  simpl. rewrite vdot_cons, IH. f_equal. qc. ring.
Qed.

Lemma matvec_transpose n M a :
  length a = length M →
  matvec (transpose n M) a = vecmat n a M.
Proof.
  revert a. induction M as [| r M IH]; intros [| c a] Hlen; simplify_eq/=.
  - unfold matvec. by rewrite fmap_replicate.
  - by rewrite matvec_zip_cons, IH.
Qed.

(** The transpose is the adjoint for the dot product. *)
Lemma vdot_transpose n M a x :
  Forall (λ r, length r = n) M → length a = length M →
  vdot (matvec (transpose n M) a) x = vdot a (matvec M x).
Proof. intros HM Hlen. by rewrite matvec_transpose, vdot_vecmat. Qed.

(** *** The identity *)

Lemma unit_row_split n i :
  (i < n)%nat →
  (λ j, if Nat.eqb i j then one else zero) <$> seq 0 n
  = zeros i ++ (1 : Qc) :: zeros (n - S i).
Proof.
  intros Hi. apply list_eq. intros j. rewrite list_lookup_fmap.
  destruct (decide (j < n)%nat) as [Hj | Hj].
  - rewrite lookup_seq_lt by done. simpl.
    destruct (Nat.eqb_spec i j) as [-> | Hne].
    + rewrite lookup_app_r by (rewrite length_zeros; lia).
      by rewrite length_zeros, Nat.sub_diag.
    + destruct (decide (j < i)%nat).
      * rewrite lookup_app_l by (rewrite length_zeros; lia).
        unfold zeros. by rewrite lookup_replicate_2.
      * rewrite lookup_app_r by (rewrite length_zeros; lia).
        rewrite length_zeros. replace (j - i)%nat with (S (j - S i)) by lia.
        simpl. unfold zeros. rewrite lookup_replicate_2 by lia. done.
  - rewrite lookup_seq_ge by lia. symmetry. apply lookup_ge_None.
    rewrite length_app. simpl. rewrite !length_zeros. lia.
Qed.

Lemma vdot_app x1 x2 y1 y2 :
  length x1 = length y1 →
  vdot (x1 ++ x2) (y1 ++ y2) = vdot x1 y1 + vdot x2 y2.
Proof.
  revert y1. induction x1 as [| a x1 IH]; intros [| b y1] Hlen; simplify_eq/=.
  - rewrite vdot_nil_l. ring.
  - rewrite !vdot_cons, IH by done. ring.
Qed.

Lemma vdot_unit_row n i x :
  length x = n → (i < n)%nat →
  vdot ((λ j, if Nat.eqb i j then one else zero) <$> seq 0 n) x
  = default 0 (x !! i).
Proof.
  intros Hlen Hi. rewrite unit_row_split by done.
  destruct (lookup_lt_is_Some_2 x i) as [b Hb]; [lia |]. rewrite Hb. simpl.
  rewrite <- (take_drop_middle x i b Hb).
  rewrite vdot_app by (rewrite length_zeros, length_take; lia).
  rewrite vdot_cons, !vdot_zeros_l. ring.
Qed.

Lemma matvec_eye n x : length x = n → matvec (eye n) x = x.
Proof.
  intros Hlen. apply list_eq. intros i. unfold matvec, eye.
  rewrite !list_lookup_fmap.
  destruct (decide (i < n)%nat) as [Hi | Hi].
  - rewrite lookup_seq_lt by done. simpl.
    rewrite vdot_unit_row by done.
    destruct (lookup_lt_is_Some_2 x i) as [v Hv]; [lia |]. by rewrite Hv.
  - rewrite lookup_seq_ge by lia. simpl. symmetry. apply lookup_ge_None. lia.
Qed.

Lemma vecmat_units n a k :
  (k + length a ≤ n)%nat →
  vecmat n a ((λ i, (λ j, if Nat.eqb i j then one else zero) <$> seq 0 n)
                <$> seq k (length a))
  = zeros k ++ a ++ zeros (n - k - length a).
Proof.
  revert k. induction a as [| c a IH]; intros k Hk.
  - simpl. unfold zeros. rewrite <- replicate_add. f_equal. simpl in Hk. lia.
  - cbn [length seq fmap list_fmap vecmat]. cbn [length] in Hk.
    rewrite IH by lia. rewrite unit_row_split by lia.
    assert (vscale c (zeros k ++ 1 :: zeros (n - S k))
            = zeros k ++ c :: zeros (n - S k)) as ->.
    { unfold vscale. rewrite fmap_app. fold (vscale c (zeros k)).
      rewrite vscale_zeros. f_equal. rewrite fmap_cons.
      fold (vscale c (zeros (n - S k))). rewrite vscale_zeros.
      f_equal. qc. ring. }
    assert (zeros (S k) ++ a ++ zeros (n - S k - length a)
            = zeros k ++ 0 :: a ++ zeros (n - S k - length a)) as ->.
    { unfold zeros. by rewrite replicate_S_end, <- app_assoc. }
    rewrite vadd_app, vadd_zeros_l by (done || apply length_zeros).
    f_equal.
    change (vadd (c :: ?u) (0 :: ?v)) with (c + 0 :: vadd u v).
    rewrite vadd_zeros_l by (rewrite length_app, length_zeros; lia).
    simpl. f_equal; [ring |].
    do 2 f_equal. lia.
Qed.

Lemma vecmat_eye n a : length a = n → vecmat n a (eye n) = a.
Proof.
  intros Hlen. unfold eye. subst n.
  rewrite vecmat_units by lia.
  replace (length a - 0 - length a)%nat with 0%nat by lia. simpl. apply app_nil_r.
Qed.

Lemma mmul_eye n M : Forall (λ r, length r = n) M → mmul n M (eye n) = M.
Proof.
  intros HM. unfold mmul. rewrite <- (list_fmap_id M) at 2.
  apply Forall_fmap_ext. eapply Forall_impl; [exact HM |].
  intros a Ha. by apply vecmat_eye.
Qed.

End ExactMatrices.

(** Decide the integer comparisons of a goal that hold. *)
Ltac Z_leb_true :=
  repeat match goal with
         | |- context [(?a <=? ?b)%Z] =>
             rewrite (proj2 (Z.leb_le a b)) by (simpl; lia)
         end.

Section ExactOperator.
Implicit Types (n i j k : nat).

Lemma np_ones_nat k : np_ones (A := Qc) (Z.of_nat k) = Ok (ones k).
Proof.
  unfold np_ones. destruct (Z.ltb_spec (Z.of_nat k) 0); [lia |].
  by rewrite Nat2Z.id.
Qed.

Lemma square_fmap_seq n (f : nat → nat → Qc) :
  square n ((λ i, f i <$> seq 0 n) <$> seq 0 n).
Proof.
  split; [by rewrite length_fmap, length_seq |].
  apply Forall_fmap, Forall_forall. intros i _. simpl.
  by rewrite length_fmap, length_seq.
Qed.

Lemma matrix_fmap_seq_ext n (f g : nat → nat → Qc) :
  (∀ i j, (i < n)%nat → (j < n)%nat → f i j = g i j) →
  (λ i, f i <$> seq 0 n) <$> seq 0 n = (λ i, g i <$> seq 0 n) <$> seq 0 n.
Proof.
  intros Hfg. apply Forall_fmap_ext, Forall_seq. intros i [_ Hi].
  apply Forall_fmap_ext, Forall_seq. intros j [_ Hj]. apply Hfg; lia.
Qed.

Lemma Lambda_built n : Λ (A := Qc) n = Ok (eye n).
Proof.
  unfold Λ. rewrite np_ones_nat. simpl.
  rewrite length_ones, Nat.add_0_r.
  unfold diag_fits, diag_length. simpl. rewrite length_ones.
  Z_leb_true.
  simpl. f_equal. apply matrix_fmap_seq_ext. intros i j Hi Hj.
  unfold diag_entry. cbn [find snd].
  destruct (Z.eqb_spec 0 (Z.of_nat j - Z.of_nat i)) as [Heq | Hne];
    destruct (Nat.eqb_spec i j) as [-> | Hij]; try lia; [| done].
  rewrite length_ones, Nat.min_id. unfold ones.
  destruct (Nat.eqb_spec n 1); by rewrite lookup_replicate_2 by lia.
Qed.

Lemma D_built n : (0 < n)%nat → D n = Ok (D_spec n).
Proof.
  intros Hn. unfold D. rewrite np_ones_nat. simpl.
  unfold setitem_vec. rewrite length_ones.
  destruct (Nat.ltb_spec 0 n) as [_ | ?]; [| lia]. simpl.
  replace (Z.of_nat n - 1)%Z with (Z.of_nat (n - 1)) by lia.
  rewrite np_ones_nat. simpl.
  rewrite length_insert, length_ones, Nat.add_0_r.
  unfold diag_fits, diag_length. simpl.
  rewrite length_insert, length_vneg, !length_ones.
  Z_leb_true.
  simpl. f_equal. apply matrix_fmap_seq_ext. intros i j Hi Hj.
  unfold diag_entry. cbn [find snd].
  destruct (Z.eqb_spec 0 (Z.of_nat j - Z.of_nat i)) as [Heq | Hne].
  - destruct (Nat.eqb_spec i j) as [-> | Hij]; [| lia].
    rewrite length_insert, length_ones, Nat.min_id.
    destruct (Nat.eqb_spec j 0) as [-> | Hj0].
    + rewrite list_lookup_insert_eq by (rewrite length_ones; lia).
      by destruct (n =? 1)%nat.
    + destruct (Nat.eqb_spec n 1) as [-> | Hn1]; [lia |].
      rewrite list_lookup_insert_ne by lia.
      unfold ones. by rewrite lookup_replicate_2 by lia.
  - destruct (Nat.eqb_spec i j) as [-> | Hij]; [lia |].
    destruct (Z.eqb_spec (-1) (Z.of_nat j - Z.of_nat i)) as [Heq | Hne'];
      destruct (Nat.eqb_spec i (S j)) as [-> | Hij']; try lia; [| done].
    rewrite length_vneg, length_ones.
    unfold vneg, ones. rewrite fmap_replicate.
    replace (Nat.min (S j) j) with j by lia.
    destruct (Nat.eqb_spec (n - 1) 1); by rewrite lookup_replicate_2 by lia.
Qed.

Lemma D_spec_square n : square n (D_spec n).
Proof. apply square_fmap_seq. Qed.

Lemma L_built n :
  (0 < n)%nat → L (A := Qc) n = Ok (mmul n (transpose n (D_spec n)) (D_spec n)).
Proof.
  intros Hn. unfold L. rewrite D_built, Lambda_built by done. simpl.
  rewrite mmul_eye; [done |].
  eapply Forall_impl; [apply rows_transpose |].
  intros r Hr. simpl in Hr. rewrite Hr. apply D_spec_square.
Qed.

End ExactOperator.

(** Expand dot products over sums, differences and multiples. *)
Ltac bilinear :=
  repeat first
    [ rewrite vdot_vadd_l by len
    | rewrite vdot_vadd_r by len
    | rewrite vdot_vsub_l by len
    | rewrite vdot_vsub_r by len
    | rewrite vdot_vscale_l
    | rewrite vdot_vscale_r ].

Ltac bilinear_in H :=
  repeat first
    [ rewrite vdot_vadd_l in H by len
    | rewrite vdot_vadd_r in H by len
    | rewrite vdot_vsub_l in H by len
    | rewrite vdot_vsub_r in H by len
    | rewrite vdot_vscale_l in H
    | rewrite vdot_vscale_r in H ].

Section OperatorLaws.
Variable n : nat.
Variable Dm : matrix Qc.
Hypothesis D_square : square n Dm.
Implicit Types (x y : vec Qc).

Local Abbreviation Lm := (mmul n (transpose n Dm) Dm).

Lemma L_square : square n Lm.
Proof.
  destruct D_square as [Hlen Hrows]. split.
  - unfold mmul. rewrite length_fmap. by apply length_transpose.
  - apply Forall_fmap, Forall_forall. intros a _. simpl. by apply length_vecmat.
Qed.

Lemma L_gram x y :
  vdot (matvec Lm x) y = vdot (matvec Dm x) (matvec Dm y).
Proof.
  destruct D_square as [Hlen Hrows].
  rewrite matvec_mmul by done. apply vdot_transpose; [done |].
  by rewrite length_matvec.
Qed.

Lemma L_sym x y : vdot (matvec Lm x) y = vdot x (matvec Lm y).
Proof. by rewrite (vdot_comm x), !L_gram, vdot_comm. Qed.

Lemma L_psd x : 0 <= vdot (matvec Lm x) x.
Proof. rewrite L_gram. apply vdot_self_nonneg. Qed.

Lemma L_null x : vdot (matvec Lm x) x = 0 → matvec Lm x = zeros n.
Proof.
  destruct D_square as [Hlen Hrows]. rewrite L_gram. intros Hz.
  apply vdot_self_zero in Hz. rewrite matvec_mmul by done.
  rewrite Hz, matvec_zeros. f_equal. by apply length_transpose.
Qed.

End OperatorLaws.

Section EnergyLaws.
Variable n : nat.
Variable Lm : matrix Qc.
Hypothesis L_shape : square n Lm.
Hypothesis L_symm : ∀ x y, vdot (matvec Lm x) y = vdot x (matvec Lm y).
Hypothesis L_nonneg : ∀ x, 0 <= vdot (matvec Lm x) x.
Implicit Types (q p x y : vec Qc) (δt : Qc).

Lemma L_length : length Lm = n.
Proof. apply L_shape. Qed.

(** The energy gained in one forward-Euler step. *)
Lemma energy_feuler_step δt q p :
  length q = n → length p = n →
  energy Lm (feuler_step Lm δt (q, p))
  = energy Lm (q, p)
    + half * (δt * δt)
      * (vdot (matvec Lm q) (matvec Lm q) + vdot (matvec Lm p) p).
Proof.
  intros Hq Hp. pose proof L_length as HL.
  unfold energy, feuler_step. cbn [fst snd]. qc.
  change (vsum (vmul ?x ?y)) with (vdot x y).
  rewrite matvec_vadd, matvec_vscale by len.
  bilinear.
  rewrite (L_symm p q), (vdot_comm (matvec Lm q) p).
  ring.
Qed.

(** The energy lost in one backward-Euler step to [(q', p')], where
    [p'] solves the linear system of the step. *)
Lemma energy_beuler_step δt q p p' :
  length q = n → length p = n → length p' = n →
  vadd p' (vscale (δt * δt) (matvec Lm p')) = vsub p (vscale δt (matvec Lm q)) →
  energy Lm (q, p)
  = energy Lm (vadd q (vscale δt p'), p')
    + half * (δt * δt)
      * (vdot (matvec Lm (vadd q (vscale δt p'))) (matvec Lm (vadd q (vscale δt p')))
         + vdot (matvec Lm p') p').
Proof.
  intros Hq Hp Hp' Heq. pose proof L_length as HL.
  pose proof (f_equal (λ v, vdot v v) Heq) as Hbb.
  pose proof (f_equal (λ v, vdot v (matvec Lm q)) Heq) as Hbg.
  cbn beta in Hbb, Hbg. bilinear_in Hbb. bilinear_in Hbg.
  unfold energy. cbn [fst snd]. qc.
  change (vsum (vmul ?x ?y)) with (vdot x y).
  rewrite matvec_vadd, matvec_vscale by len.
  bilinear.
  rewrite (L_symm p' q), (vdot_comm (matvec Lm q) p'),
    (vdot_comm (matvec Lm q) (matvec Lm p')).
  rewrite (vdot_comm (matvec Lm q) p), (vdot_comm (matvec Lm p') p') in Hbb.
  set (pp := vdot p p) in *. set (pg := vdot p (matvec Lm q)) in *.
  set (gg := vdot (matvec Lm q) (matvec Lm q)) in *.
  set (ag := vdot (matvec Lm p') (matvec Lm q)) in *.
  set (aa := vdot (matvec Lm p') (matvec Lm p')) in *.
  set (p'g := vdot p' (matvec Lm q)) in *.
  set (p'a := vdot p' (matvec Lm p')) in *.
  rewrite (vdot_comm (matvec Lm p') p'). fold p'a.
  assert (pg = p'g + δt * δt * ag + δt * gg) as Hpg.
  { rewrite Hbg. ring. }
  assert (pp = vdot p' p' + δt * δt * p'a + (δt * δt * p'a + δt * δt * (δt * δt * aa))
               + (δt * pg + (δt * pg - δt * (δt * gg)))) as Hpp.
  { rewrite Hbb. ring. }
  rewrite Hpp, Hpg. ring.
Qed.

(** The linear system of the backward-Euler step has one solution. *)
Lemma beuler_system_nonsingular δt y :
  length y = n →
  vadd y (vscale (δt * δt) (matvec Lm y)) = zeros n → y = zeros n.
Proof.
  intros Hy Hz. pose proof L_length as HL.
  pose proof (f_equal (λ v, vdot v y) Hz) as Hd. cbn beta in Hd.
  rewrite vdot_zeros_l in Hd. bilinear_in Hd.
  apply Qc_add_zero_l in Hd.
  - rewrite <- Hy. by apply vdot_self_zero.
  - apply vdot_self_nonneg.
  - apply Qc_mul_nonneg; [apply Qc_square_nonneg | apply L_nonneg].
Qed.

(** The matrix [I + δt² L], applied. *)
Lemma beuler_system_apply δt y :
  length y = n →
  matvec (madd (eye n) (mscale (δt * δt) Lm)) y
  = vadd y (vscale (δt * δt) (matvec Lm y)).
Proof.
  intros Hy. destruct L_shape as [HL Hrows].
  rewrite matvec_madd; [by rewrite matvec_eye, matvec_mscale |].
  apply Forall2_same_length_lookup_2.
  - unfold eye. by rewrite length_fmap, length_seq, length_mscale.
  - intros i r1 r2 Hr1 Hr2. unfold eye, mscale in *.
    rewrite list_lookup_fmap in Hr1. rewrite list_lookup_fmap in Hr2.
    destruct (seq 0 n !! i) eqn:?, (Lm !! i) as [r |] eqn:Hr; simplify_eq/=.
    rewrite length_fmap, length_seq, length_vscale.
    symmetry. eapply Forall_lookup_1 in Hrows; eauto.
Qed.

Lemma beuler_system_square δt :
  square n (madd (eye n) (mscale (δt * δt) Lm)).
Proof.
  destruct L_shape as [HL Hrows]. split.
  - unfold madd, eye. rewrite length_zip_with, length_fmap, length_seq, length_mscale. lia.
  - apply Forall_lookup. intros i r Hr. unfold madd in Hr.
    apply lookup_zip_with_Some in Hr as (r1 & r2 & -> & Hr1 & Hr2).
    unfold eye, mscale in *. rewrite list_lookup_fmap in Hr1. rewrite list_lookup_fmap in Hr2.
    destruct (seq 0 n !! i) eqn:?, (Lm !! i) as [r |] eqn:Hr; simplify_eq/=.
    rewrite length_vadd, length_fmap, length_seq, length_vscale.
    eapply Forall_lookup_1 in Hrows; eauto. simpl in Hrows. lia.
Qed.

End EnergyLaws.

Section ExactSteps.
Implicit Types (x y p g a : vec Qc) (c δt : Qc) (n : nat).

Lemma vadd_vscale_undo c x y :
  length x = length y →
  vadd (vadd x (vscale c y)) (vscale (- c) y) = x.
Proof.
  revert y. induction x as [| a x IH]; intros [| b y] Hlen; simplify_eq/=;
    [done |].
  f_equal; [ring | by apply IH].
Qed.

Lemma vsub_vscale_undo c x y :
  length x = length y →
  vsub (vsub x (vscale c y)) (vscale (- c) y) = x.
Proof.
  revert y. induction x as [| a x IH]; intros [| b y] Hlen; simplify_eq/=;
    [done |].
  f_equal; [ring | by apply IH].
Qed.

Lemma vadd_zeros_r k x : length x = k → vadd x (zeros k) = x.
Proof.
  intros <-. induction x as [| a x IH]; [done |].
  simpl. f_equal; [qc; ring | done].
Qed.

Lemma vsub_zeros_r k x : length x = k → vsub x (zeros k) = x.
Proof.
  intros <-. induction x as [| a x IH]; [done |].
  simpl. f_equal; [qc; ring | done].
Qed.

Lemma Qc_half_neg δt : (- δt) [/] two = - (δt [/] two).
Proof. qc. unfold Qcdiv. ring. Qed.

(** A Verlet step with the opposite time step undoes a Verlet step. *)
Lemma verlet_step_reverse n (Lm : matrix Qc) δt x p :
  length Lm = n → length x = n → length p = n →
  verlet_step Lm (- δt) (verlet_step Lm δt (x, p)) = (x, p).
Proof.
  intros HL Hx Hp. unfold verlet_step. cbn [fst snd].
  rewrite Qc_half_neg.
  rewrite (vadd_vscale_undo (δt [/] two) (vadd x (vscale (δt [/] two) p))) by len.
  rewrite vsub_vscale_undo by len.
  by rewrite vadd_vscale_undo by len.
Qed.

(** The linear system of the backward-Euler step says that the new
    momentum is the old one kicked by the gradient at the new
    position. *)
Lemma beuler_equation_iff δt x p g a :
  length x = length p → length g = length p → length a = length p →
  vadd x (vscale (δt * δt) a) = vsub p (vscale δt g)
  ↔ x = vsub p (vscale δt (vadd g (vscale δt a))).
Proof.
  revert p g a.
  induction x as [| x0 x IH]; intros [| p0 p] [| g0 g] [| a0 a] Hx Hg Ha;
    simplify_eq/=; [done |].
  specialize (IH p g a ltac:(done) ltac:(done) ltac:(done)).
  split; intros Heq;
    pose proof (f_equal head Heq) as Hhead;
    pose proof (f_equal tail Heq) as Htail;
    cbn [head tail] in Hhead, Htail; apply (inj Some) in Hhead;
    (f_equal; [| by apply IH]).
  - replace x0 with (x0 + δt * δt * a0 - δt * δt * a0) by ring.
    rewrite Hhead. ring.
  - rewrite Hhead. ring.
Qed.

End ExactSteps.

(** Cramer's rule solves every nonsingular system of two equations. *)
Lemma cramer2_exact : solver_exact (A := Qc) (H0 := cramer2) 2.
Proof.
  intros M b [Hlen Hrows] Hb Hns.
  destruct M as [| r1 [| r2 [| ? ?]]]; simplify_eq/=.
  apply Forall_cons in Hrows as [Hr1 Hrows].
  apply Forall_cons in Hrows as [Hr2 _].
  destruct r1 as [| a11 [| a12 [| ? ?]]]; simplify_eq/=.
  destruct r2 as [| a21 [| a22 [| ? ?]]]; simplify_eq/=.
  destruct b as [| b1 [| b2 [| ? ?]]]; simplify_eq/=.
  assert (∀ u v w z : Qc, vdot [u; v] [w; z] = u * w + v * z) as Hdot.
  { intros. rewrite !vdot_cons, vdot_nil_l. ring. }
  assert (a11 * a22 - a12 * a21 ≠ 0) as Hdet.
  { intros Hdet.
    pose proof (Hns [a22; - a21] eq_refl) as H1.
    pose proof (Hns [- a12; a11] eq_refl) as H2.
    pose proof (Hns [1; 0] eq_refl) as H3.
    unfold matvec in H1, H2, H3. cbn [fmap list_fmap] in H1, H2, H3.
    rewrite !Hdot in H1, H2, H3.
    assert ([a22; - a21] = zeros 2) as E1.
    { apply H1.
      replace (a11 * a22 + a12 * - a21) with (a11 * a22 - a12 * a21) by ring.
      rewrite Hdet. by replace (a21 * a22 + a22 * - a21) with 0 by ring. }
    assert ([- a12; a11] = zeros 2) as E2.
    { apply H2.
      replace (a21 * - a12 + a22 * a11) with (a11 * a22 - a12 * a21) by ring.
      rewrite Hdet. by replace (a11 * - a12 + a12 * a11) with 0 by ring. }
    pose proof (f_equal (λ l, l !! 0%nat) E1) as E1a.
    pose proof (f_equal (λ l, l !! 1%nat) E1) as E1b.
    pose proof (f_equal (λ l, l !! 0%nat) E2) as E2a.
    pose proof (f_equal (λ l, l !! 1%nat) E2) as E2b.
    cbn in E1a, E1b, E2a, E2b.
    apply (inj Some) in E1a, E1b, E2a, E2b.
    change (Q2Qc (inject_Z 0)) with 0 in *.
    assert (a21 = 0) as -> by (replace a21 with (- - a21) by ring; rewrite E1b; ring).
    assert (a12 = 0) as -> by (replace a12 with (- - a12) by ring; rewrite E2a; ring).
    subst a11 a22.
    assert ([1; 0] = zeros (A := Qc) 2) as E3.
    { apply H3. replace (0 * 1 + 0 * 0) with 0 by ring. done. }
    pose proof (f_equal (λ l, l !! 0%nat) E3) as E3a. cbn in E3a.
    apply (inj Some) in E3a. by apply Q_apart_0_1. }
  unfold linsolve, cramer2, matvec. cbn [fmap list_fmap].
  rewrite !Hdot. qc. f_equal; [| f_equal]; field; done.
Qed.

Lemma half_pos : 0 < half (A := Qc).
Proof. reflexivity. Qed.

Lemma L_built_inv n (Lm : matrix Qc) :
  L n = Ok Lm →
  (0 < n)%nat ∧ Lm = mmul n (transpose n (D_spec n)) (D_spec n).
Proof.
  destruct n as [| n]; [discriminate |].
  rewrite L_built by lia. intros [= <-]. split; [lia | done].
Qed.

(** ** Energy along the Euler steps, exact arithmetic *)

Section EulerEnergy.
Context `{DirectSolver Qc}.
Variable n : nat.
Variable Lm : matrix Qc.
Hypothesis L_shape : square n Lm.
Hypothesis L_symm : ∀ x y, vdot (matvec Lm x) y = vdot x (matvec Lm y).
Hypothesis L_nonneg : ∀ x, 0 <= vdot (matvec Lm x) x.
Hypothesis L_kernel : ∀ x, vdot (matvec Lm x) x = 0 → matvec Lm x = zeros n.
Hypothesis solver_ok : solver_shape.
Hypothesis solver_solves : solver_exact n.
Variable δt : Qc.
Implicit Types (q p : vec Qc) (s : vec Qc * vec Qc).

Lemma step_gain_nonneg q p :
  0 <= half * (δt * δt) * (vdot (matvec Lm q) (matvec Lm q) + vdot (matvec Lm p) p).
Proof.
  apply Qc_mul_nonneg.
  - apply Qc_mul_nonneg; [apply Qclt_le_weak, half_pos | apply Qc_square_nonneg].
  - apply Qc_add_nonneg; [apply vdot_self_nonneg | apply L_nonneg].
Qed.

Lemma step_gain_pos q p :
  δt ≠ 0 → matvec Lm q ≠ zeros n ∨ matvec Lm p ≠ zeros n →
  0 < half * (δt * δt) * (vdot (matvec Lm q) (matvec Lm q) + vdot (matvec Lm p) p).
Proof.
  intros Hδt Hmove. apply Qc_mul_pos.
  - apply Qc_mul_pos; [apply half_pos |].
    apply Qc_pos_of_nonneg; [apply Qc_square_nonneg |].
    intros Hz. by destruct (Qcmult_integral _ _ Hz).
  - apply Qc_pos_of_nonneg.
    + apply Qc_add_nonneg; [apply vdot_self_nonneg | apply L_nonneg].
    + intros Hz. destruct Hmove as [Hq | Hp].
      * apply Hq. apply Qc_add_zero_l in Hz;
          [| apply vdot_self_nonneg | apply L_nonneg].
        apply vdot_self_zero in Hz. rewrite Hz, length_matvec.
        f_equal. apply L_shape.
      * apply Hp, L_kernel. rewrite Qcplus_comm in Hz.
        eapply Qc_add_zero_l; [apply L_nonneg | apply vdot_self_nonneg | exact Hz].
Qed.

Lemma feuler_energy_le s :
  shaped n s → energy Lm s <= energy Lm (feuler_step Lm δt s).
Proof.
  destruct s as [q p]. intros [Hq Hp]. simpl in Hq, Hp.
  rewrite (energy_feuler_step n Lm L_shape L_symm) by done.
  apply Qc_le_add_nonneg, step_gain_nonneg.
Qed.

Lemma feuler_energy_lt s :
  shaped n s → δt ≠ 0 → moving n Lm s →
  energy Lm s < energy Lm (feuler_step Lm δt s).
Proof.
  destruct s as [q p]. intros [Hq Hp] Hδt Hmove. simpl in Hq, Hp.
  rewrite (energy_feuler_step n Lm L_shape L_symm) by done.
  by apply Qc_lt_add_pos, step_gain_pos.
Qed.

(** The momentum of the backward-Euler step solves the system. *)
Lemma beuler_step_solves q p :
  length q = n → length p = n →
  let p' := (beuler_step n Lm δt (q, p)).2 in
  length p' = n
  ∧ vadd p' (vscale (δt * δt) (matvec Lm p'))
    = vsub p (vscale δt (matvec Lm q)).
Proof.
  intros Hq Hp p'. pose proof (L_length n Lm L_shape) as HL.
  assert (length p' = n) as Hp'.
  { unfold p', beuler_step. cbn [fst snd]. rewrite solver_ok. len. }
  split; [done |].
  rewrite <- (beuler_system_apply n Lm L_shape) by done.
  unfold p', beuler_step. cbn [fst snd]. qc.
  rewrite solver_solves.
  - by rewrite matvec_mscale.
  - by apply beuler_system_square.
  - len.
  - intros y Hy. rewrite (beuler_system_apply n Lm L_shape) by done.
    by apply beuler_system_nonsingular.
Qed.

Lemma beuler_energy_le s :
  shaped n s → energy Lm (beuler_step n Lm δt s) <= energy Lm s.
Proof.
  destruct s as [q p]. intros [Hq Hp]. simpl in Hq, Hp.
  destruct (beuler_step_solves q p Hq Hp) as [Hp' Heq].
  rewrite (energy_beuler_step n Lm L_shape L_symm δt q p _ Hq Hp Hp' Heq).
  apply Qc_le_add_nonneg, step_gain_nonneg.
Qed.

Lemma beuler_energy_lt s :
  shaped n s → δt ≠ 0 → moving n Lm s →
  energy Lm (beuler_step n Lm δt s) < energy Lm s.
Proof.
  destruct s as [q p]. intros [Hq Hp] Hδt Hmove. simpl in Hq, Hp.
  pose proof (L_length n Lm L_shape) as HL.
  destruct (beuler_step_solves q p Hq Hp) as [Hp' Heq].
  rewrite (energy_beuler_step n Lm L_shape L_symm δt q p _ Hq Hp Hp' Heq).
  apply Qc_lt_add_pos, step_gain_pos; [done |].
  set (p' := (beuler_step n Lm δt (q, p)).2) in *.
  destruct (decide (matvec Lm p' = zeros n)) as [Hz' | Hnz]; [| by right].
  left. intros Hz. rewrite matvec_vadd, matvec_vscale, Hz' in Hz by len.
  rewrite vscale_zeros, vadd_zeros_r in Hz by len.
  rewrite Hz', Hz, !vscale_zeros, vadd_zeros_r, vsub_zeros_r in Heq by done.
  destruct Hmove as [Hm | Hm]; simpl in Hm; [done |].
  apply Hm. by rewrite <- Heq.
Qed.

Lemma energy_iter_feuler k s :
  shaped n s → energy Lm s <= energy Lm (Nat.iter k (feuler_step Lm δt) s).
Proof.
  intros Hs. pose proof (L_length n Lm L_shape) as HL.
  induction k as [| k IH]; [apply Qcle_refl |].
  eapply Qcle_trans; [exact IH |]. simpl. apply feuler_energy_le.
  apply shaped_iter; [| done]. intros s'. by apply shaped_feuler_step.
Qed.

Lemma energy_iter_beuler k s :
  shaped n s → energy Lm (Nat.iter k (beuler_step n Lm δt) s) <= energy Lm s.
Proof.
  intros Hs. pose proof (L_length n Lm L_shape) as HL.
  induction k as [| k IH]; [apply Qcle_refl |].
  eapply Qcle_trans; [| exact IH]. simpl. apply beuler_energy_le.
  apply shaped_iter; [| done]. intros s'. by apply shaped_beuler_step.
Qed.

(** Consecutive entries of the two Euler trajectories. *)
Lemma trajectory_feuler_mono count s k x y :
  shaped n s →
  trajectory Lm (feuler_step Lm δt) count s !! k = Some x →
  trajectory Lm (feuler_step Lm δt) count s !! S k = Some y →
  x <= y.
Proof.
  intros Hs Hx Hy. pose proof (L_length n Lm L_shape) as HL.
  unfold trajectory in *. rewrite list_lookup_fmap in Hx, Hy.
  destruct (seq 0 count !! k) as [k' |] eqn:Hk; [| done].
  destruct (seq 0 count !! S k) as [k'' |] eqn:Hk'; [| done].
  apply lookup_seq in Hk as [-> _]. apply lookup_seq in Hk' as [-> _].
  cbn [fmap option_fmap option_map] in Hx, Hy.
  apply (inj Some) in Hx. apply (inj Some) in Hy. subst x y.
  apply feuler_energy_le.
  apply (shaped_iter n (feuler_step Lm δt) (S k) s); [| done].
  intros s'. by apply shaped_feuler_step.
Qed.

Lemma trajectory_beuler_mono count s k x y :
  shaped n s →
  trajectory Lm (beuler_step n Lm δt) count s !! k = Some x →
  trajectory Lm (beuler_step n Lm δt) count s !! S k = Some y →
  y <= x.
Proof.
  intros Hs Hx Hy. pose proof (L_length n Lm L_shape) as HL.
  unfold trajectory in *. rewrite list_lookup_fmap in Hx, Hy.
  destruct (seq 0 count !! k) as [k' |] eqn:Hk; [| done].
  destruct (seq 0 count !! S k) as [k'' |] eqn:Hk'; [| done].
  apply lookup_seq in Hk as [-> _]. apply lookup_seq in Hk' as [-> _].
  cbn [fmap option_fmap option_map] in Hx, Hy.
  apply (inj Some) in Hx. apply (inj Some) in Hy. subst x y.
  apply beuler_energy_le.
  apply (shaped_iter n (beuler_step n Lm δt) (S k) s); [| done].
  intros s'. by apply shaped_beuler_step.
Qed.

(** Over a horizon of at least one step. *)
Lemma horizon_feuler k s :
  shaped n s → δt ≠ 0 → moving n Lm s →
  energy Lm s < energy Lm (Nat.iter (S k) (feuler_step Lm δt) s).
Proof.
  intros Hs Hδt Hm. pose proof (L_length n Lm L_shape) as HL.
  rewrite Nat.iter_succ_r.
  eapply Qclt_le_trans; [by apply feuler_energy_lt |].
  apply energy_iter_feuler. by apply shaped_feuler_step.
Qed.

Lemma horizon_beuler k s :
  shaped n s → δt ≠ 0 → moving n Lm s →
  energy Lm (Nat.iter (S k) (beuler_step n Lm δt) s) < energy Lm s.
Proof.
  intros Hs Hδt Hm. pose proof (L_length n Lm L_shape) as HL.
  rewrite Nat.iter_succ_r.
  eapply Qcle_lt_trans; [| by apply beuler_energy_lt].
  apply energy_iter_beuler. by apply shaped_beuler_step.
Qed.

End EulerEnergy.

(** ** The two Euler rules undo each other *)

Section VectorDifferences.
Implicit Types (x y : vec Qc) (c : Qc).

Lemma vsub_diag x : vsub x x = zeros (length x).
Proof.
  induction x as [| a x IH]; [done |].
  change (vsub (a :: x) (a :: x)) with ((a - a) :: vsub x x).
  rewrite IH. cbn [length]. change (zeros (S (length x))) with (0 :: zeros (length x)).
  f_equal. ring.
Qed.

Lemma vsub_zeros_eq x y :
  length x = length y → vsub x y = zeros (length x) → x = y.
Proof.
  revert y. induction x as [| a x IH]; intros [| b y] Hlen Heq; try done.
  change (vsub (a :: x) (b :: y)) with ((a - b) :: vsub x y) in Heq.
  cbn [length] in *.
  change (zeros (S (length x))) with ((0 : Qc) :: zeros (length x)) in Heq.
  pose proof (f_equal head Heq) as Hhead. cbn [head] in Hhead.
  apply (inj Some) in Hhead.
  pose proof (f_equal tail Heq) as Htail. cbn [tail] in Htail.
  f_equal.
  - replace a with ((a - b) + b) by ring. rewrite Hhead. ring.
  - apply IH; [lia | done].
Qed.

End VectorDifferences.

Section EulerInverse.
Context `{DirectSolver Qc}.
Variable n : nat.
Variable Lm : matrix Qc.
Hypothesis L_shape : square n Lm.
Hypothesis L_nonneg : ∀ x, 0 <= vdot (matvec Lm x) x.
Hypothesis solver_ok : solver_shape.
Hypothesis solver_solves : solver_exact n.
Implicit Types (q p x y : vec Qc) (δt : Qc).

Lemma beuler_system_unique δt x y :
  length x = n → length y = n →
  vadd x (vscale (δt * δt) (matvec Lm x)) = vadd y (vscale (δt * δt) (matvec Lm y)) →
  x = y.
Proof.
  intros Hx Hy Heq.
  rewrite <- !(beuler_system_apply n Lm L_shape) in Heq by done.
  assert (length (vsub x y) = n) as Hd by (rewrite length_vsub; lia).
  apply vsub_zeros_eq; [lia |].
  rewrite Hx. apply (beuler_system_nonsingular n Lm L_shape L_nonneg δt); [done |].
  rewrite <- (beuler_system_apply n Lm L_shape) by done.
  rewrite matvec_vsub by lia. rewrite Heq, vsub_diag, length_matvec.
  f_equal. apply (beuler_system_square n Lm L_shape δt).
Qed.

(** A forward-Euler step with [- δt] after a backward-Euler step with
    [δt]. *)
Lemma feuler_after_beuler δt q p :
  length q = n → length p = n →
  feuler_step Lm (- δt) (beuler_step n Lm δt (q, p)) = (q, p).
Proof.
  intros Hq Hp. pose proof (L_length n Lm L_shape) as HL.
  destruct (beuler_step_solves n Lm L_shape L_nonneg solver_ok solver_solves
              δt q p Hq Hp) as [Hp' Heq].
  unfold beuler_step in *. cbn [fst snd] in *.
  set (p' := linsolve _ _) in *.
  unfold feuler_step. cbn [fst snd]. f_equal.
  - apply vadd_vscale_undo. lia.
  - apply beuler_equation_iff in Heq; [| rewrite ?length_matvec; lia ..].
    rewrite <- matvec_vscale, <- matvec_vadd in Heq
      by (rewrite length_vscale; lia).
    remember (matvec Lm (vadd q (vscale δt p'))) as g eqn:Hg.
    assert (length g = n) as Hlg by (subst g; by rewrite length_matvec).
    rewrite Heq at 1. apply vsub_vscale_undo. lia.
Qed.

(** A backward-Euler step with [- δt] after a forward-Euler step with
    [δt]. *)
Lemma beuler_after_feuler δt q p :
  length q = n → length p = n →
  beuler_step n Lm (- δt) (feuler_step Lm δt (q, p)) = (q, p).
Proof.
  intros Hq Hp. pose proof (L_length n Lm L_shape) as HL.
  set (s := feuler_step Lm δt (q, p)).
  assert (length s.1 = n ∧ length s.2 = n) as [Hq1 Hp1].
  { apply (shaped_feuler_step n Lm HL δt (q, p)). by split. }
  destruct (beuler_step_solves n Lm L_shape L_nonneg solver_ok solver_solves
              (- δt) s.1 s.2 Hq1 Hp1) as [Hp' Heq].
  rewrite <- surjective_pairing in Hp', Heq.
  assert ((beuler_step n Lm (- δt) s).2 = p) as Hp2.
  { apply (beuler_system_unique (- δt)); [done | done |].
    rewrite Heq. symmetry.
    apply beuler_equation_iff; [rewrite ?length_matvec; lia ..|].
    unfold s, feuler_step. cbn [fst snd].
    rewrite matvec_vadd, matvec_vscale by (rewrite length_vscale; lia).
    rewrite vadd_vscale_undo by (rewrite !length_matvec; lia).
    symmetry. apply vsub_vscale_undo. rewrite length_matvec. lia. }
  unfold beuler_step in *. cbn [fst snd] in Hp2 |- *.
  rewrite Hp2. f_equal.
  unfold s, feuler_step. cbn [fst snd]. apply vadd_vscale_undo. lia.
Qed.

End EulerInverse.

(** ** States on which no force acts *)

Section EulerStill.
Context `{DirectSolver Qc}.
Variable n : nat.
Variable Lm : matrix Qc.
Hypothesis L_shape : square n Lm.
Hypothesis L_symm : ∀ x y, vdot (matvec Lm x) y = vdot x (matvec Lm y).
Hypothesis L_nonneg : ∀ x, 0 <= vdot (matvec Lm x) x.
Hypothesis solver_ok : solver_shape.
Hypothesis solver_solves : solver_exact n.
Variable δt : Qc.
Implicit Types (q p : vec Qc) (s : vec Qc * vec Qc).

Lemma matvec_drift_still q p :
  length q = n → length p = n →
  matvec Lm q = zeros n → matvec Lm p = zeros n →
  matvec Lm (vadd q (vscale δt p)) = zeros n.
Proof.
  intros Hq Hp HLq HLp.
  rewrite matvec_vadd, matvec_vscale by (rewrite length_vscale; lia).
  rewrite HLq, HLp, vscale_zeros. apply vadd_zeros_r, length_zeros.
Qed.

(** With [L q = 0] and [L p = 0], a forward-Euler step keeps [p], both
    conditions and the energy. *)
Lemma still_feuler_step s :
  shaped n s → matvec Lm s.1 = zeros n → matvec Lm s.2 = zeros n →
  shaped n (feuler_step Lm δt s)
  ∧ matvec Lm (feuler_step Lm δt s).1 = zeros n
  ∧ matvec Lm (feuler_step Lm δt s).2 = zeros n
  ∧ energy Lm (feuler_step Lm δt s) = energy Lm s.
Proof.
  destruct s as [q p]. intros [Hq Hp] HLq HLp. cbn [fst snd] in *.
  pose proof (L_length n Lm L_shape) as HL.
  split; [by apply shaped_feuler_step |].
  split; [by apply matvec_drift_still |].
  split.
  - unfold feuler_step. cbn [fst snd].
    by rewrite HLq, vscale_zeros, vsub_zeros_r.
  - rewrite (energy_feuler_step n Lm L_shape L_symm) by done.
    rewrite HLq, HLp, !vdot_zeros_l. ring.
Qed.

(** The same for a backward-Euler step: its system has the solution
    [p], and only that one. *)
Lemma still_beuler_step s :
  shaped n s → matvec Lm s.1 = zeros n → matvec Lm s.2 = zeros n →
  shaped n (beuler_step n Lm δt s)
  ∧ matvec Lm (beuler_step n Lm δt s).1 = zeros n
  ∧ matvec Lm (beuler_step n Lm δt s).2 = zeros n
  ∧ energy Lm (beuler_step n Lm δt s) = energy Lm s.
Proof.
  destruct s as [q p]. intros [Hq Hp] HLq HLp. cbn [fst snd] in *.
  pose proof (L_length n Lm L_shape) as HL.
  destruct (beuler_step_solves n Lm L_shape L_nonneg solver_ok solver_solves
              δt q p Hq Hp) as [Hp' Heq].
  assert ((beuler_step n Lm δt (q, p)).2 = p) as Hsame.
  { apply (beuler_system_unique n Lm L_shape L_nonneg δt); [done | done |].
    rewrite Heq, HLq, HLp, !vscale_zeros.
    by rewrite vsub_zeros_r, vadd_zeros_r. }
  assert (beuler_step n Lm δt (q, p) = (vadd q (vscale δt p), p)) as Hstep.
  { unfold beuler_step in *. cbn [fst snd] in *. by rewrite Hsame. }
  split; [by apply shaped_beuler_step |].
  rewrite Hstep. cbn [fst snd].
  split; [by apply matvec_drift_still |]. split; [done |].
  symmetry.
  rewrite (energy_beuler_step n Lm L_shape L_symm δt q p p) by
    (done || by rewrite HLq, HLp, !vscale_zeros, vsub_zeros_r, vadd_zeros_r).
  rewrite matvec_drift_still, HLp, !vdot_zeros_l by done. ring.
Qed.

Lemma still_iter (step : vec Qc * vec Qc → vec Qc * vec Qc) k s :
  (∀ s', shaped n s' → matvec Lm s'.1 = zeros n → matvec Lm s'.2 = zeros n →
     shaped n (step s')
     ∧ matvec Lm (step s').1 = zeros n
     ∧ matvec Lm (step s').2 = zeros n
     ∧ energy Lm (step s') = energy Lm s') →
  shaped n s → matvec Lm s.1 = zeros n → matvec Lm s.2 = zeros n →
  shaped n (Nat.iter k step s)
  ∧ matvec Lm (Nat.iter k step s).1 = zeros n
  ∧ matvec Lm (Nat.iter k step s).2 = zeros n
  ∧ energy Lm (Nat.iter k step s) = energy Lm s.
Proof.
  intros Hstep Hs HLq HLp. induction k as [| k (IHs & IHq & IHp & IHe)]; [done |].
  change (Nat.iter (S k) step s) with (step (Nat.iter k step s)).
  destruct (Hstep _ IHs IHq IHp) as (Hs' & Hq' & Hp' & He').
  split; [exact Hs' |]. split; [exact Hq' |]. split; [exact Hp' |].
  by rewrite He'.
Qed.

End EulerStill.

(** ** The built operator *)

Section BuiltOperator.
Variable n : nat.
Variable Lm : matrix Qc.
Hypothesis L_is_built : L n = Ok Lm.

Lemma built_square : square n Lm.
Proof.
  destruct (L_built_inv n Lm L_is_built) as [_ ->].
  apply L_square, D_spec_square.
Qed.

Lemma built_symm x y : vdot (matvec Lm x) y = vdot x (matvec Lm y).
Proof.
  destruct (L_built_inv n Lm L_is_built) as [_ ->].
  apply L_sym, D_spec_square.
Qed.

Lemma built_nonneg x : 0 <= vdot (matvec Lm x) x.
Proof.
  destruct (L_built_inv n Lm L_is_built) as [_ ->].
  apply L_psd, D_spec_square.
Qed.

Lemma built_kernel x : vdot (matvec Lm x) x = 0 → matvec Lm x = zeros n.
Proof.
  destruct (L_built_inv n Lm L_is_built) as [_ ->].
  apply L_null, D_spec_square.
Qed.

End BuiltOperator.

(** ** Claims in exact arithmetic *)

Section ExactClaims.
Context `{DirectSolver Qc}.
Implicit Types (n : nat) (Lm : matrix Qc) (δt : Qc) (h : heap Qc)
  (q p : loc) (qv pv : vec Qc).

(** C2: in exact arithmetic the total energy does not decrease in a
    forward-Euler step and does not increase in a backward-Euler step, so
    the recorded forward-Euler energies are non-decreasing and the
    backward-Euler ones non-increasing; when [δt ≠ 0] and the initial
    state is moving ([L q ≠ 0] or [L p ≠ 0]) the last recorded energy is
    strictly above, respectively below, the initial energy; when
    [L q = 0] and [L p = 0] every recorded energy of the two rules is the
    initial energy. *)
Theorem euler_energy_monotone n Lm δt q0 p0 qv pv count h :
  L n = Ok Lm → solver_shape → solver_exact n →
  h !! q0 = Some qv → h !! p0 = Some pv →
  length qv = n → length pv = n →
  energy Lm (qv, pv) <= energy Lm (feuler_step Lm δt (qv, pv))
  ∧ energy Lm (beuler_step n Lm δt (qv, pv)) <= energy Lm (qv, pv)
  ∧ ∃ e h' tf tb,
      runs (integrate n Lm q0 p0 δt (Z.of_nat count)) h e h'
      ∧ h' !! energy_feuler e = Some tf
      ∧ h' !! energy_beuler e = Some tb
      ∧ (∀ k x y, tf !! k = Some x → tf !! S k = Some y → x <= y)
      ∧ (∀ k x y, tb !! k = Some x → tb !! S k = Some y → y <= x)
      ∧ (δt ≠ 0 → moving n Lm (qv, pv) →
         ∀ x, last tf = Some x → energy Lm (qv, pv) < x)
      ∧ (δt ≠ 0 → moving n Lm (qv, pv) →
         ∀ x, last tb = Some x → x < energy Lm (qv, pv))
      ∧ (matvec Lm qv = zeros n → matvec Lm pv = zeros n →
         ∀ x, x ∈ tf ++ tb → x = energy Lm (qv, pv)).
Proof.
  intros HL Hshape Hexact Hq0 Hp0 Hlq Hlp.
  pose proof (built_square n Lm HL) as Hsq.
  pose proof (built_symm n Lm HL) as Hsym.
  pose proof (built_nonneg n Lm HL) as Hpos.
  pose proof (built_kernel n Lm HL) as Hker.
  assert (shaped n (qv, pv)) as Hs by done.
  split; [by apply (feuler_energy_le n Lm) |].
  split; [by apply (beuler_energy_le n Lm) |].
  destruct (runs_integrate n Lm (L_length n Lm Hsq) Hshape δt (Qc_pow2 δt) count (length h)
              (qv, pv) q0 p0 h) as (e & h' & Hrun & Hinv & _); [done.. |].
  destruct Hinv as (pb & -> & _ & _ & _ & _ & _ & _ & _ & _ & Hef & Heb).
  rewrite Nat.sub_diag in Hef, Heb. cbn [zeros replicate] in Hef, Heb.
  rewrite app_nil_r, take_ge in Hef, Heb
    by (unfold trajectory; rewrite length_fmap, length_seq; lia).
  eexists _, h', _, _. split; [exact Hrun |].
  split; [exact Hef |]. split; [exact Heb |].
  split; [intros k x y; by apply (trajectory_feuler_mono n Lm) |].
  split; [intros k x y; by apply (trajectory_beuler_mono n Lm) |].
  split; [| split]; [| | intros HLq HLp x Hx];
    [intros Hδt Hmove x Hlast; rewrite last_lookup in Hlast;
     unfold trajectory in Hlast;
     rewrite length_fmap, length_seq, list_lookup_fmap in Hlast;
     (destruct count as [| k]; [done |]);
     rewrite lookup_seq_lt in Hlast by lia;
     cbn [fmap option_fmap option_map Nat.pred Nat.add] in Hlast;
     apply (inj Some) in Hlast; subst x .. |].
  - by apply (horizon_feuler n Lm).
  - by apply (horizon_beuler n Lm).
  - apply elem_of_app in Hx as [Hx | Hx];
      apply elem_of_trajectory in Hx as (k & _ & ->).
    + apply (still_iter n Lm (feuler_step Lm δt) (S k) (qv, pv)); try done.
      intros s'. by apply (still_feuler_step n Lm).
    + apply (still_iter n Lm (beuler_step n Lm δt) (S k) (qv, pv)); try done.
      intros s'. by apply (still_beuler_step n Lm).
Qed.

(** C3: the backward-Euler lines bind [p_beuler] to the solution of
    [(I + δt² L) x = p - δt L q] and add [δt] times it to [q]; the result
    satisfies the implicit-Euler equations, and a vector solves the
    linear system exactly when it satisfies the momentum equation. *)
Theorem beuler_update_implicit n Lm δt q p qv pv h :
  L n = Ok Lm → solver_shape → solver_exact n →
  h !! q = Some qv → h !! p = Some pv →
  length qv = n → length pv = n →
  ∃ p' h' q_new p_new,
    runs (beuler_update n Lm δt q p) h p' h'
    ∧ h' !! q = Some q_new ∧ h' !! p' = Some p_new
    ∧ p_new = linsolve (madd (eye n) (mscale (δt * δt) Lm))
                       (vsub pv (vscale δt (matvec Lm qv)))
    ∧ q_new = vadd qv (vscale δt p_new)
    ∧ p_new = vsub pv (vscale δt (matvec Lm q_new))
    ∧ ∀ x, length x = n →
        matvec (madd (eye n) (mscale (δt * δt) Lm)) x
        = vsub pv (vscale δt (matvec Lm qv))
        ↔ x = vsub pv (vscale δt (matvec Lm (vadd qv (vscale δt x)))).
Proof.
  intros HL Hshape Hexact Hq Hp Hlq Hlp.
  pose proof (built_square n Lm HL) as Hsq.
  pose proof (built_symm n Lm HL) as Hsym.
  pose proof (built_nonneg n Lm HL) as Hpos.
  pose proof (L_length n Lm Hsq) as Hrows.
  pose proof (lookup_lt_Some _ _ _ Hq) as Hq_lt.
  assert (∀ x, length x = n →
            matvec (madd (eye n) (mscale (δt * δt) Lm)) x
            = vsub pv (vscale δt (matvec Lm qv))
            ↔ x = vsub pv (vscale δt (matvec Lm (vadd qv (vscale δt x)))))
    as Hiff.
  { intros x Hx. rewrite (beuler_system_apply n Lm Hsq) by done.
    rewrite matvec_vadd, matvec_vscale by len.
    apply beuler_equation_iff; len. }
  destruct (beuler_step_solves n Lm Hsq Hpos Hshape Hexact δt qv pv Hlq Hlp)
    as [Hp' Heq].
  eexists _, _, _, _.
  split; [by apply (runs_beuler_update n Lm Hrows δt q p qv pv _ Hshape (Qc_pow2 δt)) |].
  split; [lookup |]. split; [lookup |].
  split; [unfold beuler_step; cbn [fst snd]; by rewrite matvec_mscale |].
  split; [done |].
  split; [| exact Hiff].
  apply Hiff; [done |].
  by rewrite (beuler_system_apply n Lm Hsq).
Qed.

(** C10: in exact arithmetic, running the Verlet lines with time step
    [- δt] after running them with [δt] restores both arrays exactly. *)
Theorem verlet_update_reversible n Lm δt q p qv pv h :
  length Lm = n →
  h !! q = Some qv → h !! p = Some pv → q ≠ p →
  length qv = n → length pv = n →
  ∃ h1 h2,
    runs (verlet_update n Lm δt q p) h () h1
    ∧ runs (verlet_update n Lm (opp δt) q p) h1 () h2
    ∧ h2 !! q = Some qv ∧ h2 !! p = Some pv.
Proof.
  intros HL Hq Hp Hne Hlq Hlp.
  pose proof (lookup_lt_Some _ _ _ Hq) as Hq_lt.
  pose proof (lookup_lt_Some _ _ _ Hp) as Hp_lt.
  destruct (shaped_verlet_step n Lm HL δt (qv, pv)) as [Hlq' Hlp']; [done |].
  eexists _, _.
  split; [by apply (runs_verlet_update n Lm HL δt q p qv pv) |].
  split.
  { eapply (runs_verlet_update n Lm HL); [lookup | lookup | done | done | done]. }
  rewrite <- surjective_pairing.
  change (opp δt) with (- δt).
  rewrite (verlet_step_reverse n Lm δt qv pv) by done.
  split; lookup.
Qed.

End ExactClaims.

(** C5: for every [n ≥ 1] the second cell builds the difference matrix
    of the specification and [L = Dᵀ D]; for [n = 2] that is
    [[1, -1], [-1, 1]]. *)
Theorem stiffness_operator_built n :
  (0 < n)%nat →
  D n = Ok (D_spec n)
  ∧ L n = Ok (mmul n (transpose n (D_spec n)) (D_spec n))
  ∧ L 2 = Ok [[1; - 1]; [- 1; 1]].
Proof.
  intros Hn. split; [by apply D_built |]. split; [by apply L_built |].
  vm_compute. reflexivity.
Qed.

Section ExactDiagnostics.
Implicit Types (x y a : Qc) (t : vec Qc).

Lemma Qc_leb_le x y : Qc_leb x y = true ↔ x <= y.
Proof. apply Qle_bool_iff. Qed.

Lemma maximum_cases x y :
  (maximum x y = x ∨ maximum x y = y) ∧ x <= maximum x y ∧ y <= maximum x y.
Proof.
  unfold maximum. cbn. destruct (Qc_leb x y) eqn:Hle.
  - apply Qc_leb_le in Hle. repeat split; auto using Qcle_refl.
  - assert (¬ x <= y) as Hn by (rewrite <- Qc_leb_le; congruence).
    apply Qcnot_le_lt, Qclt_le_weak in Hn. repeat split; auto using Qcle_refl.
Qed.

Lemma minimum_cases x y :
  (minimum x y = x ∨ minimum x y = y) ∧ minimum x y <= x ∧ minimum x y <= y.
Proof.
  unfold minimum. cbn. destruct (Qc_leb x y) eqn:Hle.
  - apply Qc_leb_le in Hle. repeat split; auto using Qcle_refl.
  - assert (¬ x <= y) as Hn by (rewrite <- Qc_leb_le; congruence).
    apply Qcnot_le_lt, Qclt_le_weak in Hn. repeat split; auto using Qcle_refl.
Qed.

Lemma foldl_maximum_spec a t :
  foldl maximum a t ∈ a :: t ∧ ∀ x, x ∈ a :: t → x <= foldl maximum a t.
Proof.
  revert a. induction t as [| b t IH]; intros a; cbn [foldl].
  - split; [left |]. intros x ->%list_elem_of_singleton. apply Qcle_refl.
  - destruct (IH (maximum a b)) as [Hin Hle].
    destruct (maximum_cases a b) as (Hcase & Ha & Hb).
    split.
    + apply elem_of_cons in Hin as [-> | Hin].
      * destruct Hcase as [-> | ->]; [left | right; left].
      * right; by right.
    + intros x Hx. apply elem_of_cons in Hx as [-> | Hx].
      * eapply Qcle_trans; [exact Ha |]. apply Hle. left.
      * apply elem_of_cons in Hx as [-> | Hx].
        -- eapply Qcle_trans; [exact Hb |]. apply Hle. left.
        -- apply Hle. by right.
Qed.

Lemma foldl_minimum_spec a t :
  foldl minimum a t ∈ a :: t ∧ ∀ x, x ∈ a :: t → foldl minimum a t <= x.
Proof.
  revert a. induction t as [| b t IH]; intros a; cbn [foldl].
  - split; [left |]. intros x ->%list_elem_of_singleton. apply Qcle_refl.
  - destruct (IH (minimum a b)) as [Hin Hle].
    destruct (minimum_cases a b) as (Hcase & Ha & Hb).
    split.
    + apply elem_of_cons in Hin as [-> | Hin].
      * destruct Hcase as [-> | ->]; [left | right; left].
      * right; by right.
    + intros x Hx. apply elem_of_cons in Hx as [-> | Hx].
      * eapply Qcle_trans; [| exact Ha]. apply Hle. left.
      * apply elem_of_cons in Hx as [-> | Hx].
        -- eapply Qcle_trans; [| exact Hb]. apply Hle. left.
        -- apply Hle. by right.
Qed.

End ExactDiagnostics.

(** C7: on a non-empty array the printed expression is the largest entry
    minus the smallest, over the sum divided by the number of entries,
    whatever the mean is; on an empty array it raises the [ValueError] of
    [np.max]. *)
Theorem conservation_error_spread (a : Qc) (t : vec Qc) :
  conservation_error (@nil Qc) = Raise ValueError
  ∧ ∃ hi lo,
      hi ∈ a :: t ∧ lo ∈ a :: t
      ∧ (∀ x, x ∈ a :: t → lo <= x ∧ x <= hi)
      ∧ conservation_error (a :: t)
        = Ok ((hi - lo) / (vsum (a :: t) / of_int (Z.of_nat (length (a :: t))))).
Proof.
  split; [reflexivity |].
  destruct (foldl_maximum_spec a t) as [Hhi_in Hhi].
  destruct (foldl_minimum_spec a t) as [Hlo_in Hlo].
  exists (foldl maximum a t), (foldl minimum a t).
  repeat split; auto.
Qed.

Section ExactNumSteps.

Lemma Qc_of_int_le (k : Z) (x : Qc) : (inject_Z k <= x)%Q → of_int k <= x.
Proof.
  intros Hle. unfold Qcle. cbn. by rewrite Qred_correct.
Qed.

Lemma Qc_lt_of_int (k : Z) (x : Qc) : (x < inject_Z k)%Q → x < of_int k.
Proof.
  intros Hlt. unfold Qclt. cbn. by rewrite Qred_correct.
Qed.

Lemma Qc_inv_nonneg (x : Qc) : 0 <= x → 0 <= / x.
Proof.
  unfold Qcle, Qcinv. intros Hx.
  change (this (Q2Qc (/ x))) with (Qred (/ x)). rewrite Qred_correct.
  by apply Qinv_le_0_compat.
Qed.

Lemma Qc_trunc_floor (x : Qc) : 0 <= x → Qc_trunc x = Qfloor x.
Proof.
  intros Hx. unfold Qc_trunc, Qfloor. destruct x as [[num den] Hcanon].
  cbn [this Qnum Qden].
  assert (0 <= num)%Z as Hnum.
  { unfold Qcle in Hx. change (this 0) with (0 # 1)%Q in Hx.
    unfold Qle in Hx. cbn in Hx. lia. }
  apply Z.quot_div_nonneg; [done | reflexivity].
Qed.

End ExactNumSteps.

(** ** Truncation of a binary64 number *)

Section BinaryTruncation.

Lemma Z_quot_ratio (a c : Z) (b d : positive) :
  (a * Zpos d = c * Zpos b)%Z → Z.quot a (Zpos b) = Z.quot c (Zpos d).
Proof.
  assert (∀ a c b d, (0 <= a)%Z → (a * Zpos d = c * Zpos b)%Z →
            Z.quot a (Zpos b) = Z.quot c (Zpos d)) as Hnonneg.
  { clear. intros a c b d Ha Heq.
    assert (0 <= c)%Z as Hc by nia.
    rewrite !Z.quot_div_nonneg by lia.
    change (a / Zpos b)%Z with (Qfloor (a # b)).
    change (c / Zpos d)%Z with (Qfloor (c # d)).
    apply Qfloor_comp. unfold Qeq. cbn [Qnum Qden]. exact Heq. }
  intros Heq. destruct (Z.le_gt_cases 0 a) as [Ha | Ha]; [by apply Hnonneg |].
  replace a with (- - a)%Z by lia. replace c with (- - c)%Z by lia.
  rewrite !(Z.quot_opp_l (- _)) by lia. f_equal.
  apply Hnonneg; lia.
Qed.

(** Truncation does not depend on the fraction that stands for the
    number. *)
Lemma Qc_trunc_Q2Qc (v : Q) :
  Qc_trunc (Q2Qc v) = Z.quot (Qnum v) (Zpos (Qden v)).
Proof.
  unfold Qc_trunc. cbn [this Q2Qc].
  apply Z_quot_ratio. apply (Qred_correct v).
Qed.

(** Python's [int] of a finite binary64 number is the truncation of
    the rational it stands for. *)
Lemma int_of_value (x : float) (v : Q) :
  F64.value x = Some v → F64.int_of x = Ok (Qc_trunc (Q2Qc v)).
Proof.
  unfold F64.value, F64.int_of.
  destruct (Prim2SF x) as [s | s | | s m e]; try done.
  - by intros [= <-].
  - intros [= <-]. f_equal. rewrite Qc_trunc_Q2Qc.
    destruct e as [| k | k]; cbn [Qnum Qden inject_Z].
    + rewrite Z.quot_1_r. by destruct s.
    + rewrite Z.quot_1_r, Z.shiftl_mul_pow2 by lia. destruct s; lia.
    + rewrite Z.shiftr_div_pow2 by lia.
      rewrite Pos2Z.inj_pow.
      destruct s.
      * change (Z.neg m) with (- Z.pos m)%Z.
        rewrite Z.quot_opp_l by lia. f_equal.
        symmetry. apply Z.quot_div_nonneg; lia.
      * symmetry. apply Z.quot_div_nonneg; lia.
Qed.

(** On an infinity or NaN it raises. *)
Lemma int_of_no_value (x : float) :
  F64.value x = None →
  F64.int_of x = Raise OverflowError ∨ F64.int_of x = Raise ValueError.
Proof.
  unfold F64.value, F64.int_of.
  destruct (Prim2SF x) as [s | s | | s m e]; try done; auto.
Qed.

End BinaryTruncation.

(** C9: the number of steps is Python's [int] of the quotient
    [2 * np.pi / δt], the quotient truncated toward zero. In exact
    arithmetic, for [δt > 0], that is the largest integer that does not
    exceed the quotient. In binary64 the quotient is rounded before it is
    truncated: a zero [δt] raises [ZeroDivisionError], otherwise the
    result is the truncation of the rational that the rounded quotient
    stands for, and an infinite or NaN quotient raises.
    The rounded quotient can reach the next integer (21 steps where the
    exact quotient, for the same [δt], is below 21), and for the smallest
    positive [δt] the quotient is infinite and the line raises
    [OverflowError]. *)
Theorem num_steps_floor :
  (∀ δt : Qc, 0 < δt →
     ∃ k, num_steps δt = Ok k
          ∧ of_int k <= two [*] np_pi [/] δt
          ∧ two [*] np_pi [/] δt < of_int (k + 1))
  ∧ (∀ δt : float, is_zero δt = true → num_steps δt = Raise ZeroDivisionError)
  ∧ (∀ (δt : float) (v : Q),
       is_zero δt = false →
       F64.value (two [*] np_pi [/] δt) = Some v →
       num_steps δt = Ok (Qc_trunc (Q2Qc v)))
  ∧ (∀ δt : float,
       is_zero δt = false →
       F64.value (two [*] np_pi [/] δt) = None →
       num_steps δt = Raise OverflowError ∨ num_steps δt = Raise ValueError)
  ∧ (∃ v, F64.value 0x1.32614d27d162bp-2%float = Some v
          ∧ num_steps (Q2Qc v) = Ok 20%Z
          ∧ num_steps 0x1.32614d27d162bp-2%float = Ok 21%Z)
  ∧ num_steps 0x1p-1074%float = Raise OverflowError.
Proof.
  split; [| split; [| split; [| split; [| split]]]].
  - intros δt Hδt. unfold num_steps.
    assert (is_zero δt = false) as ->.
    { cbn. destruct (Qc_eq_bool δt 0) eqn:Heq; [| done].
      apply Qc_eq_bool_correct in Heq. subst. by apply Qclt_not_eq in Hδt. }
    set (x := two [*] np_pi [/] δt).
    assert (0 <= x) as Hx.
    { unfold x. qc. unfold Qcdiv. apply Qc_mul_nonneg; [done |].
      by apply Qc_inv_nonneg, Qclt_le_weak. }
    exists (Qc_trunc x). split; [done |].
    rewrite Qc_trunc_floor by done. split.
    + apply Qc_of_int_le, Qfloor_le.
    + apply Qc_lt_of_int, Qlt_floor.
  - intros δt Hzero. unfold num_steps. by rewrite Hzero.
  - intros δt v Hzero Hv. unfold num_steps. rewrite Hzero.
    by apply int_of_value.
  - intros δt Hzero Hv. unfold num_steps. rewrite Hzero.
    by apply int_of_no_value.
  - eexists. split; [vm_compute; reflexivity |].
    split; vm_compute; reflexivity.
  - vm_compute. reflexivity.
Qed.

(** ** Concrete runs *)

Lemma verlet_update_three_stage_run :
  ∃ h', runs (verlet_update 2 Run.L2 Run.δt0 0 1) Run.store0 () h'
        ∧ h' !! 0%nat = Some (verlet_step Run.L2 Run.δt0 ([1; 2], [0; 0])).1
        ∧ h' !! 1%nat = Some (verlet_step Run.L2 Run.δt0 ([1; 2], [0; 0])).2.
Proof.
  destruct (verlet_update_three_stage 2 Run.L2 eq_refl Run.δt0 0 1 [1; 2] [0; 0]
              Run.store0 eq_refl eq_refl ltac:(lia) eq_refl eq_refl)
    as (h' & Hrun & Hq & Hp & _).
  exists h'. repeat split; assumption.
Defined.

Lemma feuler_update_old_state_run :
  ∃ h', runs (feuler_update 2 Run.L2 Run.δt0 0 1) Run.store0 () h'
        ∧ h' !! 0%nat = Some (vadd [1; 2] (vscale Run.δt0 [0; 0]))
        ∧ h' !! 1%nat = Some (vsub [0; 0] (vscale Run.δt0 (matvec Run.L2 [1; 2]))).
Proof.
  destruct (feuler_update_old_state 2 Run.L2 eq_refl Run.δt0 0 1 [1; 2] [0; 0]
              Run.store0 eq_refl eq_refl ltac:(lia) eq_refl eq_refl)
    as (h' & Hrun & Hq & Hp & _).
  exists h'. repeat split; assumption.
Defined.



Lemma L2_built : L 2 = Ok Run.L2.
Proof. vm_compute. reflexivity. Defined.

Lemma euler_energy_monotone_run :
  energy Run.L2 ([1; 2], [0; 0])
  <= energy Run.L2 (feuler_step Run.L2 Run.δt0 ([1; 2], [0; 0]))
  ∧ energy Run.L2 (beuler_step (H0 := cramer2) 2 Run.L2 Run.δt0 ([1; 2], [0; 0]))
    <= energy Run.L2 ([1; 2], [0; 0]).
Proof.
  destruct (euler_energy_monotone (H := cramer2) 2 Run.L2 Run.δt0 0 1 [1; 2] [0; 0] 3
              Run.store0 L2_built cramer2_shape cramer2_exact
              eq_refl eq_refl eq_refl eq_refl) as (Hf & Hb & _).
  split; assumption.
Defined.

Lemma beuler_update_implicit_run :
  ∃ p' h' q_new p_new,
    runs (beuler_update (H0 := cramer2) 2 Run.L2 Run.δt0 0 1) Run.store0 p' h'
    ∧ h' !! 0%nat = Some q_new ∧ h' !! p' = Some p_new
    ∧ q_new = vadd [1; 2] (vscale Run.δt0 p_new)
    ∧ p_new = vsub [0; 0] (vscale Run.δt0 (matvec Run.L2 q_new)).
Proof.
  destruct (beuler_update_implicit (H := cramer2) 2 Run.L2 Run.δt0 0 1 [1; 2] [0; 0]
              Run.store0 L2_built cramer2_shape cramer2_exact
              eq_refl eq_refl eq_refl eq_refl)
    as (p' & h' & q_new & p_new & Hrun & Hq & Hp & _ & Hqn & Hpn & _).
  exists p', h', q_new, p_new. repeat split; assumption.
Defined.

Lemma verlet_update_reversible_run :
  ∃ h1 h2,
    runs (verlet_update 2 Run.L2 Run.δt0 0 1) Run.store0 () h1
    ∧ runs (verlet_update 2 Run.L2 (opp Run.δt0) 0 1) h1 () h2
    ∧ h2 !! 0%nat = Some [1; 2] ∧ h2 !! 1%nat = Some [0; 0].
Proof.
  apply (verlet_update_reversible 2 Run.L2 Run.δt0 0 1 [1; 2] [0; 0] Run.store0
           eq_refl eq_refl eq_refl ltac:(lia) eq_refl eq_refl).
Defined.

Lemma stiffness_operator_built_run :
  D 3 = Ok (D_spec 3)
  ∧ L 3 = Ok (mmul 3 (transpose 3 (D_spec 3)) (D_spec 3))
  ∧ L 2 = Ok [[1; - 1]; [- 1; 1]].
Proof. apply (stiffness_operator_built 3). lia. Defined.

Lemma num_steps_floor_run :
  ∃ k, num_steps (Q2Qc (1 # 100)) = Ok k
       ∧ of_int k <= two [*] np_pi [/] Q2Qc (1 # 100)
       ∧ two [*] np_pi [/] Q2Qc (1 # 100) < of_int (k + 1).
Proof.
  destruct num_steps_floor as [Hexact _].
  apply (Hexact (Q2Qc (1 # 100))). reflexivity.
Defined.

(** ** Where the specification and the code part *)

(** C2, as first stated: from the state at rest every recorded energy is
    0, so neither Euler trajectory is strictly monotone although
    [δt = 1 > 0]. *)
Lemma euler_energy_flat_at_rest :
  0 < (1 : Qc)
  ∧ this <$> trajectory Run.L2 (feuler_step Run.L2 1) 3 Run.rest = [0; 0; 0]%Q
  ∧ this <$> trajectory Run.L2 (beuler_step (H0 := cramer2) 2 Run.L2 1) 3 Run.rest
    = [0; 0; 0]%Q
  ∧ ¬ (energy Run.L2 Run.rest
       < energy Run.L2 (Nat.iter 3 (feuler_step Run.L2 1) Run.rest))
  ∧ ¬ (energy Run.L2 (Nat.iter 3 (beuler_step (H0 := cramer2) 2 Run.L2 1) Run.rest)
       < energy Run.L2 Run.rest).
Proof.
  split; [reflexivity |].
  split; [vm_compute; reflexivity |].
  split; [vm_compute; reflexivity |].
  split; intros Hlt; vm_compute in Hlt; discriminate.
Qed.


(** C7, as first stated: the energies [0, 0] have mean 0, and the printed
    expression returns: 0 in exact arithmetic, NaN in binary64. *)
Lemma conservation_error_zero_mean_returns :
  this (np_mean [0; 0]) = 0%Q
  ∧ this <$> [0; 0] = [0; 0]%Q
  ∧ is_ok (conservation_error ([0; 0] : vec Qc)) = true
  ∧ np_mean [0; 0]%float = 0%float
  ∧ conservation_error [0; 0]%float = Ok PrimFloat.nan.
Proof. repeat split; vm_compute; reflexivity. Qed.


(** C9, as first stated: for [δt = 1/10] the quotient is about 62.83; the
    code takes 62 steps, and 62 is not a nearest integer. *)
Lemma num_steps_truncates :
  0 < Q2Qc (1 # 10)
  ∧ num_steps (Q2Qc (1 # 10)) = Ok 62%Z
  ∧ ¬ nearest_integer (two [*] np_pi [/] Q2Qc (1 # 10)) 62
  ∧ num_steps 0x1.999999999999ap-4%float = Ok 62%Z.
Proof.
  split; [reflexivity |]. split; [reflexivity |].
  split; [| vm_compute; reflexivity].
  intros [_ Hle]. apply Hle. vm_compute. reflexivity.
Qed.

(** ** The whole notebook, run *)

(** Two oscillators from [q0 = [1, 2]] with [δt = 1], exactly: six steps,
    Verlet energies 1, 1/2, 1, 1/2, 1, 1/2, printed value 2/3. *)
Example notebook_exact_run :
  ∃ x h, notebook (H0 := cramer2) 2 [1; 2] 1 [] = Ok (x, h)
         ∧ this x = (2 # 3)%Q
         ∧ (map this <$> h !! 8%nat)
           = Some [1; 1 # 2; 1; 1 # 2; 1; 1 # 2]%Q.
Proof. eexists _, _. split; [vm_compute; reflexivity |]. split; reflexivity. Qed.

(** The same in binary64 with the notebook's [δt = 0.01]: 628 steps, and a
    conservation error below 0.05. *)
Example notebook_binary64_run :
  ∃ x h, notebook (H0 := cramer2) 2 [1; 2]%float 0x1.47ae147ae147bp-7%float []
         = Ok (x, h)
         ∧ (length <$> h !! 8%nat) = Some 628%nat
         ∧ PrimFloat.ltb x 0x1.999999999999ap-5%float = true.
Proof. eexists _, _. split; [vm_compute; reflexivity |]. split; reflexivity. Qed.

(** The copy in the forward-Euler lines matters: from [q = [1, 2]],
    [p = [1, 0]] and [δt = 1/2] the lines leave [p = [3/2, -1/2]], the kick
    at the old [q]; without the copy they would leave [[5/4, -1/4]], the
    kick at the new [q]. *)
Example feuler_snapshot_matters :
  (map this <$> (final (feuler_update 2 Run.L2 Run.δt0 0 1 [[1; 2]; [1; 0]])
                   ≫= (.!! 1%nat)))
  = Some [3 # 2; -1 # 2]%Q
  ∧ (map this <$> (final (feuler_update_aliased 2 Run.L2 Run.δt0 0 1 [[1; 2]; [1; 0]])
                     ≫= (.!! 1%nat)))
    = Some [5 # 4; -1 # 4]%Q.
Proof. split; reflexivity. Qed.

(** For [n = 0] the second cell raises at [diag[0] = 0]. *)
Example notebook_no_oscillator :
  notebook (A := Qc) (H0 := cramer2) 0 [] 1 [] = Raise IndexError.
Proof. reflexivity. Qed.

(** * Part III: further properties of the code *)

(** ** The difference matrix, applied *)

Section Differences.
Implicit Types (x y : vec Qc) (c : Qc) (n i j k m : nat).

Lemma length_tail_pred x : length (tail x) = Nat.pred (length x).
Proof. by destruct x. Qed.

Lemma D_row_zero n :
  (0 < n)%nat →
  (λ j, if Nat.eqb 0 j then (if Nat.eqb 0 0 then 0 else 1)
        else if Nat.eqb 0 (S j) then - 1 else 0) <$> seq 0 n
  = zeros (A := Qc) n.
Proof.
  intros Hn. apply list_eq. intros j. rewrite list_lookup_fmap.
  destruct (decide (j < n)%nat) as [Hj | Hj].
  - rewrite lookup_seq_lt by done. unfold zeros.
    rewrite lookup_replicate_2 by done. simpl.
    by destruct j.
  - rewrite lookup_seq_ge by lia. symmetry. apply lookup_ge_None.
    rewrite length_zeros. lia.
Qed.

Lemma D_row_split n i :
  (i < n)%nat →
  (λ j, if Nat.eqb (S i) j then (if Nat.eqb (S i) 0 then 0 else 1)
        else if Nat.eqb (S i) (S j) then - 1 else 0) <$> seq 0 (S n)
  = zeros i ++ (- 1) :: 1 :: zeros (n - S i).
Proof.
  intros Hi. apply list_eq. intros j. rewrite list_lookup_fmap.
  destruct (decide (j < S n)%nat) as [Hj | Hj].
  - rewrite lookup_seq_lt by done. cbn [fmap option_fmap option_map Nat.add].
    destruct (lt_eq_lt_dec j i) as [[Hlt | ->] | Hgt].
    + rewrite lookup_app_l by (rewrite length_zeros; lia).
      unfold zeros. rewrite lookup_replicate_2 by done.
      destruct (Nat.eqb_spec (S i) j); [lia |].
      destruct (Nat.eqb_spec (S i) (S j)); [lia | done].
    + rewrite lookup_app_r by (rewrite length_zeros; lia).
      rewrite length_zeros, Nat.sub_diag.
      destruct (Nat.eqb_spec (S i) i); [lia |].
      by rewrite Nat.eqb_refl.
    + rewrite lookup_app_r by (rewrite length_zeros; lia).
      rewrite length_zeros.
      destruct (decide (j = S i)) as [-> | Hne].
      * replace (S i - i)%nat with 1%nat by lia. by rewrite Nat.eqb_refl.
      * replace (j - i)%nat with (S (S (j - S (S i)))) by lia.
        change ((?u :: ?v :: ?l) !! S (S ?t)) with (l !! t). unfold zeros.
        rewrite lookup_replicate_2 by lia.
        destruct (Nat.eqb_spec (S i) j); [lia |].
        destruct (Nat.eqb_spec (S i) (S j)); [lia | done].
  - rewrite lookup_seq_ge by lia. symmetry. apply lookup_ge_None.
    rewrite length_app. cbn [length]. rewrite !length_zeros. lia.
Qed.

Lemma vdot_two_point k m c1 c2 x a b :
  x !! k = Some a → x !! S k = Some b →
  vdot (zeros k ++ c1 :: c2 :: zeros m) x = c1 * a + c2 * b.
Proof.
  intros Ha Hb.
  rewrite <- (take_drop_middle x k a Ha).
  rewrite (drop_S x b (S k) Hb).
  pose proof (lookup_lt_Some _ _ _ Ha) as Hk.
  rewrite vdot_app by (rewrite length_zeros, length_take; lia).
  rewrite !vdot_cons, !vdot_zeros_l. ring.
Qed.

(** [D] takes the differences of consecutive entries, after a 0 for the
    first row. *)
Lemma matvec_D_spec n x :
  length x = n → (0 < n)%nat → matvec (D_spec n) x = 0 :: diffs x.
Proof.
  intros Hlen Hn. apply list_eq. intros i.
  unfold matvec, D_spec. rewrite !list_lookup_fmap.
  destruct (decide (i < n)%nat) as [Hi | Hi].
  - rewrite lookup_seq_lt by done. cbn [fmap option_fmap option_map Nat.add].
    destruct i as [| i].
    + rewrite D_row_zero by done. by rewrite vdot_zeros_l.
    + destruct n as [| n]; [lia |].
      rewrite D_row_split by lia.
      destruct (lookup_lt_is_Some_2 x i) as [a Ha]; [lia |].
      destruct (lookup_lt_is_Some_2 x (S i)) as [b Hb]; [lia |].
      rewrite (vdot_two_point _ _ _ _ _ a b) by done.
      change ((?u :: ?l) !! S ?t) with (l !! t). unfold diffs, vsub.
      rewrite lookup_zip_with, lookup_tail, Hb. cbn. rewrite Ha. cbn.
      f_equal. qc. ring.
  - rewrite lookup_seq_ge by lia. cbn. symmetry. apply lookup_ge_None.
    cbn [length]. unfold diffs. rewrite length_vsub, length_tail_pred. lia.
Qed.

Lemma length_diffs x : length (diffs x) = Nat.pred (length x).
Proof. unfold diffs. rewrite length_vsub, length_tail_pred. lia. Qed.

Lemma diffs_cons2 a b x : diffs (a :: b :: x) = (b - a) :: diffs (b :: x).
Proof. reflexivity. Qed.

(** Adding one number to every entry changes no difference. *)
Lemma diffs_shift c x : diffs (vadd x (replicate (length x) c)) = diffs x.
Proof.
  induction x as [| a [| b x] IH]; [done | done |].
  change (vadd (a :: b :: x) (replicate (length (a :: b :: x)) c))
    with ((a + c) :: vadd (b :: x) (replicate (length (b :: x)) c)).
  change (vadd (b :: x) (replicate (length (b :: x)) c))
    with ((b + c) :: vadd x (replicate (length x) c)) in *.
  rewrite diffs_cons2, IH, diffs_cons2. f_equal. ring.
Qed.

(** The squared differences are at most four times the squares. *)
Lemma diffs_bound_head a x :
  vdot (diffs (a :: x)) (diffs (a :: x)) + (1 + 1) * (a * a)
  <= (1 + 1 + 1 + 1) * vdot (a :: x) (a :: x).
Proof.
  revert a. induction x as [| b x IH]; intros a.
  - cbn [diffs tail vsub zip_with]. rewrite vdot_nil_l, vdot_cons, vdot_nil_l.
    replace ((1 + 1 + 1 + 1) * (a * a + 0))
      with (0 + (1 + 1) * (a * a) + (1 + 1) * (a * a)) by ring.
    apply Qc_le_add_nonneg.
    apply Qc_mul_nonneg; [done | apply Qc_square_nonneg].
  - rewrite diffs_cons2, !vdot_cons.
    specialize (IH b). rewrite !vdot_cons in IH.
    set (S := vdot (diffs (b :: x)) (diffs (b :: x))) in *.
    set (T := vdot x x) in *.
    (* (b - a)^2 <= 2 a^2 + 2 b^2 *)
    pose proof (Qc_square_nonneg (a + b)) as Hsq.
    apply Qcle_minus_iff.
    pose proof (proj1 (Qcle_minus_iff _ _) IH) as IH'.
    replace ((1 + 1 + 1 + 1) * (a * a + (b * b + T))
             + - ((b - a) * (b - a) + S + (1 + 1) * (a * a)))
      with ((a + b) * (a + b)
            + ((1 + 1 + 1 + 1) * (b * b + T) + - (S + (1 + 1) * (b * b))))
      by ring.
    apply Qc_add_nonneg; [exact Hsq | exact IH'].
Qed.

Lemma diffs_bound x :
  vdot (diffs x) (diffs x) <= (1 + 1 + 1 + 1) * vdot x x.
Proof.
  destruct x as [| a x].
  - change (diffs []) with (@nil Qc). rewrite vdot_nil_l.
    apply Qc_mul_nonneg; done.
  - eapply Qcle_trans; [| apply diffs_bound_head].
    apply Qc_le_add_nonneg.
    apply Qc_mul_nonneg; [done | apply Qc_square_nonneg].
Qed.

End Differences.

(** A rational constant is not 0. *)
Ltac Qc_apart :=
  let Heq := fresh in
  intros Heq; apply (f_equal this) in Heq; vm_compute in Heq; discriminate Heq.

Lemma Qc_two_eq : two = (1 + 1 : Qc).
Proof. apply Qc_is_canon. reflexivity. Qed.

Lemma Qc_eight_eq : of_int 8 = ((1 + 1) * (1 + 1) * (1 + 1) : Qc).
Proof. apply Qc_is_canon. reflexivity. Qed.

(** ** The energy that a Verlet step keeps *)

Section ShadowEnergy.
Variable n : nat.
Variable Lm : matrix Qc.
Hypothesis L_shape : square n Lm.
Hypothesis L_symm : ∀ x y, vdot (matvec Lm x) y = vdot x (matvec Lm y).
Implicit Types (q p : vec Qc) (δt : Qc) (s : vec Qc * vec Qc).

Lemma shadow_verlet_step δt s :
  shaped n s →
  shadow_energy Lm δt (verlet_step Lm δt s) = shadow_energy Lm δt s.
Proof.
  destruct s as [q p]. intros [Hq Hp]. cbn [fst snd] in Hq, Hp.
  pose proof (L_length n Lm L_shape) as HL.
  unfold shadow_energy, energy, verlet_step. cbn [fst snd].
  change (vsum (vmul ?x ?y)) with (vdot x y).
  set (c := δt [/] two).
  remember (vadd q (vscale c p)) as u eqn:Hu.
  assert (length u = n) as Hlu by (subst u; len).
  remember (vsub p (vscale δt (matvec Lm u))) as p' eqn:Hp'.
  assert (length p' = n) as Hlp' by (subst p'; len).
  set (g := matvec Lm u) in *.
  assert (length g = n) as Hlg by (unfold g; len).
  assert (vdot (matvec Lm (vadd u (vscale c p'))) (vadd u (vscale c p'))
          = vdot g u + (c + c) * vdot g p' + c * c * vdot (matvec Lm p') p')
    as Hq'.
  { rewrite matvec_vadd, matvec_vscale by len. fold g. bilinear.
    rewrite (L_symm p' u). fold g. rewrite (vdot_comm p' g). ring. }
  assert (vdot g p' = vdot g p - δt * vdot g g) as Hgp'.
  { rewrite Hp'. fold g. by bilinear. }
  assert (vdot p' p' = vdot p p - (δt + δt) * vdot g p + δt * δt * vdot g g)
    as Hpp'.
  { rewrite Hp'. fold g. bilinear. rewrite (vdot_comm p g). ring. }
  assert (vdot g p = vdot (matvec Lm q) p + c * vdot (matvec Lm p) p) as Hgp.
  { unfold g. rewrite Hu, matvec_vadd, matvec_vscale by len. by bilinear. }
  assert (vdot g u = vdot (matvec Lm q) q + (c + c) * vdot (matvec Lm q) p
                     + c * c * vdot (matvec Lm p) p) as Hgu.
  { unfold g. rewrite Hu, matvec_vadd, matvec_vscale by len. bilinear.
    rewrite (L_symm p q), (vdot_comm p (matvec Lm q)). ring. }
  rewrite Hq', Hpp', Hgp', Hgu, Hgp.
  unfold c, half. qc. rewrite Qc_two_eq, Qc_eight_eq.
  field. split; Qc_apart.
Qed.

Lemma shadow_iter_verlet δt k s :
  shaped n s →
  shadow_energy Lm δt (Nat.iter k (verlet_step Lm δt) s) = shadow_energy Lm δt s.
Proof.
  intros Hs. pose proof (L_length n Lm L_shape) as HL.
  induction k as [| k IH]; [done |].
  cbn [Nat.iter nat_rect]. rewrite shadow_verlet_step; [done |].
  apply shaped_iter; [| done]. intros s'. by apply shaped_verlet_step.
Qed.

End ShadowEnergy.

(** ** The built operator in terms of differences *)

Section BuiltDifferences.
Variable n : nat.
Variable Lm : matrix Qc.
Hypothesis L_is_built : L n = Ok Lm.
Implicit Types (x y q p : vec Qc) (c : Qc).

Lemma built_positive : (0 < n)%nat.
Proof. by destruct (L_built_inv n Lm L_is_built). Qed.

Lemma built_quadratic x :
  length x = n → vdot (matvec Lm x) x = vdot (diffs x) (diffs x).
Proof.
  intros Hx. destruct (L_built_inv n Lm L_is_built) as [Hn ->].
  rewrite (L_gram n (D_spec n) (D_spec_square n)).
  rewrite matvec_D_spec by done. rewrite vdot_cons. ring.
Qed.

Lemma built_bound x :
  length x = n → vdot (matvec Lm x) x <= (1 + 1 + 1 + 1) * vdot x x.
Proof. intros Hx. rewrite built_quadratic by done. apply diffs_bound. Qed.

Lemma built_shift x c :
  length x = n → matvec Lm (vadd x (replicate n c)) = matvec Lm x.
Proof.
  intros Hx. destruct (L_built_inv n Lm L_is_built) as [Hn ->].
  destruct (D_spec_square n) as [_ Hrows].
  rewrite !matvec_mmul by done.
  rewrite !matvec_D_spec by (rewrite ?length_vadd, ?length_replicate; lia).
  by rewrite <- Hx, diffs_shift.
Qed.

End BuiltDifferences.

(** ** The band of the Verlet energies *)

Section EnergyBand.
Variable n : nat.
Variable Lm : matrix Qc.
Hypothesis L_is_built : L n = Ok Lm.
Implicit Types (q p : vec Qc) (δt : Qc) (s : vec Qc * vec Qc).

Lemma energy_nonneg s : 0 <= energy Lm s.
Proof.
  unfold energy. qc.
  change (vsum (vmul ?x ?y)) with (vdot x y).
  apply Qc_add_nonneg; (apply Qc_mul_nonneg; [apply Qclt_le_weak, half_pos |]).
  - apply vdot_self_nonneg.
  - by apply (built_nonneg n).
Qed.

Lemma eighth_nonneg δt : 0 <= δt * δt / of_int 8.
Proof.
  unfold Qcdiv. apply Qc_mul_nonneg; [apply Qc_square_nonneg | done].
Qed.

Lemma shadow_le_energy δt s : shadow_energy Lm δt s <= energy Lm s.
Proof.
  unfold shadow_energy. qc. apply Qcle_minus_iff.
  replace (energy Lm s + - (energy Lm s - δt * δt / of_int 8 * vdot (matvec Lm s.2) s.2))
    with (δt * δt / of_int 8 * vdot (matvec Lm s.2) s.2) by ring.
  apply Qc_mul_nonneg; [apply eighth_nonneg | by apply (built_nonneg n)].
Qed.

Lemma energy_le_shadow δt s :
  shaped n s → (1 - δt * δt) * energy Lm s <= shadow_energy Lm δt s.
Proof.
  destruct s as [q p]. intros [Hq Hp]. cbn [fst snd] in Hq, Hp.
  pose proof (built_bound n Lm L_is_built p Hp) as Hbound.
  pose proof (built_nonneg n Lm L_is_built q) as Hpot.
  unfold shadow_energy, energy. cbn [fst snd]. qc.
  change (vsum (vmul ?x ?y)) with (vdot x y).
  set (X := vdot (matvec Lm p) p) in *. set (P := vdot p p) in *.
  set (U := vdot (matvec Lm q) q) in *.
  apply Qcle_minus_iff.
  replace (half * P + half * U - δt * δt / of_int 8 * X
           + - ((1 - δt * δt) * (half * P + half * U)))
    with (δt * δt / of_int 8 * ((1 + 1 + 1 + 1) * P + - X)
          + δt * δt * half * U).
  2:{ unfold half. qc. rewrite Qc_two_eq, Qc_eight_eq. field. split; Qc_apart. }
  apply Qc_add_nonneg.
  - apply Qc_mul_nonneg; [apply eighth_nonneg |].
    exact (proj1 (Qcle_minus_iff X ((1 + 1 + 1 + 1) * P)) Hbound).
  - apply Qc_mul_nonneg; [| done].
    apply Qc_mul_nonneg; [apply Qc_square_nonneg | apply Qclt_le_weak, half_pos].
Qed.

(** Every energy along the Verlet steps lies in the band. *)
Lemma verlet_band δt k s :
  shaped n s →
  shadow_energy Lm δt s <= energy Lm (Nat.iter k (verlet_step Lm δt) s)
  ∧ (1 - δt * δt) * energy Lm (Nat.iter k (verlet_step Lm δt) s)
    <= shadow_energy Lm δt s.
Proof.
  intros Hs.
  pose proof (built_square n Lm L_is_built) as Hsq.
  pose proof (built_symm n Lm L_is_built) as Hsym.
  pose proof (L_length n Lm Hsq) as HL.
  assert (shaped n (Nat.iter k (verlet_step Lm δt) s)) as Hk.
  { apply shaped_iter; [| done]. intros s'. by apply shaped_verlet_step. }
  rewrite <- (shadow_iter_verlet n Lm Hsq Hsym δt k s Hs).
  split; [apply shadow_le_energy | by apply energy_le_shadow].
Qed.

(** From rest, [p = 0], the kept energy is the initial energy. *)
Lemma shadow_at_rest δt q :
  shadow_energy Lm δt (q, zeros n) = energy Lm (q, zeros n).
Proof.
  unfold shadow_energy. cbn [fst snd]. rewrite vdot_zeros_r. qc. ring.
Qed.

End EnergyBand.

(** ** The printed expression *)

Section Spread.
Implicit Types (a c d x y : Qc) (t : vec Qc).

Lemma Qc_of_nat_succ (k : nat) :
  of_int (Z.of_nat (S k)) = (of_int (Z.of_nat k) + 1 : Qc).
Proof.
  apply Qc_is_canon. cbn [of_int Qc_scalar].
  unfold Qcplus, Q2Qc. cbn [this]. rewrite !Qred_correct.
  rewrite Nat2Z.inj_succ. unfold Z.succ. by rewrite inject_Z_plus.
Qed.

Lemma Qc_of_nat_nonneg (k : nat) : 0 <= (of_int (Z.of_nat k) : Qc).
Proof.
  induction k as [| k IH]; [done |].
  rewrite Qc_of_nat_succ. by apply Qc_add_nonneg.
Qed.

Lemma Qc_of_nat_pos (k : nat) : 0 < (of_int (Z.of_nat (S k)) : Qc).
Proof.
  rewrite Qc_of_nat_succ.
  eapply Qcle_lt_trans; [apply Qc_of_nat_nonneg |].
  by apply Qc_lt_add_pos.
Qed.

Lemma vsum_lower c t :
  (∀ y, y ∈ t → c <= y) → of_int (Z.of_nat (length t)) * c <= vsum t.
Proof.
  induction t as [| x t IH]; intros Hall.
  - cbn [length]. rewrite vsum_nil.
    change (of_int (Z.of_nat 0)) with (0 : Qc).
    replace (0 * c) with 0 by ring. apply Qcle_refl.
  - cbn [length]. rewrite Qc_of_nat_succ, vsum_cons.
    replace ((of_int (Z.of_nat (length t)) + 1) * c)
      with (c + of_int (Z.of_nat (length t)) * c) by ring.
    apply Qcplus_le_compat.
    + apply Hall. left.
    + apply IH. intros y Hy. apply Hall. by right.
Qed.

Lemma mean_lower c x t :
  (∀ y, y ∈ x :: t → c <= y) → c <= np_mean (x :: t).
Proof.
  intros Hall. unfold np_mean. qc. unfold Qcdiv.
  pose proof (Qc_of_nat_pos (length t)) as Hpos.
  set (N := of_int (Z.of_nat (length (x :: t)))) in *.
  replace c with (N * c * / N).
  2:{ field. by apply Qclt_not_eq, not_eq_sym in Hpos. }
  apply Qcmult_le_compat_r; [by apply vsum_lower |].
  by apply Qc_inv_nonneg, Qclt_le_weak.
Qed.

(** When every entry [y] lies in the band [a <= y], [(1 - d) y <= a], the
    printed value, times [1 - d], is at most [d]. *)
Lemma spread_in_band a d x t :
  0 < a → 0 <= d →
  (∀ y, y ∈ x :: t → a <= y ∧ (1 - d) * y <= a) →
  ∃ e, conservation_error (x :: t) = Ok e ∧ 0 <= e ∧ e * (1 - d) <= d.
Proof.
  intros Ha Hd Hband.
  destruct (foldl_maximum_spec x t) as [Hhi Hmax].
  destruct (foldl_minimum_spec x t) as [Hlo Hmin].
  set (hi := foldl maximum x t) in *. set (lo := foldl minimum x t) in *.
  assert (∀ y, y ∈ x :: t → lo <= y ∧ y <= hi) as Hall by (by split; auto).
  exists ((hi - lo) / np_mean (x :: t)). split; [reflexivity |].
  set (m := np_mean (x :: t)).
  assert (lo <= m) as Hlom.
  { apply mean_lower. intros y Hy. by apply Hall. }
  destruct (Hband lo Hlo) as [Halo _].
  destruct (Hband hi Hhi) as [_ Hhia].
  destruct (Hall hi Hhi) as [Hlohi _].
  assert (0 < m) as Hm.
  { eapply Qclt_le_trans; [exact Ha |]. by eapply Qcle_trans. }
  assert (0 <= / m) as Hinv by (by apply Qc_inv_nonneg, Qclt_le_weak).
  unfold Qcdiv. split.
  - apply Qc_mul_nonneg; [| done].
    apply (proj1 (Qcle_minus_iff lo hi)) in Hlohi.
    by replace (hi - lo) with (hi + - lo) by ring.
  - replace ((hi - lo) * / m * (1 - d)) with ((hi - lo) * (1 - d) * / m) by ring.
    replace d with (d * m * / m) at 2.
    2:{ field. by apply Qclt_not_eq, not_eq_sym in Hm. }
    apply Qcmult_le_compat_r; [| done].
    rewrite (Qcmult_comm d m).
    eapply Qcle_trans; [| apply Qcmult_le_compat_r; [exact Hlom | exact Hd]].
    apply Qcle_minus_iff.
    replace (lo * d + - ((hi - lo) * (1 - d)))
      with ((a + - ((1 - d) * hi)) + (lo + - a)) by ring.
    apply Qc_add_nonneg; by apply (proj1 (Qcle_minus_iff _ _)).
Qed.

Lemma Qc_leb_scale c x y : 0 < c → Qc_leb (c * x) (c * y) = Qc_leb x y.
Proof.
  intros Hc. destruct (Qc_leb x y) eqn:Hle.
  - apply Qc_leb_le. apply Qc_leb_le in Hle.
    rewrite !(Qcmult_comm c). by apply Qcmult_le_compat_r, Qclt_le_weak.
  - destruct (Qc_leb (c * x) (c * y)) eqn:Hle'; [| done].
    apply Qc_leb_le in Hle'. rewrite !(Qcmult_comm c) in Hle'.
    apply Qcmult_lt_0_le_reg_r in Hle'; [| done].
    apply Qc_leb_le in Hle'. congruence.
Qed.

Lemma foldl_maximum_scale c x t :
  0 < c → foldl maximum (c * x) (vscale c t) = c * foldl maximum x t.
Proof.
  intros Hc. revert x. induction t as [| y t IH]; intros x; [done |].
  cbn [vscale fmap list_fmap foldl]. fold (vscale c t).
  change (mul c y) with (c * y).
  replace (maximum (c * x) (c * y)) with (c * maximum x y).
  - apply IH.
  - cbn [maximum Qc_scalar]. rewrite Qc_leb_scale by done.
    by destruct (Qc_leb x y).
Qed.

Lemma foldl_minimum_scale c x t :
  0 < c → foldl minimum (c * x) (vscale c t) = c * foldl minimum x t.
Proof.
  intros Hc. revert x. induction t as [| y t IH]; intros x; [done |].
  cbn [vscale fmap list_fmap foldl]. fold (vscale c t).
  change (mul c y) with (c * y).
  replace (minimum (c * x) (c * y)) with (c * minimum x y).
  - apply IH.
  - cbn [minimum Qc_scalar]. rewrite Qc_leb_scale by done.
    by destruct (Qc_leb x y).
Qed.

Lemma vsum_vscale c t : vsum (vscale c t) = c * vsum t.
Proof.
  induction t as [| y t IH].
  - rewrite vsum_nil. change (vscale c []) with (@nil Qc). rewrite vsum_nil. ring.
  - change (vscale c (y :: t)) with (c * y :: vscale c t).
    rewrite !vsum_cons, IH. ring.
Qed.

End Spread.

(** ** The operator and the energies, on the store *)

Section UniformShift.
Variable n : nat.
Variable Lm : matrix Qc.
Hypothesis L_is_built : L n = Ok Lm.
Implicit Types (x y q p : vec Qc) (c : Qc).

Lemma built_uniform c : matvec Lm (replicate n c) = zeros n.
Proof.
  rewrite <- (vadd_zeros_l n (replicate n c)) by apply length_replicate.
  rewrite (built_shift n Lm L_is_built) by apply length_zeros.
  rewrite matvec_zeros. f_equal.
  apply (L_length n Lm), (built_square n Lm L_is_built).
Qed.

Lemma built_quadratic_shift x c :
  length x = n →
  vdot (matvec Lm (vadd x (replicate n c))) (vadd x (replicate n c))
  = vdot (matvec Lm x) x.
Proof.
  intros Hx.
  rewrite !(built_quadratic n Lm L_is_built)
    by (rewrite ?length_vadd, ?length_replicate; lia).
  by rewrite <- Hx, diffs_shift.
Qed.

End UniformShift.

Section OperatorOnStore.
Context `{DirectSolver Qc}.
Implicit Types (n : nat) (Lm : matrix Qc) (δt c : Qc) (h : heap Qc)
  (q p : loc) (qv pv u v : vec Qc).

(** X4: the potential energy the code returns is half the sum of the
    squares of the differences of neighbouring entries of [q]; the store
    is unchanged. *)
Theorem potential_energy_differences n Lm q qv h :
  L n = Ok Lm → h !! q = Some qv → length qv = n →
  runs (potential_energy n Lm q) h (half * vdot (diffs qv) (diffs qv)) h.
Proof.
  intros HL Hq Hlen.
  pose proof (L_length n Lm (built_square n Lm HL)) as Hrows.
  rewrite <- (built_quadratic n Lm HL) by done.
  exact (runs_potential_energy n Lm Hrows q qv h Hq Hlen).
Qed.

(** X5: adding one number to every entry of [q] changes neither the
    gradient nor the potential energy: no oscillator is tied to a fixed
    point. *)
Theorem potential_shift_invariant n Lm c q q' qv h :
  L n = Ok Lm →
  h !! q = Some qv → h !! q' = Some (vadd qv (replicate n c)) →
  length qv = n →
  ∃ g x,
    runs (potential_gradient n Lm q) h g h
    ∧ runs (potential_gradient n Lm q') h g h
    ∧ runs (potential_energy n Lm q) h x h
    ∧ runs (potential_energy n Lm q') h x h.
Proof.
  intros HL Hq Hq' Hlen.
  pose proof (L_length n Lm (built_square n Lm HL)) as Hrows.
  assert (length (vadd qv (replicate n c)) = n) as Hlen'.
  { rewrite length_vadd, length_replicate. lia. }
  exists (matvec Lm qv), (half * vdot (matvec Lm qv) qv).
  split; [exact (runs_potential_gradient n Lm q qv h Hq Hlen) |].
  split.
  { rewrite <- (built_shift n Lm HL qv c) by done.
    exact (runs_potential_gradient n Lm q' _ h Hq' Hlen'). }
  split; [exact (runs_potential_energy n Lm Hrows q qv h Hq Hlen) |].
  rewrite <- (built_quadratic_shift n Lm HL qv c) by done.
  exact (runs_potential_energy n Lm Hrows q' _ h Hq' Hlen').
Qed.

(** X6: the operator the second cell builds is self-adjoint, its
    quadratic form lies between 0 and 4 times the sum of squares, and it
    sends every uniform array to zero. *)
Theorem stiffness_operator_bounded n Lm u v c :
  L n = Ok Lm → length u = n →
  vdot (matvec Lm u) v = vdot u (matvec Lm v)
  ∧ 0 <= vdot (matvec Lm u) u
  ∧ vdot (matvec Lm u) u <= (1 + 1 + 1 + 1) * vdot u u
  ∧ matvec Lm (replicate n c) = zeros n.
Proof.
  intros HL Hx.
  split; [apply (built_symm n Lm HL) |].
  split; [apply (built_nonneg n Lm HL) |].
  split; [by apply (built_bound n Lm HL) |].
  apply (built_uniform n Lm HL).
Qed.

(** X7: the matrix [D] of the second cell sends an array to a zero
    followed by the differences of its neighbouring entries, and [Λ] is
    the identity. *)
Theorem difference_matrix_action n u :
  (0 < n)%nat → length u = n →
  ∃ Dm Λm, D n = Ok Dm ∧ Λ n = Ok Λm
           ∧ matvec Dm u = 0 :: diffs u
           ∧ matvec Λm u = u.
Proof.
  intros Hn Hx. exists (D_spec n), (eye n).
  split; [by apply D_built |]. split; [apply Lambda_built |].
  split; [by apply matvec_D_spec | by apply matvec_eye].
Qed.

(** X8: every energy the loop records, for each of the three
    integrators, is at least zero. *)
Theorem recorded_energies_nonneg n Lm δt q0 p0 qv pv count h :
  L n = Ok Lm → solver_shape →
  h !! q0 = Some qv → h !! p0 = Some pv →
  length qv = n → length pv = n →
  ∃ e h' tv tf tb,
    runs (integrate n Lm q0 p0 δt (Z.of_nat count)) h e h'
    ∧ h' !! energy_verlet e = Some tv
    ∧ h' !! energy_feuler e = Some tf
    ∧ h' !! energy_beuler e = Some tb
    ∧ ∀ x, x ∈ tv ++ tf ++ tb → 0 <= x.
Proof.
  intros HL Hshape Hq0 Hp0 Hlq Hlp.
  pose proof (L_length n Lm (built_square n Lm HL)) as Hrows.
  destruct (runs_integrate n Lm Hrows Hshape δt (Qc_pow2 δt) count (length h) (qv, pv) q0 p0 h)
    as (e & h' & Hrun & Hinv & _); [done | done | by split | done |].
  destruct (loop_inv_done _ _ _ _ _ _ _ _ Hinv)
    as (_ & _ & _ & _ & _ & _ & Hev & Hef & Heb).
  eexists e, h', _, _, _. split; [exact Hrun |].
  split; [exact Hev |]. split; [exact Hef |]. split; [exact Heb |].
  intros x Hx. rewrite !elem_of_app in Hx.
  destruct Hx as [Hx | [Hx | Hx]];
    apply elem_of_trajectory in Hx as (k & _ & ->);
    apply (energy_nonneg n Lm HL).
Qed.

(** X9: in exact arithmetic the Verlet lines keep the value of
    [energy - δt² / 8 * (L p) · p] exactly: the perturbed energy that the
    integrator conserves. *)
Theorem verlet_update_shadow_energy n Lm δt q p qv pv h :
  L n = Ok Lm →
  h !! q = Some qv → h !! p = Some pv → q ≠ p →
  length qv = n → length pv = n →
  ∃ h' s,
    runs (verlet_update n Lm δt q p) h () h'
    ∧ h' !! q = Some s.1 ∧ h' !! p = Some s.2
    ∧ shadow_energy Lm δt s = shadow_energy Lm δt (qv, pv).
Proof.
  intros HL Hq Hp Hne Hlq Hlp.
  pose proof (built_square n Lm HL) as Hsq.
  pose proof (L_length n Lm Hsq) as Hrows.
  pose proof (lookup_lt_Some _ _ _ Hq) as Hq_lt.
  pose proof (lookup_lt_Some _ _ _ Hp) as Hp_lt.
  eexists _, (verlet_step Lm δt (qv, pv)).
  split; [by apply (runs_verlet_update n Lm Hrows δt q p qv pv) |].
  split; [lookup |]. split; [lookup |].
  by apply (shadow_verlet_step n Lm Hsq (built_symm n Lm HL)).
Qed.

(** X10: every Verlet energy the loop records, however many steps it
    takes, lies in a band around the perturbed energy [S] of the initial
    state: [S <= E] and [(1 - δt²) E <= S]; when the initial momenta
    are zero, [S] is the initial energy. *)
Theorem verlet_energy_band n Lm δt q0 p0 qv pv count h :
  L n = Ok Lm → solver_shape →
  h !! q0 = Some qv → h !! p0 = Some pv →
  length qv = n → length pv = n →
  ∃ e h' tv,
    runs (integrate n Lm q0 p0 δt (Z.of_nat count)) h e h'
    ∧ h' !! energy_verlet e = Some tv
    ∧ length tv = count
    ∧ (∀ x, x ∈ tv →
         shadow_energy Lm δt (qv, pv) <= x
         ∧ (1 - δt * δt) * x <= shadow_energy Lm δt (qv, pv))
    ∧ (pv = zeros n → shadow_energy Lm δt (qv, pv) = energy Lm (qv, pv)).
Proof.
  intros HL Hshape Hq0 Hp0 Hlq Hlp.
  pose proof (L_length n Lm (built_square n Lm HL)) as Hrows.
  destruct (runs_integrate n Lm Hrows Hshape δt (Qc_pow2 δt) count (length h) (qv, pv) q0 p0 h)
    as (e & h' & Hrun & Hinv & _); [done | done | by split | done |].
  destruct (loop_inv_done _ _ _ _ _ _ _ _ Hinv)
    as (_ & _ & _ & _ & _ & _ & Hev & _).
  eexists e, h', _. split; [exact Hrun |]. split; [exact Hev |].
  split; [apply length_trajectory |].
  split.
  - intros x (k & _ & ->)%elem_of_trajectory.
    by apply (verlet_band n Lm HL).
  - intros ->. apply shadow_at_rest.
Qed.

End OperatorOnStore.

(** ** The Verlet lines keep the pairing of two states *)

Section Symplectic.
Variable n : nat.
Variable Lm : matrix Qc.
Hypothesis L_shape : square n Lm.
Hypothesis L_symm : ∀ x y, vdot (matvec Lm x) y = vdot x (matvec Lm y).
Implicit Types (x y : vec Qc) (δt : Qc) (s t : vec Qc * vec Qc).

Lemma pairing_verlet_step δt s t :
  shaped n s → shaped n t →
  pairing (verlet_step Lm δt s) (verlet_step Lm δt t) = pairing s t.
Proof.
  destruct s as [q p], t as [q' p']. intros [Hq Hp] [Hq' Hp'].
  cbn [fst snd] in Hq, Hp, Hq', Hp'.
  pose proof (L_length n Lm L_shape) as HL.
  unfold pairing, verlet_step. cbn [fst snd]. qc.
  set (c := δt / two).
  set (u := vadd q (vscale c p)). set (u' := vadd q' (vscale c p')).
  assert (length u = n) as Hu by (unfold u; rewrite length_vadd, length_vscale; lia).
  assert (length u' = n) as Hu' by (unfold u'; rewrite length_vadd, length_vscale; lia).
  set (g := matvec Lm u). set (g' := matvec Lm u').
  assert (length g = n) as Hg by (unfold g; by rewrite length_matvec).
  assert (length g' = n) as Hg' by (unfold g'; by rewrite length_matvec).
  assert (vdot g u' = vdot u g') as Hsym by apply L_symm.
  assert (vdot u (vsub p' (vscale δt g')) - vdot (vsub p (vscale δt g)) u'
          = vdot q p' - vdot p q') as Hkick.
  { bilinear. rewrite Hsym.
    replace (vdot u p' - δt * vdot u g' - (vdot p u' - δt * vdot u g'))
      with (vdot u p' - vdot p u') by ring.
    unfold u, u'. bilinear. ring. }
  rewrite <- Hkick.
  set (w := vsub p (vscale δt g)) in *. set (w' := vsub p' (vscale δt g')) in *.
  assert (length w = n) as Hw
    by (unfold w; rewrite length_vsub, length_vscale; lia).
  assert (length w' = n) as Hw'
    by (unfold w'; rewrite length_vsub, length_vscale; lia).
  bilinear. ring.
Qed.

End Symplectic.

Section Uniform.
Implicit Types (x : vec Qc) (a b c : Qc).

Lemma diffs_zero_uniform x :
  diffs x = zeros (Nat.pred (length x)) → ∃ c, x = replicate (length x) c.
Proof.
  induction x as [| a [| b x] IH]; intros Hd.
  - by exists 0.
  - by exists a.
  - rewrite diffs_cons2 in Hd. cbn [length Nat.pred] in Hd.
    change (zeros (S (length x))) with ((0 : Qc) :: zeros (length x)) in Hd.
    pose proof (f_equal head Hd) as Hhead. cbn [head] in Hhead.
    apply (inj Some) in Hhead.
    pose proof (f_equal tail Hd) as Htail. cbn [tail] in Htail.
    destruct (IH Htail) as [c Hc].
    assert (b = a) as ->.
    { replace b with ((b - a) + a) by ring. rewrite Hhead. ring. }
    exists a. cbn [length replicate] in Hc |- *.
    pose proof (f_equal head Hc) as Hc'. cbn [head] in Hc'.
    apply (inj Some) in Hc'. subst c. by rewrite <- Hc.
Qed.

Lemma diffs_uniform k c : diffs (replicate k c) = zeros (Nat.pred k).
Proof.
  induction k as [| [| k] IH]; [done | done |].
  change (replicate (S (S k)) c) with (c :: c :: replicate k c).
  rewrite diffs_cons2. change (c :: replicate k c) with (replicate (S k) c).
  rewrite IH. cbn [Nat.pred].
  change (zeros (S k)) with ((0 : Qc) :: zeros k). f_equal. ring.
Qed.

End Uniform.

(** ** The pairing and the potential energy, on the store *)

Section PairingOnStore.
Implicit Types (n : nat) (Lm : matrix Qc) (δt c : Qc) (h : heap Qc)
  (q p : loc) (qv pv : vec Qc).

(** X11: in exact arithmetic the Verlet lines keep the pairing
    [q · p' - p · q'] of any two states they are run on: the linear map
    they compute is symplectic, so it keeps phase-space volume. *)
Theorem verlet_update_symplectic n Lm δt q p (q2 p2 : loc) qv pv
    (qv2 pv2 : vec Qc) h :
  L n = Ok Lm →
  h !! q = Some qv → h !! p = Some pv →
  h !! q2 = Some qv2 → h !! p2 = Some pv2 →
  NoDup [q; p; q2; p2] →
  length qv = n → length pv = n → length qv2 = n → length pv2 = n →
  ∃ h1 h2 s t,
    runs (verlet_update n Lm δt q p) h () h1
    ∧ runs (verlet_update n Lm δt q2 p2) h1 () h2
    ∧ h2 !! q = Some s.1 ∧ h2 !! p = Some s.2
    ∧ h2 !! q2 = Some t.1 ∧ h2 !! p2 = Some t.2
    ∧ pairing s t = pairing (qv, pv) (qv2, pv2).
Proof.
  intros HL Hq Hp Hq2 Hp2 Hnd Hlq Hlp Hlq2 Hlp2.
  pose proof (built_square n Lm HL) as Hsq.
  pose proof (L_length n Lm Hsq) as Hrows.
  pose proof (lookup_lt_Some _ _ _ Hq) as Hq_lt.
  pose proof (lookup_lt_Some _ _ _ Hp) as Hp_lt.
  pose proof (lookup_lt_Some _ _ _ Hq2) as Hq2_lt.
  pose proof (lookup_lt_Some _ _ _ Hp2) as Hp2_lt.
  assert (q ≠ p ∧ q ≠ q2 ∧ q ≠ p2 ∧ p ≠ q2 ∧ p ≠ p2 ∧ q2 ≠ p2)
    as (Hqp & Hqq2 & Hqp2 & Hpq2 & Hpp2 & Hq2p2).
  { rewrite !NoDup_cons, !not_elem_of_cons in Hnd. tauto. }
  eexists _, _, (verlet_step Lm δt (qv, pv)), (verlet_step Lm δt (qv2, pv2)).
  split; [by apply (runs_verlet_update n Lm Hrows δt q p qv pv) |].
  split.
  { apply (runs_verlet_update n Lm Hrows δt q2 p2 qv2 pv2);
      [lookup | lookup | done | done | done]. }
  split; [lookup |]. split; [lookup |]. split; [lookup |]. split; [lookup |].
  by apply (pairing_verlet_step n Lm Hsq (built_symm n Lm HL)).
Qed.

(** X12: in exact arithmetic the potential energy of [q] is zero
    exactly when all entries of [q] are equal. *)
Theorem potential_energy_zero_iff_uniform n Lm q qv h :
  L n = Ok Lm → h !! q = Some qv → length qv = n →
  runs (potential_energy n Lm q) h 0 h ↔ ∃ c, qv = replicate n c.
Proof.
  intros HL Hq Hlen.
  pose proof (L_length n Lm (built_square n Lm HL)) as Hrows.
  pose proof (runs_potential_energy n Lm Hrows q qv h Hq Hlen) as Hrun.
  split.
  - intros Hzero. unfold runs in Hrun, Hzero. rewrite Hrun in Hzero.
    assert (half * vdot (matvec Lm qv) qv = 0) as Hval.
    { by apply (f_equal (λ r, match r with Ok (x, _) => x | Raise _ => 0 end))
        in Hzero. }
    apply Qcmult_integral in Hval as [Hhalf | Hval].
    { pose proof half_pos as Hpos. rewrite Hhalf in Hpos. by vm_compute in Hpos. }
    rewrite (built_quadratic n Lm HL) in Hval by done.
    apply vdot_self_zero in Hval. rewrite length_diffs in Hval.
    rewrite <- Hlen. by apply diffs_zero_uniform.
  - intros [c ->].
    rewrite (built_uniform n Lm HL), vdot_zeros_l in Hrun.
    by replace (half [*] 0) with (0 : Qc) in Hrun by (qc; ring).
Qed.

End PairingOnStore.

(** ** Momentum and uniform states *)

Section Totals.
Variable n : nat.
Variable Lm : matrix Qc.
Hypothesis L_is_built : L n = Ok Lm.
Implicit Types (x y q p : vec Qc) (c δt : Qc) (s : vec Qc * vec Qc).

Lemma vsum_vdot_ones x : vsum x = vdot (replicate (length x) 1) x.
Proof.
  induction x as [| a x IH].
  - by rewrite vdot_nil_r.
  - cbn [length replicate]. rewrite vsum_cons, vdot_cons, IH. ring.
Qed.

Lemma vsum_vadd x y : length x = length y → vsum (vadd x y) = vsum x + vsum y.
Proof.
  intros Hl. rewrite !vsum_vdot_ones, length_vadd, <- Hl, Nat.min_id.
  by rewrite vdot_vadd_r.
Qed.

Lemma vsum_vsub x y : length x = length y → vsum (vsub x y) = vsum x - vsum y.
Proof.
  intros Hl. rewrite !vsum_vdot_ones, length_vsub, <- Hl, Nat.min_id.
  by rewrite vdot_vsub_r.
Qed.

Lemma vsum_matvec x : vsum (matvec Lm x) = 0.
Proof.
  pose proof (L_length n Lm (built_square n Lm L_is_built)) as HL.
  rewrite vsum_vdot_ones, length_matvec, HL.
  rewrite <- (built_symm n Lm L_is_built), (built_uniform n Lm L_is_built).
  apply vdot_zeros_l.
Qed.

Lemma Qc_halves δt : δt [/] two + δt [/] two = δt.
Proof. qc. rewrite Qc_two_eq. field. Qc_apart. Qed.

Lemma totals_verlet_step δt s :
  shaped n s →
  vsum (verlet_step Lm δt s).2 = vsum s.2
  ∧ vsum (verlet_step Lm δt s).1 = vsum s.1 + δt * vsum s.2.
Proof.
  destruct s as [q p]. intros [Hq Hp]. cbn [fst snd] in Hq, Hp.
  pose proof (L_length n Lm (built_square n Lm L_is_built)) as HL.
  unfold verlet_step. cbn [fst snd].
  set (c := δt [/] two). set (u := vadd q (vscale c p)).
  assert (length u = n) as Hu by (unfold u; rewrite length_vadd, length_vscale; lia).
  assert (vsum (vsub p (vscale δt (matvec Lm u))) = vsum p) as Hmom.
  { rewrite vsum_vsub by (rewrite length_vscale, length_matvec; lia).
    rewrite vsum_vscale, vsum_matvec. ring. }
  split; [exact Hmom |].
  rewrite vsum_vadd
    by (rewrite length_vscale, length_vsub, length_vscale, length_matvec; lia).
  rewrite vsum_vscale, Hmom. unfold u.
  rewrite vsum_vadd by (rewrite length_vscale; lia).
  rewrite vsum_vscale.
  pose proof (Qc_halves δt) as Hh. fold c in Hh.
  replace (vsum q + δt * vsum p) with (vsum q + (c + c) * vsum p) by (by rewrite Hh).
  ring.
Qed.

Lemma totals_feuler_step δt s :
  shaped n s →
  vsum (feuler_step Lm δt s).2 = vsum s.2
  ∧ vsum (feuler_step Lm δt s).1 = vsum s.1 + δt * vsum s.2.
Proof.
  destruct s as [q p]. intros [Hq Hp]. cbn [fst snd] in Hq, Hp.
  pose proof (L_length n Lm (built_square n Lm L_is_built)) as HL.
  unfold feuler_step. cbn [fst snd]. split.
  - rewrite vsum_vsub by (rewrite length_vscale, length_matvec; lia).
    rewrite vsum_vscale, vsum_matvec. ring.
  - rewrite vsum_vadd by (rewrite length_vscale; lia).
    by rewrite vsum_vscale.
Qed.

End Totals.

Section TotalsImplicit.
Context `{DirectSolver Qc}.
Variable n : nat.
Variable Lm : matrix Qc.
Hypothesis L_is_built : L n = Ok Lm.
Hypothesis solver_ok : solver_shape.
Hypothesis solver_solves : solver_exact n.
Implicit Types (x y q p : vec Qc) (c δt : Qc) (s : vec Qc * vec Qc).

Lemma totals_beuler_step δt s :
  shaped n s →
  vsum (beuler_step n Lm δt s).2 = vsum s.2
  ∧ vsum (beuler_step n Lm δt s).1 = vsum s.1 + δt * vsum s.2.
Proof.
  destruct s as [q p]. intros [Hq Hp]. cbn [fst snd] in Hq, Hp.
  pose proof (built_square n Lm L_is_built) as Hsq.
  pose proof (L_length n Lm Hsq) as HL.
  destruct (beuler_step_solves n Lm Hsq (built_nonneg n Lm L_is_built)
              solver_ok solver_solves δt q p Hq Hp) as [Hp' Heq].
  unfold beuler_step in *. cbn [fst snd] in *.
  set (p' := linsolve _ _) in *.
  assert (vsum p' = vsum p) as Hmom.
  { apply (f_equal vsum) in Heq.
    rewrite vsum_vadd in Heq by (rewrite length_vscale, length_matvec; lia).
    rewrite vsum_vsub in Heq by (rewrite length_vscale, length_matvec; lia).
    rewrite !vsum_vscale, !(vsum_matvec n Lm L_is_built) in Heq.
    replace (vsum p') with (vsum p' + δt * δt * 0) by ring.
    rewrite Heq. ring. }
  split; [exact Hmom |].
  rewrite vsum_vadd by (rewrite length_vscale; lia).
  by rewrite vsum_vscale, Hmom.
Qed.

Lemma totals_iter step δt k s :
  (∀ s', shaped n s' → shaped n (step s')) →
  (∀ s', shaped n s' →
     vsum (step s').2 = vsum s'.2 ∧ vsum (step s').1 = vsum s'.1 + δt * vsum s'.2) →
  shaped n s →
  vsum (Nat.iter k step s).2 = vsum s.2
  ∧ vsum (Nat.iter k step s).1 = vsum s.1 + of_int (Z.of_nat k) * δt * vsum s.2.
Proof.
  intros Hshape Hstep Hs. induction k as [| k [IHp IHq]].
  - split; [done |]. change (Nat.iter 0 step s) with s.
    change (of_int (Z.of_nat 0)) with (0 : Qc). ring.
  - change (Nat.iter (S k) step s) with (step (Nat.iter k step s)).
    destruct (Hstep (Nat.iter k step s)) as [Hp Hq]; [by apply shaped_iter |].
    split; [by rewrite Hp |].
    rewrite Hq, IHq, IHp, Qc_of_nat_succ. ring.
Qed.

(** A uniform array of positions with zero momenta is a fixed point of
    the three update rules, and has energy zero. *)
Lemma uniform_verlet_step δt c :
  verlet_step Lm δt (replicate n c, zeros n) = (replicate n c, zeros n).
Proof.
  unfold verlet_step. cbn [fst snd].
  rewrite vscale_zeros, vadd_zeros_r by apply length_replicate.
  rewrite (built_uniform n Lm L_is_built), vscale_zeros.
  rewrite vsub_zeros_r by apply length_zeros.
  by rewrite vscale_zeros, vadd_zeros_r by apply length_replicate.
Qed.

Lemma uniform_feuler_step δt c :
  feuler_step Lm δt (replicate n c, zeros n) = (replicate n c, zeros n).
Proof.
  unfold feuler_step. cbn [fst snd].
  rewrite vscale_zeros, vadd_zeros_r by apply length_replicate.
  rewrite (built_uniform n Lm L_is_built), vscale_zeros.
  by rewrite vsub_zeros_r by apply length_zeros.
Qed.

Lemma uniform_beuler_step δt c :
  beuler_step n Lm δt (replicate n c, zeros n) = (replicate n c, zeros n).
Proof.
  pose proof (built_square n Lm L_is_built) as Hsq.
  destruct (beuler_step_solves n Lm Hsq (built_nonneg n Lm L_is_built)
              solver_ok solver_solves δt (replicate n c) (zeros n))
    as [Hp' Heq]; [apply length_replicate | apply length_zeros |].
  rewrite (built_uniform n Lm L_is_built), vscale_zeros in Heq.
  rewrite vsub_zeros_r in Heq by apply length_zeros.
  apply (beuler_system_nonsingular n Lm Hsq (built_nonneg n Lm L_is_built))
    in Heq; [| done].
  unfold beuler_step in *. cbn [fst snd] in *. rewrite Heq.
  by rewrite vscale_zeros, vadd_zeros_r by apply length_replicate.
Qed.

Lemma energy_uniform c : energy Lm (replicate n c, zeros n) = 0.
Proof.
  unfold energy. cbn [fst snd]. qc.
  change (vsum (vmul ?x ?y)) with (vdot x y).
  rewrite (built_uniform n Lm L_is_built), !vdot_zeros_l. ring.
Qed.

Lemma iter_fixed {X} (f : X → X) (x : X) k : f x = x → Nat.iter k f x = x.
Proof.
  intros Hf. induction k as [| k IH]; [done |].
  change (Nat.iter (S k) f x) with (f (Nat.iter k f x)). by rewrite IH.
Qed.

Lemma trajectory_fixed step count s :
  step s = s → energy Lm s = 0 → trajectory Lm step count s = zeros count.
Proof.
  intros Hf He. unfold trajectory.
  apply list_eq. intros k. rewrite list_lookup_fmap.
  destruct (decide (k < count)%nat) as [Hk | Hk].
  - rewrite lookup_seq_lt by done. cbn [fmap option_fmap option_map].
    rewrite iter_fixed, He by done.
    symmetry. by apply lookup_replicate_2.
  - rewrite lookup_seq_ge by lia. symmetry.
    apply lookup_ge_None_2. rewrite length_zeros. lia.
Qed.

End TotalsImplicit.

(** ** The Euler lines and the loop, exactly *)

Section EulerOnStore.
Context `{DirectSolver Qc}.
Implicit Types (n : nat) (Lm : matrix Qc) (δt c : Qc) (h : heap Qc)
  (q p l : loc) (qv pv a : vec Qc).

(** X13: in exact arithmetic the forward-Euler lines with time step
    [- δt], run on the arrays the backward-Euler lines with [δt] have
    left, restore the positions and momenta from before. *)
Theorem beuler_then_feuler_restores n Lm δt q p qv pv h :
  L n = Ok Lm → solver_shape → solver_exact n →
  h !! q = Some qv → h !! p = Some pv →
  length qv = n → length pv = n →
  ∃ p' h1 h2,
    runs (beuler_update n Lm δt q p) h p' h1
    ∧ runs (feuler_update n Lm (opp δt) q p') h1 () h2
    ∧ h2 !! q = Some qv ∧ h2 !! p' = Some pv.
Proof.
  intros HL Hshape Hexact Hq Hp Hlq Hlp.
  pose proof (built_square n Lm HL) as Hsq.
  pose proof (built_nonneg n Lm HL) as Hpos.
  pose proof (L_length n Lm Hsq) as Hrows.
  pose proof (lookup_lt_Some _ _ _ Hq) as Hq_lt.
  pose proof (lookup_lt_Some _ _ _ Hp) as Hp_lt.
  destruct (shaped_beuler_step n Lm Hrows Hshape δt (qv, pv)) as [Hlq' Hlp'];
    [done |].
  eexists _, _, _.
  split; [by apply (runs_beuler_update n Lm Hrows δt q p qv pv _ Hshape (Qc_pow2 δt)) |].
  split.
  { eapply (runs_feuler_update n Lm Hrows); [lookup | lookup | lia | done | done]. }
  rewrite <- surjective_pairing.
  change (opp δt) with (- δt).
  rewrite (feuler_after_beuler n Lm Hsq Hpos Hshape Hexact δt qv pv) by done.
  split; lookup.
Qed.

(** X14: in exact arithmetic the backward-Euler lines with time step
    [- δt], run after the forward-Euler lines with [δt], restore the
    positions and momenta from before: each of the two rules is the
    inverse of the other under a change of sign of the time step. *)
Theorem feuler_then_beuler_restores n Lm δt q p qv pv h :
  L n = Ok Lm → solver_shape → solver_exact n →
  h !! q = Some qv → h !! p = Some pv → q ≠ p →
  length qv = n → length pv = n →
  ∃ h1 p' h2,
    runs (feuler_update n Lm δt q p) h () h1
    ∧ runs (beuler_update n Lm (opp δt) q p) h1 p' h2
    ∧ h2 !! q = Some qv ∧ h2 !! p' = Some pv.
Proof.
  intros HL Hshape Hexact Hq Hp Hne Hlq Hlp.
  pose proof (built_square n Lm HL) as Hsq.
  pose proof (built_nonneg n Lm HL) as Hpos.
  pose proof (L_length n Lm Hsq) as Hrows.
  pose proof (lookup_lt_Some _ _ _ Hq) as Hq_lt.
  pose proof (lookup_lt_Some _ _ _ Hp) as Hp_lt.
  destruct (shaped_feuler_step n Lm Hrows δt (qv, pv)) as [Hlq' Hlp'];
    [done |].
  eexists _, _, _.
  split; [by apply (runs_feuler_update n Lm Hrows δt q p qv pv) |].
  split.
  { eapply (runs_beuler_update n Lm Hrows);
      [done | apply Qc_pow2 | lookup | lookup | done | done]. }
  rewrite <- surjective_pairing.
  change (opp δt) with (- δt).
  rewrite (beuler_after_feuler n Lm Hsq Hpos Hshape Hexact δt qv pv) by done.
  split; lookup.
Qed.

(** X15: the energy balance of the two Euler rules, exactly: the
    forward-Euler lines raise the energy by
    [δt² / 2 * ((L q) · (L q) + p · (L p))] at the old state, and the
    backward-Euler lines lower it by the same expression at the new
    state. *)
Theorem euler_energy_balance n Lm δt q p qv pv h :
  L n = Ok Lm → solver_shape → solver_exact n →
  h !! q = Some qv → h !! p = Some pv → q ≠ p →
  length qv = n → length pv = n →
  (∃ h' s,
     runs (feuler_update n Lm δt q p) h () h'
     ∧ h' !! q = Some s.1 ∧ h' !! p = Some s.2
     ∧ energy Lm s
       = energy Lm (qv, pv)
         + half * (δt * δt)
           * (vdot (matvec Lm qv) (matvec Lm qv) + vdot (matvec Lm pv) pv))
  ∧ (∃ p' h' s,
       runs (beuler_update n Lm δt q p) h p' h'
       ∧ h' !! q = Some s.1 ∧ h' !! p' = Some s.2
       ∧ energy Lm (qv, pv)
         = energy Lm s
           + half * (δt * δt)
             * (vdot (matvec Lm s.1) (matvec Lm s.1) + vdot (matvec Lm s.2) s.2)).
Proof.
  intros HL Hshape Hexact Hq Hp Hne Hlq Hlp.
  pose proof (built_square n Lm HL) as Hsq.
  pose proof (built_symm n Lm HL) as Hsym.
  pose proof (built_nonneg n Lm HL) as Hpos.
  pose proof (L_length n Lm Hsq) as Hrows.
  pose proof (lookup_lt_Some _ _ _ Hq) as Hq_lt.
  pose proof (lookup_lt_Some _ _ _ Hp) as Hp_lt.
  split.
  - eexists _, (feuler_step Lm δt (qv, pv)).
    split; [by apply (runs_feuler_update n Lm Hrows δt q p qv pv) |].
    split; [lookup |]. split; [lookup |].
    by apply (energy_feuler_step n Lm Hsq Hsym).
  - destruct (beuler_step_solves n Lm Hsq Hpos Hshape Hexact δt qv pv Hlq Hlp)
      as [Hp' Heq].
    eexists _, _, (beuler_step n Lm δt (qv, pv)).
    split; [by apply (runs_beuler_update n Lm Hrows δt q p qv pv _ Hshape (Qc_pow2 δt)) |].
    split; [lookup |]. split; [lookup |].
    by apply (energy_beuler_step n Lm Hsq Hsym δt qv pv _ Hlq Hlp Hp' Heq).
Qed.

(** X16: a uniform array of positions with zero momenta is a steady
    state of all three integrators: after any number of steps the six
    state arrays hold what they held at the start, and every recorded
    energy is zero. *)
Theorem uniform_rest_steady n Lm δt c q0 p0 count h :
  L n = Ok Lm → solver_shape → solver_exact n →
  h !! q0 = Some (replicate n c) → h !! p0 = Some (zeros n) →
  ∃ e h',
    runs (integrate n Lm q0 p0 δt (Z.of_nat count)) h e h'
    ∧ (∀ l, l ∈ [q_verlet e; q_feuler e; q_beuler e] →
         h' !! l = Some (replicate n c))
    ∧ (∀ l, l ∈ [p_verlet e; p_feuler e; p_beuler e] →
         h' !! l = Some (zeros n))
    ∧ (∀ l, l ∈ [energy_verlet e; energy_feuler e; energy_beuler e] →
         h' !! l = Some (zeros count)).
Proof.
  intros HL Hshape Hexact Hq0 Hp0.
  pose proof (L_length n Lm (built_square n Lm HL)) as Hrows.
  destruct (runs_integrate n Lm Hrows Hshape δt (Qc_pow2 δt) count (length h)
              (replicate n c, zeros n) q0 p0 h)
    as (e & h' & Hrun & Hinv & _);
    [done | done | split; [apply length_replicate | apply length_zeros] | done |].
  destruct (loop_inv_done _ _ _ _ _ _ _ _ Hinv)
    as (Hqv & Hpv & Hqf & Hpf & Hqb & Hpb & Hev & Hef & Heb).
  pose proof (uniform_verlet_step n Lm HL δt c) as Hfv.
  pose proof (uniform_feuler_step n Lm HL δt c) as Hff.
  pose proof (uniform_beuler_step n Lm HL Hshape Hexact δt c) as Hfb.
  rewrite iter_fixed in Hqv, Hpv, Hqf, Hpf, Hqb, Hpb by done.
  rewrite trajectory_fixed in Hev, Hef, Heb
    by (done || apply (energy_uniform n Lm HL)).
  exists e, h'. split; [exact Hrun |].
  repeat split; intros l Hl; rewrite !elem_of_cons in Hl;
    destruct Hl as [-> | [-> | [-> | Hl]]]; try done;
    by apply elem_of_nil in Hl.
Qed.

(** X17: all three integrators conserve the total momentum, and move
    the sum of the positions at the constant rate it fixes: after
    [count] steps the sum is the initial one plus [count * δt] times the
    total momentum. *)
Theorem integrate_conserves_momentum n Lm δt q0 p0 qv pv count h :
  L n = Ok Lm → solver_shape → solver_exact n →
  h !! q0 = Some qv → h !! p0 = Some pv →
  length qv = n → length pv = n →
  ∃ e h',
    runs (integrate n Lm q0 p0 δt (Z.of_nat count)) h e h'
    ∧ (∀ l, l ∈ [p_verlet e; p_feuler e; p_beuler e] →
         ∃ a, h' !! l = Some a ∧ vsum a = vsum pv)
    ∧ (∀ l, l ∈ [q_verlet e; q_feuler e; q_beuler e] →
         ∃ a, h' !! l = Some a
              ∧ vsum a = vsum qv + of_int (Z.of_nat count) * δt * vsum pv).
Proof.
  intros HL Hshape Hexact Hq0 Hp0 Hlq Hlp.
  pose proof (L_length n Lm (built_square n Lm HL)) as Hrows.
  assert (shaped n (qv, pv)) as Hs by done.
  destruct (runs_integrate n Lm Hrows Hshape δt (Qc_pow2 δt) count (length h) (qv, pv) q0 p0 h)
    as (e & h' & Hrun & Hinv & _); [done | done | done | done |].
  destruct (loop_inv_done _ _ _ _ _ _ _ _ Hinv)
    as (Hqv & Hpv & Hqf & Hpf & Hqb & Hpb & _).
  destruct (totals_iter n (verlet_step Lm δt) δt count (qv, pv)) as [Hv2 Hv1];
    [intros s'; by apply shaped_verlet_step
    | intros s'; by apply (totals_verlet_step n Lm HL) | done |].
  destruct (totals_iter n (feuler_step Lm δt) δt count (qv, pv)) as [Hf2 Hf1];
    [intros s'; by apply shaped_feuler_step
    | intros s'; by apply (totals_feuler_step n Lm HL) | done |].
  destruct (totals_iter n (beuler_step n Lm δt) δt count (qv, pv)) as [Hb2 Hb1];
    [intros s'; by apply shaped_beuler_step
    | intros s'; by apply (totals_beuler_step n Lm HL) | done |].
  exists e, h'. split; [exact Hrun |].
  split; intros l Hl; rewrite !elem_of_cons in Hl;
    destruct Hl as [-> | [-> | [-> | Hl]]];
    try (by apply elem_of_nil in Hl); eexists; split; try eassumption; done.
Qed.

End EulerOnStore.

(** X18: the printed value does not depend on the unit of energy:
    multiplying every entry by one positive number leaves it as it is. *)
Theorem conservation_error_scale_invariant (c : Qc) (t : vec Qc) :
  0 < c → np_mean t ≠ 0 →
  conservation_error (vscale c t) = conservation_error t.
Proof.
  intros Hc Hmean. destruct t as [| x t].
  { exfalso. apply Hmean. reflexivity. }
  assert (np_mean (vscale c (x :: t)) = c * np_mean (x :: t)) as Hm.
  { unfold np_mean. rewrite length_vscale, vsum_vscale. qc.
    unfold Qcdiv. ring. }
  assert (np_max (vscale c (x :: t)) = Ok (c * foldl maximum x t)) as Hmax.
  { rewrite <- foldl_maximum_scale by done. reflexivity. }
  assert (np_min (vscale c (x :: t)) = Ok (c * foldl minimum x t)) as Hmin.
  { rewrite <- foldl_minimum_scale by done. reflexivity. }
  unfold conservation_error. rewrite Hmax, Hmin, Hm.
  cbn [np_max np_min mbind result_bind].
  f_equal. qc. field. split; [done |]. by apply Qclt_not_eq, not_eq_sym in Hc.
Qed.

(** ** The whole notebook *)

Section StepCount.
Implicit Types (δt x : Qc).

Lemma is_zero_false δt : δt ≠ 0 → is_zero δt = false.
Proof.
  intros Hδt. cbn. destruct (Qc_eq_bool δt 0) eqn:Heq; [| done].
  by apply Qc_eq_bool_correct in Heq.
Qed.

Lemma Qc_opp_nonpos x : 0 <= x → - x <= 0.
Proof.
  intros Hx. apply Qcle_minus_iff.
  by replace (0 + - - x) with x by ring.
Qed.

Lemma Qc_opp_nonneg x : x <= 0 → 0 <= - x.
Proof.
  intros Hx. apply (proj1 (Qcle_minus_iff x 0)) in Hx.
  by replace (0 + - x) with (- x) in Hx by ring.
Qed.

Lemma two_pi_pos : 0 < two [*] np_pi (A := Qc).
Proof. reflexivity. Qed.

(** At most one full period per step: at least one step. *)
Lemma num_steps_some δt :
  0 < δt → δt <= two [*] np_pi →
  ∃ count, num_steps δt = Ok (Z.of_nat (S count)).
Proof.
  intros Hpos Hle. unfold num_steps.
  rewrite is_zero_false by (by apply not_eq_sym, Qclt_not_eq).
  set (x := two [*] np_pi [/] δt).
  assert (0 <= / δt) as Hinv by (by apply Qc_inv_nonneg, Qclt_le_weak).
  assert (1 <= x) as Hx.
  { unfold x. qc. unfold Qcdiv.
    rewrite <- (Qcmult_inv_r δt) by (by apply not_eq_sym, Qclt_not_eq).
    by apply Qcmult_le_compat_r. }
  assert (0 <= x) as Hx0 by (by eapply Qcle_trans; [| exact Hx]).
  cbn [int_of Qc_scalar]. rewrite Qc_trunc_floor by done.
  assert (1 <= Qfloor x)%Z as Hfl.
  { rewrite <- (Qfloor_Z 1). by apply Qfloor_resp_le. }
  exists (Z.to_nat (Qfloor x - 1)). f_equal. lia.
Qed.

(** A negative step, or more than one full period per step: no step. *)
Lemma num_steps_none δt :
  δt < 0 ∨ two [*] np_pi < δt →
  ∃ k, num_steps δt = Ok k ∧ (k <= 0)%Z.
Proof.
  intros Hδt. unfold num_steps.
  assert (δt ≠ 0) as Hne.
  { destruct Hδt as [Hneg | Hbig].
    - by apply Qclt_not_eq.
    - apply not_eq_sym, Qclt_not_eq.
      eapply Qclt_trans; [apply two_pi_pos | exact Hbig]. }
  rewrite is_zero_false by done.
  set (x := two [*] np_pi [/] δt).
  exists (Qc_trunc x). split; [done |].
  destruct Hδt as [Hneg | Hbig].
  - assert (x <= 0) as Hx.
    { unfold x. qc.
      replace (two * np_pi / δt) with (- (two * np_pi * / (- δt)))
        by (field; split; [done |]; intros Hz; apply Hne;
            rewrite <- (Qcopp_involutive δt), Hz; reflexivity).
      apply Qc_opp_nonpos.
      apply Qc_mul_nonneg; [apply Qclt_le_weak, two_pi_pos |].
      by apply Qc_inv_nonneg, Qc_opp_nonneg, Qclt_le_weak. }
    unfold Qc_trunc. destruct x as [[num den] Hcanon].
    cbn [this Qnum Qden].
    assert (num <= 0)%Z as Hnum.
    { unfold Qcle in Hx. change (this 0) with (0 # 1)%Q in Hx.
      unfold Qle in Hx. cbn in Hx. lia. }
    replace num with (- - num)%Z by lia.
    rewrite Z.quot_opp_l by lia.
    pose proof (Z.quot_pos (- num) (Z.pos den)). lia.
  - assert (0 < δt) as Hpos.
    { eapply Qclt_trans; [apply two_pi_pos | exact Hbig]. }
    assert (0 < / δt) as Hinv.
    { apply Qc_pos_of_nonneg; [by apply Qc_inv_nonneg, Qclt_le_weak |].
      intros Hz. pose proof (Qcmult_inv_r δt Hne) as Hone.
      rewrite Hz in Hone. replace (δt * 0) with 0 in Hone by ring.
      apply (f_equal this) in Hone. discriminate Hone. }
    assert (0 <= x) as Hx0.
    { unfold x. qc. unfold Qcdiv.
      apply Qc_mul_nonneg; [apply Qclt_le_weak, two_pi_pos | by apply Qclt_le_weak]. }
    assert (x < 1) as Hx1.
    { unfold x. qc. unfold Qcdiv.
      rewrite <- (Qcmult_inv_r δt) by done.
      by apply Qcmult_lt_compat_r. }
    rewrite Qc_trunc_floor by done.
    pose proof (Qfloor_le x) as Hfl.
    assert (inject_Z (Qfloor x) < 1)%Q as Hlt.
    { eapply Qle_lt_trans; [exact Hfl | exact Hx1]. }
    change 1%Q with (inject_Z 1) in Hlt. rewrite <- Zlt_Qlt in Hlt. lia.
Qed.

End StepCount.

Section WholeNotebook.
Context `{DirectSolver Qc}.
Implicit Types (n : nat) (Lm : matrix Qc) (δt : Qc) (h : heap Qc).

(** The cells before the loop. *)
Lemma notebook_prefix n Lm (q0 : vec Qc) δt h :
  L n = Ok Lm →
  notebook n q0 δt h
  = (num_steps ← lift (num_steps δt);
     e ← integrate n Lm (length h) (S (length h)) δt num_steps;
     energy ← load (energy_verlet e);
     lift (conservation_error energy)) ((h ++ [q0]) ++ [zeros n]).
Proof.
  intros HL. unfold notebook.
  rewrite (bind_after _ _ _ _ _ (runs_lift _ _ h HL)).
  rewrite (bind_after _ _ _ _ _ (runs_new q0 h)).
  rewrite (bind_after _ _ _ _ _ (runs_np_zeros n (h ++ [q0]))).
  by rewrite length_app, Nat.add_1_r.
Qed.

(** With [count] steps the notebook prints the conservation error of
    the Verlet energies. *)
Lemma notebook_value n Lm (q0 : vec Qc) δt count h :
  L n = Ok Lm → solver_shape → length q0 = n →
  num_steps δt = Ok (Z.of_nat count) →
  ∃ h', notebook n q0 δt h
        = lift (conservation_error
                  (trajectory Lm (verlet_step Lm δt) count (q0, zeros n))) h'.
Proof.
  intros HL Hshape Hlen Hsteps.
  pose proof (L_length n Lm (built_square n Lm HL)) as Hrows.
  rewrite (notebook_prefix n Lm) by done.
  rewrite (bind_after _ _ _ _ _ (runs_lift _ _ _ Hsteps)).
  destruct (runs_integrate n Lm Hrows Hshape δt (Qc_pow2 δt) count
              (length ((h ++ [q0]) ++ [zeros n])) (q0, zeros n)
              (length h) (S (length h)) ((h ++ [q0]) ++ [zeros n]))
    as (e & h' & Hrun & Hinv & _).
  { lookup. }
  { lookup. }
  { split; [done | apply length_zeros]. }
  { done. }
  destruct (loop_inv_done _ _ _ _ _ _ _ _ Hinv)
    as (_ & _ & _ & _ & _ & _ & Hev & _).
  exists h'.
  rewrite (bind_after _ _ _ _ _ Hrun).
  by rewrite (bind_after _ _ _ _ _ (runs_load _ _ _ Hev)).
Qed.

Lemma integrate_negative n Lm (q0 p0 : loc) δt k h (a b : vec Qc) :
  (k < 0)%Z → h !! q0 = Some a → h !! p0 = Some b →
  integrate n Lm q0 p0 δt k h = Raise ValueError.
Proof.
  intros Hk Hq0 Hp0.
  pose proof (lookup_lt_Some _ _ _ Hq0) as Hq0_lt.
  pose proof (lookup_lt_Some _ _ _ Hp0) as Hp0_lt.
  unfold integrate.
  erewrite bind_after by (apply runs_np_copy; lookup).
  erewrite bind_after by (apply runs_np_copy; lookup).
  erewrite bind_after by (apply runs_np_copy; lookup).
  erewrite bind_after by (apply runs_np_copy; lookup).
  erewrite bind_after by (apply runs_np_copy; lookup).
  erewrite bind_after by (apply runs_np_copy; lookup).
  apply bind_raises. unfold np_zeros.
  by destruct (Z.ltb_spec k 0); [| lia].
Qed.

(** X19: in exact arithmetic, for at least one oscillator, positions
    that are not all equal, and a time step between 0 and one period, the
    notebook returns, and the printed conservation error [x] of the
    Verlet energies satisfies [0 <= x] and [x (1 - δt²) <= δt²],
    however many steps that takes. *)
Theorem notebook_conservation_bound n (q0 : vec Qc) δt h :
  (0 < n)%nat → solver_shape → length q0 = n →
  0 < δt → δt <= two [*] np_pi →
  0 < vdot (diffs q0) (diffs q0) →
  ∃ x h', notebook n q0 δt h = Ok (x, h')
          ∧ 0 <= x ∧ x * (1 - δt * δt) <= δt * δt.
Proof.
  intros Hn Hshape Hlen Hpos Hle Hq0.
  pose proof (L_built n Hn) as HL.
  set (Lm := mmul n (transpose n (D_spec n)) (D_spec n)) in *.
  destruct (num_steps_some δt Hpos Hle) as [count Hsteps].
  destruct (notebook_value n Lm q0 δt (S count) h HL Hshape Hlen Hsteps)
    as [h' ->].
  set (a := shadow_energy Lm δt (q0, zeros n)).
  assert (0 < a) as Ha.
  { unfold a. rewrite shadow_at_rest. unfold energy. cbn [fst snd]. qc.
    change (vsum (vmul ?u ?v)) with (vdot u v).
    rewrite vdot_zeros_l, (built_quadratic n Lm HL) by done.
    replace (half * 0 + half * vdot (diffs q0) (diffs q0))
      with (half * vdot (diffs q0) (diffs q0)) by ring.
    apply Qc_mul_pos; [apply half_pos | done]. }
  pose proof (length_trajectory Lm (verlet_step Lm δt) (S count) (q0, zeros n))
    as Hlt.
  destruct (trajectory Lm (verlet_step Lm δt) (S count) (q0, zeros n))
    as [| x t] eqn:Ht; [done |].
  destruct (spread_in_band a (δt * δt) x t) as (e & He & He0 & Hbound).
  - exact Ha.
  - apply Qc_square_nonneg.
  - intros y Hy. rewrite <- Ht in Hy.
    apply elem_of_trajectory in Hy as (k & _ & ->).
    apply (verlet_band n Lm HL). split; [done | apply length_zeros].
  - exists e, h'. rewrite He. done.
Qed.

(** X20: in exact arithmetic, for at least one oscillator, the notebook
    raises [ZeroDivisionError] when the time step is zero, and
    [ValueError] when it is negative or longer than one period: then the
    energy arrays cannot be made, or are empty when [np.max] is asked for
    their largest entry. *)
Theorem notebook_raises n (q0 : vec Qc) δt h :
  (0 < n)%nat → solver_shape → length q0 = n →
  (δt = 0 → notebook n q0 δt h = Raise ZeroDivisionError)
  ∧ (δt < 0 ∨ two [*] np_pi < δt → notebook n q0 δt h = Raise ValueError).
Proof.
  intros Hn Hshape Hlen.
  pose proof (L_built n Hn) as HL.
  set (Lm := mmul n (transpose n (D_spec n)) (D_spec n)) in *.
  split.
  - intros ->. rewrite (notebook_prefix n Lm) by done. reflexivity.
  - intros Hδt. destruct (num_steps_none δt Hδt) as (k & Hsteps & Hk).
    destruct (decide (k = 0%Z)) as [-> | Hk0].
    + destruct (notebook_value n Lm q0 δt 0 h HL Hshape Hlen Hsteps)
        as [h' ->].
      reflexivity.
    + rewrite (notebook_prefix n Lm) by done.
      rewrite (bind_after _ _ _ _ _ (runs_lift _ _ _ Hsteps)).
      apply bind_raises.
      apply (integrate_negative n Lm _ _ δt k _ q0 (zeros n)); [lia | lookup | lookup].
Qed.

End WholeNotebook.

(** ** More concrete runs *)



Lemma updates_shape_mismatch_run :
  verlet_update 2 Run.L2 Run.δt0 0 1 [[1; 2]; [0; 0; 0]] = Raise ValueError
  ∧ feuler_update 2 Run.L2 Run.δt0 0 1 [[1; 2]; [0; 0; 0]] = Raise ValueError
  ∧ beuler_update (H0 := cramer2) 2 Run.L2 Run.δt0 0 1 [[1; 2]; [0; 0; 0]]
    = Raise ValueError.
Proof.
  destruct (updates_shape_mismatch (H0 := cramer2) 2 Run.L2 eq_refl Run.δt0 0 1
              [1; 2] [0; 0; 0] [[1; 2]; [0; 0; 0]] eq_refl eq_refl eq_refl
              ltac:(simpl; lia)) as (Hv & Hf & _ & Hb).
  split; [exact Hv |]. split; [exact Hf |].
  apply (Hb (Run.δt0 * Run.δt0)); [reflexivity | simpl; lia].
Defined.

Lemma verlet_update_symplectic_run :
  ∃ h1 h2 s t,
    runs (verlet_update 2 Run.L2 Run.δt0 0 1) [[1; 2]; [0; 0]; [2; 0]; [1; 1]] () h1
    ∧ runs (verlet_update 2 Run.L2 Run.δt0 2 3) h1 () h2
    ∧ h2 !! 0%nat = Some s.1 ∧ h2 !! 1%nat = Some s.2
    ∧ h2 !! 2%nat = Some t.1 ∧ h2 !! 3%nat = Some t.2
    ∧ pairing s t = pairing ([1; 2], [0; 0]) ([2; 0], [1; 1]).
Proof.
  apply (verlet_update_symplectic 2 Run.L2 Run.δt0 0 1 2 3
           [1; 2] [0; 0] [2; 0] [1; 1] [[1; 2]; [0; 0]; [2; 0]; [1; 1]]
           L2_built eq_refl eq_refl eq_refl eq_refl);
    [| reflexivity ..].
  repeat (apply NoDup_cons; split;
          [rewrite ?not_elem_of_cons; repeat split; try lia; apply not_elem_of_nil |]).
  apply NoDup_nil_2.
Defined.

Lemma potential_energy_zero_iff_uniform_run :
  runs (potential_energy 2 Run.L2 0) [replicate 2 2; zeros 2] 0
       [replicate 2 2; zeros 2]
  ↔ ∃ c, replicate 2 2 = replicate 2 c.
Proof.
  apply (potential_energy_zero_iff_uniform 2 Run.L2 0 (replicate 2 2)
           [replicate 2 2; zeros 2] L2_built); reflexivity.
Defined.

Lemma potential_energy_differences_run :
  runs (potential_energy 2 Run.L2 0) Run.store0
       (half * vdot (diffs [1; 2]) (diffs [1; 2])) Run.store0.
Proof.
  apply (potential_energy_differences 2 Run.L2 0 [1; 2] Run.store0 L2_built);
    reflexivity.
Defined.

Lemma potential_shift_invariant_run :
  ∃ g x,
    runs (potential_gradient 2 Run.L2 0)
         [[1; 2]; vadd [1; 2] (replicate 2 2)] g
         [[1; 2]; vadd [1; 2] (replicate 2 2)]
    ∧ runs (potential_gradient 2 Run.L2 1)
           [[1; 2]; vadd [1; 2] (replicate 2 2)] g
           [[1; 2]; vadd [1; 2] (replicate 2 2)]
    ∧ runs (potential_energy 2 Run.L2 0)
           [[1; 2]; vadd [1; 2] (replicate 2 2)] x
           [[1; 2]; vadd [1; 2] (replicate 2 2)]
    ∧ runs (potential_energy 2 Run.L2 1)
           [[1; 2]; vadd [1; 2] (replicate 2 2)] x
           [[1; 2]; vadd [1; 2] (replicate 2 2)].
Proof.
  apply (potential_shift_invariant 2 Run.L2 2 0 1 [1; 2]
           [[1; 2]; vadd [1; 2] (replicate 2 2)] L2_built);
    reflexivity.
Defined.

Lemma stiffness_operator_bounded_run :
  vdot (matvec Run.L2 [1; 2]) [2; 1] = vdot [1; 2] (matvec Run.L2 [2; 1])
  ∧ 0 <= vdot (matvec Run.L2 [1; 2]) [1; 2]
  ∧ vdot (matvec Run.L2 [1; 2]) [1; 2] <= (1 + 1 + 1 + 1) * vdot [1; 2] [1; 2]
  ∧ matvec Run.L2 (replicate 2 2) = zeros 2.
Proof.
  apply (stiffness_operator_bounded 2 Run.L2 [1; 2] [2; 1] 2 L2_built).
  reflexivity.
Defined.

Lemma difference_matrix_action_run :
  ∃ Dm Λm, D 3 = Ok Dm ∧ Λ 3 = Ok Λm
           ∧ matvec Dm [1; 2; 0] = 0 :: diffs [1; 2; 0]
           ∧ matvec Λm [1; 2; 0] = [1; 2; 0].
Proof.
  apply (difference_matrix_action 3 [1; 2; 0]); [lia | reflexivity].
Defined.

Lemma recorded_energies_nonneg_run :
  ∃ e h' tv tf tb,
    runs (integrate (H0 := cramer2) 2 Run.L2 0 1 Run.δt0 3) Run.store0 e h'
    ∧ h' !! energy_verlet e = Some tv
    ∧ h' !! energy_feuler e = Some tf
    ∧ h' !! energy_beuler e = Some tb
    ∧ ∀ x, x ∈ tv ++ tf ++ tb → 0 <= x.
Proof.
  apply (recorded_energies_nonneg (H := cramer2) 2 Run.L2 Run.δt0 0 1
           [1; 2] [0; 0] 3 Run.store0 L2_built cramer2_shape);
    reflexivity.
Defined.

Lemma verlet_update_shadow_energy_run :
  ∃ h' s,
    runs (verlet_update 2 Run.L2 Run.δt0 0 1) Run.store0 () h'
    ∧ h' !! 0%nat = Some s.1 ∧ h' !! 1%nat = Some s.2
    ∧ shadow_energy Run.L2 Run.δt0 s
      = shadow_energy Run.L2 Run.δt0 ([1; 2], [0; 0]).
Proof.
  apply (verlet_update_shadow_energy 2 Run.L2 Run.δt0 0 1 [1; 2] [0; 0]
           Run.store0 L2_built eq_refl eq_refl ltac:(lia) eq_refl eq_refl).
Defined.

Lemma verlet_energy_band_run :
  ∃ e h' tv,
    runs (integrate (H0 := cramer2) 2 Run.L2 0 1 Run.δt0 3) Run.store0 e h'
    ∧ h' !! energy_verlet e = Some tv
    ∧ length tv = 3%nat
    ∧ ∀ x, x ∈ tv →
        shadow_energy Run.L2 Run.δt0 ([1; 2], [0; 0]) <= x
        ∧ (1 - Run.δt0 * Run.δt0) * x
          <= shadow_energy Run.L2 Run.δt0 ([1; 2], [0; 0]).
Proof.
  destruct (verlet_energy_band (H := cramer2) 2 Run.L2 Run.δt0 0 1
              [1; 2] [0; 0] 3 Run.store0 L2_built cramer2_shape
              eq_refl eq_refl eq_refl eq_refl)
    as (e & h' & tv & Hrun & Hev & Hlen & Hband & _).
  by exists e, h', tv.
Defined.

Lemma beuler_then_feuler_restores_run :
  ∃ p' h1 h2,
    runs (beuler_update (H0 := cramer2) 2 Run.L2 Run.δt0 0 1) Run.store0 p' h1
    ∧ runs (feuler_update 2 Run.L2 (opp Run.δt0) 0 p') h1 () h2
    ∧ h2 !! 0%nat = Some [1; 2] ∧ h2 !! p' = Some [0; 0].
Proof.
  apply (beuler_then_feuler_restores (H := cramer2) 2 Run.L2 Run.δt0 0 1
           [1; 2] [0; 0] Run.store0 L2_built cramer2_shape cramer2_exact);
    reflexivity.
Defined.

Lemma feuler_then_beuler_restores_run :
  ∃ h1 p' h2,
    runs (feuler_update 2 Run.L2 Run.δt0 0 1) Run.store0 () h1
    ∧ runs (beuler_update (H0 := cramer2) 2 Run.L2 (opp Run.δt0) 0 1) h1 p' h2
    ∧ h2 !! 0%nat = Some [1; 2] ∧ h2 !! p' = Some [0; 0].
Proof.
  apply (feuler_then_beuler_restores (H := cramer2) 2 Run.L2 Run.δt0 0 1
           [1; 2] [0; 0] Run.store0 L2_built cramer2_shape cramer2_exact
           eq_refl eq_refl ltac:(lia) eq_refl eq_refl).
Defined.

Lemma euler_energy_balance_run :
  (∃ h' s,
     runs (feuler_update 2 Run.L2 Run.δt0 0 1) Run.store0 () h'
     ∧ h' !! 0%nat = Some s.1 ∧ h' !! 1%nat = Some s.2
     ∧ energy Run.L2 s
       = energy Run.L2 ([1; 2], [0; 0])
         + half * (Run.δt0 * Run.δt0)
           * (vdot (matvec Run.L2 [1; 2]) (matvec Run.L2 [1; 2])
              + vdot (matvec Run.L2 [0; 0]) [0; 0]))
  ∧ (∃ p' h' s,
       runs (beuler_update (H0 := cramer2) 2 Run.L2 Run.δt0 0 1) Run.store0 p' h'
       ∧ h' !! 0%nat = Some s.1 ∧ h' !! p' = Some s.2
       ∧ energy Run.L2 ([1; 2], [0; 0])
         = energy Run.L2 s
           + half * (Run.δt0 * Run.δt0)
             * (vdot (matvec Run.L2 s.1) (matvec Run.L2 s.1)
                + vdot (matvec Run.L2 s.2) s.2)).
Proof.
  apply (euler_energy_balance (H := cramer2) 2 Run.L2 Run.δt0 0 1
           [1; 2] [0; 0] Run.store0 L2_built cramer2_shape cramer2_exact
           eq_refl eq_refl ltac:(lia) eq_refl eq_refl).
Defined.

Lemma uniform_rest_steady_run :
  ∃ e h',
    runs (integrate (H0 := cramer2) 2 Run.L2 0 1 Run.δt0 3)
         [replicate 2 2; zeros 2] e h'
    ∧ (∀ l, l ∈ [q_verlet e; q_feuler e; q_beuler e] →
         h' !! l = Some (replicate 2 2))
    ∧ (∀ l, l ∈ [p_verlet e; p_feuler e; p_beuler e] →
         h' !! l = Some (zeros 2))
    ∧ (∀ l, l ∈ [energy_verlet e; energy_feuler e; energy_beuler e] →
         h' !! l = Some (zeros 3)).
Proof.
  apply (uniform_rest_steady (H := cramer2) 2 Run.L2 Run.δt0 2 0 1 3
           [replicate 2 2; zeros 2] L2_built cramer2_shape cramer2_exact);
    reflexivity.
Defined.

Lemma integrate_conserves_momentum_run :
  ∃ e h',
    runs (integrate (H0 := cramer2) 2 Run.L2 0 1 Run.δt0 3)
         [[1; 2]; [2; 1]] e h'
    ∧ (∀ l, l ∈ [p_verlet e; p_feuler e; p_beuler e] →
         ∃ a, h' !! l = Some a ∧ vsum a = vsum [2; 1])
    ∧ (∀ l, l ∈ [q_verlet e; q_feuler e; q_beuler e] →
         ∃ a, h' !! l = Some a
              ∧ vsum a = vsum [1; 2] + of_int (Z.of_nat 3) * Run.δt0 * vsum [2; 1]).
Proof.
  apply (integrate_conserves_momentum (H := cramer2) 2 Run.L2 Run.δt0 0 1
           [1; 2] [2; 1] 3 [[1; 2]; [2; 1]] L2_built cramer2_shape cramer2_exact);
    reflexivity.
Defined.

Lemma conservation_error_scale_invariant_run :
  conservation_error (vscale 2 [1; 2; 0]) = conservation_error [1; 2; 0].
Proof.
  apply (conservation_error_scale_invariant 2 [1; 2; 0]); [reflexivity |].
  intros Heq. apply (f_equal this) in Heq. vm_compute in Heq. discriminate Heq.
Defined.

Lemma notebook_conservation_bound_run :
  ∃ x h', notebook (H0 := cramer2) 2 [1; 2] Run.δt0 [] = Ok (x, h')
          ∧ 0 <= x ∧ x * (1 - Run.δt0 * Run.δt0) <= Run.δt0 * Run.δt0.
Proof.
  apply (notebook_conservation_bound (H := cramer2) 2 [1; 2] Run.δt0 []);
    [lia | apply cramer2_shape | reflexivity | reflexivity
    | vm_compute; discriminate | reflexivity].
Defined.

Lemma notebook_raises_run :
  notebook (H0 := cramer2) 2 [1; 2] 0 [] = Raise ZeroDivisionError
  ∧ notebook (H0 := cramer2) 2 [1; 2] (- 1) [] = Raise ValueError
  ∧ notebook (H0 := cramer2) 2 [1; 2] (Q2Qc 7) [] = Raise ValueError.
Proof.
  split; [| split].
  - apply (notebook_raises (H := cramer2) 2 [1; 2] 0 []);
      [lia | apply cramer2_shape | reflexivity | reflexivity].
  - apply (notebook_raises (H := cramer2) 2 [1; 2] (- 1) []);
      [lia | apply cramer2_shape | reflexivity | left; reflexivity].
  - apply (notebook_raises (H := cramer2) 2 [1; 2] (Q2Qc 7) []);
      [lia | apply cramer2_shape | reflexivity | right; reflexivity].
Defined.
